(** * A shallow embedding of the caching, resilience and batch layer

    The development follows the TypeScript sources component by component:
    the retry handler, the circuit breaker, the token-bucket rate limiter,
    the compression codec, the cache-key generator, the two-tier cache
    manager, the deduplicating priority queue and the batch manager.  Each
    component lives in a module of its own; external collaborators (zlib,
    JSON, SHA-256, node-cache, SQLite, the wrapped operations) are taken as
    section variables. *)

From Stdlib Require Import ZArith QArith Qminmax Qround Lia Bool DecimalString.
From Stdlib Require OrderedTypeEx SpecFloat.
From Stdlib Require Import Qpower Lqa.
From stdpp Require Import base option list strings gmap sorting.

Local Open Scope Z_scope.

(** Outcome of a call that either returns or throws. *)
Inductive Result (E T : Type) : Type :=
| Returned (v : T)
| Thrown (e : E).
Arguments Returned {E T} v.
Arguments Thrown {E T} e.

(** Decimal rendering of a natural number, as template literals print it. *)
Definition show_nat (n : nat) : string :=
  NilEmpty.string_of_uint (Nat.to_uint n).

(* ================================================================== *)
(** * Retry handler (src/utils/retryHandler.ts) *)
(* ================================================================== *)
Module Retry.

(** The part of an [APIError] that the handler looks at.  [response] is
    [None] when the error carries no response (network-level failure),
    [Some None] when the response has no numeric status. *)
Record APIError := mkError {
  message : string;
  response : option (option Z)
}.

Record RetryConfig := mkConfig {
  retries : nat;
  retryDelay : Q;
  backoffMultiplier : Q;
  maxRetryDelay : Q;
  retryCondition : APIError -> bool
}.

(** [defaultRetryCondition]: the chain of early returns of the source. *)
Definition defaultRetryCondition (error : APIError) : bool :=
  match response error with
  | None => true
  | Some None => false
  | Some (Some status) =>
      if (500 <=? status) && (status <? 600) then true
      else if status =? 429 then true
      else if (status =? 408) || (status =? 409) then true
      else if (400 <=? status) && (status <? 500) then false
      else false
  end.

(** The constructor's defaults. *)
Definition defaultConfig : RetryConfig :=
  mkConfig 3 (1000 # 1) (2 # 1) (30000 # 1) defaultRetryCondition.

(** [calculateDelay]; [rnd] is the value drawn from [Math.random()]. *)
Definition calculateDelay (cfg : RetryConfig) (attempt : nat) (rnd : Q) : Q :=
  let baseDelay := (retryDelay cfg * backoffMultiplier cfg ^ Z.of_nat attempt)%Q in
  let jitter := (rnd * (1 # 10) * baseDelay)%Q in
  Qmin (baseDelay + jitter)%Q (maxRetryDelay cfg).

(** The final error: the last error with its message rewritten in place. *)
Definition enhance (cfg : RetryConfig) (lastError : APIError) : APIError :=
  mkError ("Request failed after " +:+ show_nat (retries cfg + 1)
             +:+ " attempts: " +:+ message lastError)
          (response lastError).

Definition noErrorCaptured : APIError :=
  mkError "Request failed but no error was captured" None.

Section Execute.
Context {W T : Type}.

(** The effects [execute] has on the outside world [W]: invoking [fn],
    drawing a random number, and sleeping. *)
Record Env := mkEnv {
  fn : W -> Result APIError T * W;
  random : W -> Q * W;
  sleep : Q -> W -> W
}.

Variable cfg : RetryConfig.
Variable env : Env.

(** The code after the [while] loop. *)
Definition afterLoop (lastError : option APIError) (w : W)
  : Result APIError T * W :=
  match lastError with
  | None => (Thrown noErrorCaptured, w)
  | Some e => (Thrown (enhance cfg e), w)
  end.

(** The [while (attempt <= retries)] loop; [fuel] bounds the number of
    iterations and [None] means the fuel ran out. *)
Fixpoint loop (fuel : nat) (attempt : nat) (lastError : option APIError)
    (w : W) : option (Result APIError T * W) :=
  if (attempt <=? retries cfg)%nat then
    match fuel with
    | O => None
    | S fuel' =>
        match fn env w with
        | (Returned v, w1) => Some (Returned v, w1)
        | (Thrown error, w1) =>
            let attempt' := S attempt in
            if (retries cfg <? attempt')%nat then
              Some (afterLoop (Some error) w1)
            else if negb (retryCondition cfg error) then
              Some (Thrown error, w1)
            else
              let '(rnd, w2) := random env w1 in
              let delay := calculateDelay cfg (attempt' - 1) rnd in
              loop fuel' attempt' (Some error) (sleep env delay w2)
        end
    end
  else Some (afterLoop lastError w).

Definition execute (w : W) : option (Result APIError T * W) :=
  loop (S (retries cfg)) 0 None w.
End Execute.

Arguments Env : clear implicits.

(** Instrumentation: the same environment with a counter of invocations
    of [fn] carried beside the world. *)
Definition counted {W T} (env : Env W T) : Env (W * nat)%type T :=
  @mkEnv (W * nat)%type T
    (fun '(w, n) => let '(r, w') := fn env w in (r, (w', S n)))
    (fun '(w, n) => let '(q, w') := random env w in (q, (w', n)))
    (fun d '(w, n) => (sleep env d w, n)).

(** An operation given by the outcome of each of its invocations; the
    world is the number of invocations so far. *)
Definition scripted {T} (script : nat -> Result APIError T) : Env nat T :=
  @mkEnv nat T (fun n => (script n, S n)) (fun n => (0%Q, n)) (fun _ n => n).

(** The [i]-th invocation fails with an error the condition accepts. *)
Definition retryable_failure {T} (cfg : RetryConfig)
    (script : nat -> Result APIError T) (i : nat) : Prop :=
  exists e, script i = Thrown e /\ retryCondition cfg e = true.

(** ** Facts about the retry loop *)

Lemma defaultRetryCondition_spec (e : APIError) :
  defaultRetryCondition e = true <->
  (response e = None \/
   exists s, response e = Some (Some s) /\
             (500 <= s < 600 \/ s = 429 \/ s = 408 \/ s = 409)).
Proof.
  unfold defaultRetryCondition.
  destruct (response e) as [[s|]|]; split; intros H.
  - right. exists s. split; [reflexivity|].
    destruct (500 <=? s) eqn:E1, (s <? 600) eqn:E2, (s =? 429) eqn:E3,
      (s =? 408) eqn:E4, (s =? 409) eqn:E5, (400 <=? s) eqn:E6,
      (s <? 500) eqn:E7; simpl in H; try discriminate; lia.
  - destruct H as [H|(s' & Hs & H)]; [discriminate|].
    injection Hs as <-.
    destruct (500 <=? s) eqn:E1, (s <? 600) eqn:E2, (s =? 429) eqn:E3,
      (s =? 408) eqn:E4, (s =? 409) eqn:E5, (400 <=? s) eqn:E6,
      (s <? 500) eqn:E7; simpl; try reflexivity; lia.
  - discriminate.
  - destruct H as [H|(s' & Hs & _)]; discriminate.
  - now left.
  - reflexivity.
Qed.

Lemma loop_total {W T} (cfg : RetryConfig) (env : Env W T) fuel attempt last w :
  (retries cfg < fuel + attempt)%nat ->
  exists r, loop cfg env fuel attempt last w = Some r.
Proof.
  revert attempt last w.
  induction fuel as [|fuel IH]; intros attempt last w Hf; simpl.
  - destruct (attempt <=? retries cfg)%nat eqn:E; [|eauto].
    apply Nat.leb_le in E. lia.
  - destruct (attempt <=? retries cfg)%nat eqn:E; [|eauto].
    destruct (fn env w) as [[v|error] w1]; [eauto|].
    destruct (retries cfg <? S attempt)%nat; [eauto|].
    destruct (negb (retryCondition cfg error)); [eauto|].
    destruct (random env w1) as [rnd w2].
    apply IH. lia.
Qed.

Lemma loop_counted {W T} (cfg : RetryConfig) (env : Env W T)
    fuel attempt last w n r w' n' :
  loop cfg (counted env) fuel attempt last (w, n) = Some (r, (w', n')) ->
  (n' + attempt <= n + Nat.max attempt (retries cfg + 1))%nat.
Proof.
  revert attempt last w n.
  induction fuel as [|fuel IH]; intros attempt last w n; simpl.
  - destruct (attempt <=? retries cfg)%nat; [discriminate|].
    unfold afterLoop. destruct last; intros [= _ _ <-]; lia.
  - destruct (attempt <=? retries cfg)%nat eqn:E.
    + apply Nat.leb_le in E.
      destruct (fn env w) as [[v|error] w1]; [intros [= _ _ <-]; lia|].
      destruct (retries cfg <? S attempt)%nat.
      { unfold afterLoop. intros [= _ _ <-]. lia. }
      destruct (negb (retryCondition cfg error)); [intros [= _ _ <-]; lia|].
      destruct (random env w1) as [rnd w2].
      intros H. apply IH in H. lia.
    + unfold afterLoop. destruct last; intros [= _ _ <-]; lia.
Qed.

(** Running the scripted operation from invocation [a] on: the failures
    before index [k] are retried, the outcome of invocation [k] decides. *)
Lemma loop_scripted_stop {T} (cfg : RetryConfig)
    (script : nat -> Result APIError T) k e :
  (k < retries cfg)%nat ->
  (forall i, (i < k)%nat -> retryable_failure cfg script i) ->
  script k = Thrown e -> retryCondition cfg e = false ->
  forall d fuel a last, (a + d = k)%nat -> (d < fuel)%nat ->
  loop cfg (scripted script) fuel a last a = Some (Thrown e, S k).
Proof.
  intros Hk Hpre He Hc. induction d as [|d IH]; intros fuel a last Ha Hf;
    (destruct fuel as [|fuel]; [lia|]); cbn [loop];
    (assert ((a <=? retries cfg)%nat = true) as -> by (apply Nat.leb_le; lia));
    (assert ((retries cfg <? S a)%nat = false) as -> by (apply Nat.ltb_ge; lia));
    cbn [scripted fn random sleep].
  - replace a with k by lia. now rewrite He, Hc.
  - destruct (Hpre a) as (e' & He' & Hc'); [lia|].
    rewrite He', Hc'. cbn [negb]. apply IH; lia.
Qed.

Lemma loop_scripted_exhaust {T} (cfg : RetryConfig)
    (script : nat -> Result APIError T) e :
  (forall i, (i < retries cfg)%nat -> retryable_failure cfg script i) ->
  script (retries cfg) = Thrown e ->
  forall d fuel a last, (a + d = retries cfg)%nat -> (d < fuel)%nat ->
  loop cfg (scripted script) fuel a last a
  = Some (Thrown (enhance cfg e), S (retries cfg)).
Proof.
  intros Hpre He. induction d as [|d IH]; intros fuel a last Ha Hf;
    (destruct fuel as [|fuel]; [lia|]); cbn [loop];
    (assert ((a <=? retries cfg)%nat = true) as -> by (apply Nat.leb_le; lia));
    cbn [scripted fn random sleep].
  - replace a with (retries cfg) by lia. rewrite He.
    assert ((retries cfg <? S (retries cfg))%nat = true) as ->
      by (apply Nat.ltb_lt; lia).
    reflexivity.
  - destruct (Hpre a) as (e' & He' & Hc'); [lia|].
    assert ((retries cfg <? S a)%nat = false) as -> by (apply Nat.ltb_ge; lia).
    rewrite He', Hc'. cbn [negb]. apply IH; lia.
Qed.

(** C7.  With [N] retries and the default retry condition: the condition
    accepts exactly the errors without a response and the statuses 5xx,
    429, 408 and 409; whatever the operation does, [execute] returns after
    at most [N + 1] invocations of it; when an invocation that is not the
    last allowed one fails with an error the condition rejects, that error
    is thrown unchanged and the operation is not invoked again; and when
    all [N + 1] invocations fail, the last error is thrown with the
    message [Request failed after N+1 attempts: ...]. *)
Theorem execute_retry_contract (T : Type) (N : nat) (d m mx : Q) :
  let cfg := mkConfig N d m mx defaultRetryCondition in
  (forall e, defaultRetryCondition e = true <->
     (response e = None \/
      exists s, response e = Some (Some s) /\
                (500 <= s < 600 \/ s = 429 \/ s = 408 \/ s = 409)))
  /\ (forall (W : Type) (env : Env W T) (w : W),
        exists r w' n,
          execute cfg (counted env) (w, 0%nat) = Some (r, (w', n))
          /\ (n <= N + 1)%nat)
  /\ (forall (script : nat -> Result APIError T) k e,
        (k < N)%nat ->
        (forall i, (i < k)%nat -> retryable_failure cfg script i) ->
        script k = Thrown e -> defaultRetryCondition e = false ->
        execute cfg (scripted script) 0%nat = Some (Thrown e, S k))
  /\ (forall (script : nat -> Result APIError T) e,
        (forall i, (i < N)%nat -> retryable_failure cfg script i) ->
        script N = Thrown e ->
        execute cfg (scripted script) 0%nat
        = Some (Thrown (enhance cfg e), S N)
        /\ message (enhance cfg e)
           = "Request failed after " +:+ show_nat (N + 1)
               +:+ " attempts: " +:+ message e).
Proof.
  intros cfg. split; [exact defaultRetryCondition_spec|].
  split; [|split].
  - intros W env w.
    destruct (loop_total cfg (counted env) (S N) 0 None (w, 0%nat))
      as [[r [w' n]] Hr]; [simpl; lia|].
    exists r, w', n. split; [exact Hr|].
    apply loop_counted in Hr. simpl in Hr. lia.
  - intros script k e Hk Hpre He Hc.
    apply (loop_scripted_stop cfg script k e Hk Hpre He Hc k); simpl; lia.
  - intros script e Hpre He. split; [|reflexivity].
    apply (loop_scripted_exhaust cfg script e Hpre He N); simpl; lia.
Qed.

(** A run with two retries: a 503 is retried, the 404 that follows is
    thrown as it is after two invocations; and a run with one retry where
    both invocations fail without a response. *)
Lemma execute_retry_contract_witness :
  execute (mkConfig 2 (1000 # 1) (2 # 1) (30000 # 1) defaultRetryCondition)
    (scripted (fun i => match i with
                        | O => Thrown (mkError "unavailable" (Some (Some 503)))
                        | _ => @Thrown _ unit (mkError "not found" (Some (Some 404)))
                        end)) 0%nat
  = Some (Thrown (mkError "not found" (Some (Some 404))), 2%nat)
  /\ execute (mkConfig 1 (1000 # 1) (2 # 1) (30000 # 1) defaultRetryCondition)
       (scripted (fun _ => @Thrown _ unit (mkError "timeout" None))) 0%nat
     = Some (Thrown (mkError "Request failed after 2 attempts: timeout" None),
             2%nat).
Proof.
  split.
  - apply (proj1 (proj2 (proj2
             (execute_retry_contract unit 2 (1000 # 1) (2 # 1) (30000 # 1))))
           _ 1%nat).
    + lia.
    + intros i Hi. assert (i = 0%nat) as -> by lia.
      eexists. split; reflexivity.
    + reflexivity.
    + reflexivity.
  - refine (proj1 (proj2 (proj2 (proj2
             (execute_retry_contract unit 1 (1000 # 1) (2 # 1) (30000 # 1))))
           (fun _ => Thrown (mkError "timeout" None))
           (mkError "timeout" None) _ _)).
    + intros i Hi. eexists. split; reflexivity.
    + reflexivity.
Defined.

(** ** Further facts: the first success, and the delay between attempts *)

Lemma loop_scripted_success {T} (cfg : RetryConfig)
    (script : nat -> Result APIError T) k v :
  (k <= retries cfg)%nat ->
  (forall i, (i < k)%nat -> retryable_failure cfg script i) ->
  script k = Returned v ->
  forall d fuel a last, (a + d = k)%nat -> (d < fuel)%nat ->
  loop cfg (scripted script) fuel a last a = Some (Returned v, S k).
Proof.
  intros Hk Hpre Hv. induction d as [|d IH]; intros fuel a last Ha Hf;
    (destruct fuel as [|fuel]; [lia|]); cbn [loop];
    (assert ((a <=? retries cfg)%nat = true) as -> by (apply Nat.leb_le; lia));
    cbn [scripted fn random sleep].
  - replace a with k by lia. now rewrite Hv.
  - destruct (Hpre a) as (e' & He' & Hc'); [lia|].
    assert ((retries cfg <? S a)%nat = false) as -> by (apply Nat.ltb_ge; lia).
    rewrite He', Hc'. cbn [negb]. apply IH; lia.
Qed.

(** X1.  Whatever the retry condition is: when the first [k] invocations
    fail with errors the condition accepts, [k] being at most the number
    of retries, and the next invocation succeeds, [execute] returns the
    value of that invocation and the operation has been invoked [k + 1]
    times. *)
Theorem execute_returns_first_success {T} (cfg : RetryConfig)
    (script : nat -> Result APIError T) (k : nat) (v : T) :
  (k <= retries cfg)%nat ->
  (forall i, (i < k)%nat -> retryable_failure cfg script i) ->
  script k = Returned v ->
  execute cfg (scripted script) 0%nat = Some (Returned v, S k).
Proof.
  intros Hk Hpre Hv.
  apply (loop_scripted_success cfg script k v Hk Hpre Hv k); lia.
Qed.

Lemma execute_returns_first_success_witness :
  execute defaultConfig
    (scripted (fun i => match i with
                        | O => Thrown (mkError "reset" None)
                        | S O => Thrown (mkError "busy" (Some (Some 429)))
                        | _ => Returned 7%nat
                        end)) 0%nat
  = Some (Returned 7%nat, 3%nat).
Proof.
  apply (execute_returns_first_success defaultConfig _ 2 7%nat).
  - cbn. lia.
  - intros i Hi. destruct i as [|[|i]]; [| |lia];
      eexists; split; reflexivity.
  - reflexivity.
Defined.

(** X2.  With a non-negative base delay and multiplier and a random
    number in [[0, 1)], the delay before a retry is never above
    [maxRetryDelay], never below the smaller of the exponential delay and
    [maxRetryDelay], and never more than a tenth above the exponential
    delay. *)
Theorem calculateDelay_bounds (cfg : RetryConfig) (attempt : nat) (rnd : Q) :
  (0 <= retryDelay cfg)%Q -> (0 <= backoffMultiplier cfg)%Q ->
  (0 <= rnd)%Q -> (rnd < 1)%Q ->
  let baseDelay :=
    (retryDelay cfg * backoffMultiplier cfg ^ Z.of_nat attempt)%Q in
  (calculateDelay cfg attempt rnd <= maxRetryDelay cfg)%Q
  /\ (Qmin baseDelay (maxRetryDelay cfg) <= calculateDelay cfg attempt rnd)%Q
  /\ (calculateDelay cfg attempt rnd <= (11 # 10) * baseDelay)%Q.
Proof.
  intros Hd Hm Hr0 Hr1 baseDelay. unfold calculateDelay. fold baseDelay.
  assert (0 <= baseDelay)%Q as Hb.
  { unfold baseDelay. apply Qmult_le_0_compat; [exact Hd|].
    now apply Qpower_0_le. }
  generalize dependent baseDelay. intros b Hb.
  assert (0 <= rnd * (1 # 10) * b)%Q as Hj0.
  { apply Qmult_le_0_compat; [|exact Hb].
    apply Qmult_le_0_compat; [exact Hr0|discriminate]. }
  assert (rnd * (1 # 10) * b <= 1 * (1 # 10) * b)%Q as Hj1.
  { apply Qmult_le_compat_r; [|exact Hb].
    apply Qmult_le_compat_r; [now apply Qlt_le_weak|discriminate]. }
  split; [apply Q.le_min_r|]. split.
  - apply Q.min_glb.
    + eapply Qle_trans; [apply Q.le_min_l|]. lra.
    + apply Q.le_min_r.
  - eapply Qle_trans; [apply Q.le_min_l|]. lra.
Qed.

Lemma calculateDelay_bounds_witness :
  (calculateDelay defaultConfig 2 (1 # 2) <= 30000)%Q
  /\ (Qmin (1000 * 2 ^ 2) 30000 <= calculateDelay defaultConfig 2 (1 # 2))%Q
  /\ (calculateDelay defaultConfig 2 (1 # 2) <= (11 # 10) * (1000 * 2 ^ 2))%Q.
Proof.
  apply (calculateDelay_bounds defaultConfig 2 (1 # 2)); cbn; try discriminate.
  reflexivity.
Defined.

End Retry.

(* ================================================================== *)
(** * Circuit breaker (src/utils/circuitBreaker.ts) *)
(* ================================================================== *)
Module Breaker.

Inductive CircuitState := closed | open | half_open.

Record CircuitBreakerConfig := mkConfig {
  failureThreshold : Z;
  timeout : Z;
  resetTimeout : Z;
  monitoringPeriod : option Z
}.

(** The constructor's defaults. *)
Definition defaultConfig : CircuitBreakerConfig :=
  mkConfig 5 10000 60000 (Some 300000).

(** The private fields of a [CircuitBreaker]; times are in milliseconds
    and [None] stands for [null]. *)
Record Breaker := mkBreaker {
  state : CircuitState;
  failureCount : Z;
  successCount : Z;
  totalRequests : Z;
  lastFailureTime : option Z;
  lastSuccessTime : option Z;
  nextAttemptTime : option Z
}.

Definition initial : Breaker := mkBreaker closed 0 0 0 None None None.

(** What [execute] can throw: the breaker's own error (with the next
    attempt time its message prints), the time-out of [executeWithTimeout]
    (with the configured time-out), or the operation's error. *)
Inductive BreakerError (E : Type) :=
| CircuitBreakerError (next : option Z)
| OperationTimeout (ms : Z)
| OperationError (e : E).
Arguments CircuitBreakerError {E} next.
Arguments OperationTimeout {E} ms.
Arguments OperationError {E} e.

(** JavaScript truthiness of a [number | null] value. *)
Definition truthy (x : option Z) : bool :=
  match x with Some v => negb (v =? 0) | None => false end.

(** The number a [number | null] value compares as. *)
Definition numberOf (x : option Z) : Z :=
  match x with Some v => v | None => 0 end.

Section Execute.
Context {A E T W : Type}.
Variable cfg : CircuitBreakerConfig.

(** The wrapped operation: started in world [w] it settles, after
    [duration] milliseconds, with a value or an error. *)
Variable operation : A -> W -> (Result E T * Z) * W.

(** The first [if] of [checkStateTransition]. *)
Definition toHalfOpen (now : Z) (s : Breaker) : Breaker :=
  match state s with
  | open =>
      if truthy (nextAttemptTime s) && (numberOf (nextAttemptTime s) <=? now)
      then mkBreaker half_open (failureCount s) (successCount s)
             (totalRequests s) (lastFailureTime s) (lastSuccessTime s) None
      else s
  | _ => s
  end.

(** The condition of the second [if]: a failure older than the monitoring
    period takes one off the failure count. *)
Definition decays (now : Z) (s : Breaker) : bool :=
  truthy (monitoringPeriod cfg) && truthy (lastFailureTime s) &&
  (numberOf (lastFailureTime s) <? now - numberOf (monitoringPeriod cfg)).

Definition checkStateTransition (now : Z) (s : Breaker) : Breaker :=
  let s1 := toHalfOpen now s in
  if decays now s1 then
    mkBreaker (state s1) (Z.max 0 (failureCount s1 - 1)) (successCount s1)
      (totalRequests s1) (lastFailureTime s1) (lastSuccessTime s1)
      (nextAttemptTime s1)
  else s1.

Definition reset (s : Breaker) : Breaker :=
  mkBreaker closed 0 (successCount s) (totalRequests s)
    (lastFailureTime s) (lastSuccessTime s) None.

Definition openCircuit (now : Z) (s : Breaker) : Breaker :=
  mkBreaker open (failureCount s) (successCount s) (totalRequests s)
    (lastFailureTime s) (lastSuccessTime s) (Some (now + resetTimeout cfg)).

Definition onSuccess (now : Z) (s : Breaker) : Breaker :=
  let s1 := mkBreaker (state s) (failureCount s) (successCount s + 1)
              (totalRequests s) (lastFailureTime s) (Some now)
              (nextAttemptTime s) in
  match state s1 with
  | half_open => reset s1
  | _ => s1
  end.

Definition onFailure (now : Z) (s : Breaker) : Breaker :=
  let s1 := mkBreaker (state s) (failureCount s + 1) (successCount s)
              (totalRequests s) (Some now) (lastSuccessTime s)
              (nextAttemptTime s) in
  if failureThreshold cfg <=? failureCount s1 then openCircuit now s1 else s1.

(** [executeWithTimeout]: the operation races a timer of [timeout]
    milliseconds; the result comes with the time at which it is known. *)
Definition executeWithTimeout (args : A) (now : Z) (w : W)
  : Result (BreakerError E) T * Z * W :=
  let '((r, duration), w') := operation args w in
  if duration <? timeout cfg then
    match r with
    | Returned v => (Returned v, now + duration, w')
    | Thrown e => (Thrown (OperationError e), now + duration, w')
    end
  else (Thrown (OperationTimeout (timeout cfg)), now + timeout cfg, w').

(** [execute], called at time [now] with no other call in flight. *)
Definition execute (args : A) (now : Z) (s : Breaker) (w : W)
  : Result (BreakerError E) T * Breaker * W :=
  let s1 := mkBreaker (state s) (failureCount s) (successCount s)
              (totalRequests s + 1) (lastFailureTime s) (lastSuccessTime s)
              (nextAttemptTime s) in
  let s2 := checkStateTransition now s1 in
  match state s2 with
  | open => (Thrown (CircuitBreakerError (nextAttemptTime s2)), s2, w)
  | _ =>
      match executeWithTimeout args now w with
      | (Returned v, t, w') => (Returned v, onSuccess t s2, w')
      | (Thrown e, t, w') => (Thrown e, onFailure t s2, w')
      end
  end.

(** [manualReset] and [forceOpen]. *)
Definition manualReset (s : Breaker) : Breaker :=
  let s1 := reset s in
  mkBreaker (state s1) (failureCount s1) 0 0 None None (nextAttemptTime s1).

Definition forceOpen (now : Z) (s : Breaker) : Breaker := openCircuit now s.

(** A sequence of calls made one after the other at the given times. *)
Fixpoint runCalls (calls : list (Z * A)) (s : Breaker) (w : W) : Breaker * W :=
  match calls with
  | [] => (s, w)
  | (now, args) :: rest =>
      let '(_, s', w') := execute args now s w in runCalls rest s' w'
  end.

(** No call of the sequence finds a failure older than the monitoring
    period. *)
Fixpoint undecayed (calls : list (Z * A)) (s : Breaker) (w : W) : Prop :=
  match calls with
  | [] => True
  | (now, args) :: rest =>
      decays now s = false /\
      let '(_, s', w') := execute args now s w in undecayed rest s' w'
  end.

(** The operation, started in world [w], does not deliver a value within
    the time-out. *)
Definition failsAt (args : A) (w : W) : Prop :=
  match operation args w with
  | ((Returned _, duration), _) => timeout cfg <= duration
  | ((Thrown _, _), _) => True
  end.

End Execute.

(** An operation given by the outcome and duration of each invocation;
    the world is the number of invocations so far. *)
Definition scripted {A E T} (script : nat -> Result E T * Z)
  : A -> nat -> (Result E T * Z) * nat :=
  fun _ n => (script n, S n).

(** ** Facts about the breaker *)

Section Facts.
Context {A E T W : Type}.
Variable cfg : CircuitBreakerConfig.
Variable operation : A -> W -> (Result E T * Z) * W.

(** A call made while the circuit is open and the reset time-out has not
    elapsed is refused, and neither the operation nor the state machine
    moves. *)
Lemma execute_open_refused args now s w t :
  state s = open -> nextAttemptTime s = Some t -> now < t ->
  exists s',
    execute cfg operation args now s w
      = (Thrown (CircuitBreakerError (Some t)), s', w)
    /\ state s' = open /\ nextAttemptTime s' = Some t.
Proof.
  intros Hst Hn Hlt. unfold execute, checkStateTransition, toHalfOpen.
  cbn [state nextAttemptTime]. rewrite Hst, Hn. cbn [numberOf].
  assert ((t <=? now) = false) as -> by lia.
  rewrite andb_false_r.
  match goal with |- context [decays ?c ?n ?x] => destruct (decays c n x) end;
    cbn [state nextAttemptTime]; rewrite ?Hst, ?Hn; eauto.
Qed.

(** The first call once the reset time-out has elapsed finds the circuit
    half-open, and the operation is started. *)
Lemma execute_probe args now s w t :
  state s = open -> nextAttemptTime s = Some t -> t <> 0 -> t <= now ->
  let fc := if decays cfg now s then Z.max 0 (failureCount s - 1)
            else failureCount s in
  let s2 := mkBreaker half_open fc (successCount s) (totalRequests s + 1)
              (lastFailureTime s) (lastSuccessTime s) None in
  execute cfg operation args now s w =
  match executeWithTimeout cfg operation args now w with
  | (Returned v, t', w') => (Returned v, onSuccess t' s2, w')
  | (Thrown e, t', w') => (Thrown e, onFailure cfg t' s2, w')
  end.
Proof.
  intros Hst Hn Ht Hle. unfold execute, checkStateTransition, toHalfOpen.
  cbn [state nextAttemptTime]. rewrite Hst, Hn. cbn [numberOf truthy].
  assert ((t =? 0) = false) as -> by lia.
  assert ((t <=? now) = true) as -> by lia.
  cbn [negb andb]. unfold decays. cbn [lastFailureTime].
  destruct (truthy (monitoringPeriod cfg) && truthy (lastFailureTime s) &&
            (numberOf (lastFailureTime s) <? now - numberOf (monitoringPeriod cfg)));
    reflexivity.
Qed.

Lemma executeWithTimeout_fails args now w :
  failsAt cfg operation args w ->
  exists e t,
    executeWithTimeout cfg operation args now w
      = (Thrown e, t, snd (operation args w)).
Proof.
  unfold failsAt, executeWithTimeout.
  destruct (operation args w) as [[r d] w']. cbn [snd].
  destruct (d <? timeout cfg) eqn:Hd.
  - destruct r as [v|e]; [intros; lia|eauto].
  - eauto.
Qed.

(** A failing call on a closed circuit, with no decay of the count. *)
Lemma execute_closed_failure args now s w :
  state s = closed -> decays cfg now s = false ->
  failsAt cfg operation args w ->
  exists e s',
    execute cfg operation args now s w = (Thrown e, s', snd (operation args w))
    /\ failureCount s' = failureCount s + 1
    /\ state s' = (if failureThreshold cfg <=? failureCount s + 1
                   then open else closed)
    /\ (state s' = open ->
        exists t, lastFailureTime s' = Some t
                  /\ nextAttemptTime s' = Some (t + resetTimeout cfg)).
Proof.
  intros Hst Hdec Hf. unfold execute, checkStateTransition, toHalfOpen.
  cbn [state]. rewrite Hst.
  assert (decays cfg now
            (mkBreaker closed (failureCount s) (successCount s)
               (totalRequests s + 1) (lastFailureTime s) (lastSuccessTime s)
               (nextAttemptTime s)) = false) as -> by exact Hdec.
  cbn [state].
  destruct (executeWithTimeout_fails args now w Hf) as (e & t & ->).
  eexists e, _. split; [reflexivity|].
  unfold onFailure, openCircuit. cbn [failureCount state].
  destruct (failureThreshold cfg <=? failureCount s + 1);
    cbn [failureCount state lastFailureTime nextAttemptTime];
    repeat split; try discriminate.
  intros _. now exists t.
Qed.

End Facts.

(** Consecutive failures on a closed circuit: the count goes up by one a
    call, and the circuit opens with the call that reaches the threshold. *)
Lemma run_failures {A E T} (cfg : CircuitBreakerConfig)
    (script : nat -> Result E T * Z) (calls : list (Z * A)) :
  forall s n,
    state s = closed ->
    failureCount s < failureThreshold cfg ->
    failureCount s + Z.of_nat (length calls) <= failureThreshold cfg ->
    (forall i a, (n <= i < n + length calls)%nat ->
               failsAt cfg (@scripted A E T script) a i) ->
    undecayed cfg (scripted script) calls s n ->
    let '(s', n') := runCalls cfg (scripted script) calls s n in
    failureCount s' = failureCount s + Z.of_nat (length calls)
    /\ n' = (n + length calls)%nat
    /\ state s' = (if failureCount s' <? failureThreshold cfg
                   then closed else open)
    /\ (state s' = open ->
        exists t, lastFailureTime s' = Some t
                  /\ nextAttemptTime s' = Some (t + resetTimeout cfg)).
Proof.
  induction calls as [|[now a] rest IH]; intros s n Hst Hlt Hle Hfail Hund.
  - cbn. rewrite Hst. assert ((failureCount s <? failureThreshold cfg) = true) as ->
      by lia. split; [lia|]. split; [lia|]. split; [reflexivity|discriminate].
  - cbn [runCalls]. cbn [undecayed] in Hund. destruct Hund as [Hdec Hund].
    cbn [length] in *.
    destruct (execute_closed_failure cfg (scripted script) a now s n Hst Hdec)
      as (e & s1 & Hex & Hfc & Hs1 & Hopen); [apply Hfail; lia|].
    rewrite Hex in *. cbn [scripted snd] in *.
    destruct (failureThreshold cfg <=? failureCount s + 1) eqn:Hth.
    + (* the threshold is reached: this was the last call *)
      destruct rest as [|c rest]; [|cbn [length] in Hle; lia].
      cbn. rewrite Hfc, Hs1.
      assert ((failureCount s + 1 <? failureThreshold cfg) = false) as -> by lia.
      split; [lia|]. split; [lia|]. split; [reflexivity|].
      intros _. now apply Hopen.
    + specialize (IH s1 (S n) Hs1).
      destruct (runCalls cfg (scripted script) rest s1 (S n)) as [s' n'].
      destruct IH as (H1 & H2 & H3 & H4); try lia; try exact Hund.
      * intros i a' Hi. apply Hfail. lia.
      * split; [lia|]. split; [lia|]. split; [exact H3|exact H4].
Qed.

(** C2 (as amended).  For calls made one at a time: (1) on a new breaker
    with a threshold of at least one, while no failure is older than the
    monitoring period, consecutive failures leave the circuit closed until
    their number reaches [failureThreshold] and open from the call that
    reaches it; (2) a call made while the circuit is open and before
    [nextAttemptTime] throws the breaker's error without invoking the
    operation; (3) the first call at or after [nextAttemptTime] is let
    through, and when it succeeds the circuit is closed again with
    [failureCount] zero and [nextAttemptTime] cleared, [successCount] and
    [totalRequests] keeping their running totals; (4) when that call fails
    and the failure count, after the monitoring-period decay, reaches the
    threshold again, the circuit is open again and [nextAttemptTime] is the
    time of the failure plus [resetTimeout]. *)
Theorem breaker_transitions (A E T : Type) (cfg : CircuitBreakerConfig) :
  (forall (script : nat -> Result E T * Z) (calls : list (Z * A)),
      1 <= failureThreshold cfg ->
      Z.of_nat (length calls) <= failureThreshold cfg ->
      (forall i (a : A), (i < length calls)%nat ->
                         failsAt cfg (scripted script) a i) ->
      undecayed cfg (scripted script) calls initial 0%nat ->
      let '(s', n') := runCalls cfg (scripted script) calls initial 0%nat in
      n' = length calls
      /\ failureCount s' = Z.of_nat (length calls)
      /\ state s' = (if Z.of_nat (length calls) <? failureThreshold cfg
                     then closed else open)
      /\ (Z.of_nat (length calls) = failureThreshold cfg ->
          exists t, lastFailureTime s' = Some t
                    /\ nextAttemptTime s' = Some (t + resetTimeout cfg)))
  /\ (forall (W : Type) (operation : A -> W -> (Result E T * Z) * W)
             args now s w t,
        state s = open -> nextAttemptTime s = Some t -> now < t ->
        exists s',
          execute cfg operation args now s w
            = (Thrown (CircuitBreakerError (Some t)), s', w)
          /\ state s' = open /\ nextAttemptTime s' = Some t)
  /\ (forall (W : Type) (operation : A -> W -> (Result E T * Z) * W)
             args now s w t v d w',
        state s = open -> nextAttemptTime s = Some t -> t <> 0 -> t <= now ->
        operation args w = ((Returned v, d), w') -> d < timeout cfg ->
        exists s',
          execute cfg operation args now s w = (Returned v, s', w')
          /\ state s' = closed /\ failureCount s' = 0
          /\ nextAttemptTime s' = None
          /\ successCount s' = successCount s + 1
          /\ totalRequests s' = totalRequests s + 1)
  /\ (forall (W : Type) (operation : A -> W -> (Result E T * Z) * W)
             args now s w t,
        state s = open -> nextAttemptTime s = Some t -> t <> 0 -> t <= now ->
        failsAt cfg operation args w ->
        failureThreshold cfg
          <= (if decays cfg now s then Z.max 0 (failureCount s - 1)
              else failureCount s) + 1 ->
        exists e t' s',
          execute cfg operation args now s w
            = (Thrown e, s', snd (operation args w))
          /\ state s' = open
          /\ lastFailureTime s' = Some t'
          /\ nextAttemptTime s' = Some (t' + resetTimeout cfg)).
Proof.
  split; [|split; [|split]].
  - intros script calls H1 Hlen Hfail Hund.
    pose proof (run_failures cfg script calls initial 0%nat eq_refl) as H.
    cbn [failureCount initial] in H.
    destruct (runCalls cfg (scripted script) calls initial 0%nat) as [s' n'].
    destruct H as (Ha & Hb & Hc & Hd); try lia; try exact Hund.
    + intros i a Hi. apply Hfail. lia.
    + split; [lia|]. split; [lia|]. split; [now rewrite Hc, Ha|].
      intros Heq. apply Hd. rewrite Hc, Ha.
      now assert ((0 + Z.of_nat (length calls) <? failureThreshold cfg) = false)
        as -> by lia.
  - intros W operation args now s w t. apply execute_open_refused.
  - intros W operation args now s w t v d w' Hst Hn Ht Hle Hop Hd.
    rewrite (execute_probe cfg operation args now s w t Hst Hn Ht Hle).
    unfold executeWithTimeout. rewrite Hop.
    assert ((d <? timeout cfg) = true) as -> by lia.
    eexists. split; [reflexivity|]. cbn. repeat split; reflexivity.
  - intros W operation args now s w t Hst Hn Ht Hle Hf Hth.
    rewrite (execute_probe cfg operation args now s w t Hst Hn Ht Hle).
    destruct (executeWithTimeout_fails cfg operation args now w Hf)
      as (e & t' & ->).
    exists e, t'. eexists. split; [reflexivity|].
    unfold onFailure, openCircuit. cbn [failureCount].
    match goal with |- context [?a <=? ?b] =>
      assert ((a <=? b) = true) as -> by lia end.
    cbn. repeat split; reflexivity.
Qed.

(** The default configuration at work: five failures one second apart
    open the circuit, and the call after the reset time-out succeeds and
    closes it. *)
Lemma breaker_transitions_witness :
  (let '(s', n') :=
     runCalls defaultConfig
       (scripted (fun _ => (@Thrown unit unit tt, 10)))
       [(1000, tt); (2000, tt); (3000, tt); (4000, tt); (5000, tt)]
       initial 0%nat in
   n' = 5%nat /\ failureCount s' = 5 /\ state s' = open
   /\ nextAttemptTime s' = Some (5010 + 60000))
  /\ (exists s',
        execute defaultConfig (fun (_ : unit) (w : nat) => ((@Returned unit unit tt, 10), S w))
          tt 70000 (mkBreaker open 5 0 5 (Some 5010) None (Some 65010)) 7%nat
          = (Returned tt, s', 8%nat)
        /\ state s' = closed /\ failureCount s' = 0
        /\ nextAttemptTime s' = None
        /\ successCount s' = 0 + 1 /\ totalRequests s' = 5 + 1).
Proof.
  split.
  - pose proof (proj1 (breaker_transitions unit unit unit defaultConfig)
                  (fun _ => (Thrown tt, 10))
                  [(1000, tt); (2000, tt); (3000, tt); (4000, tt); (5000, tt)])
      as H.
    assert (undecayed defaultConfig
              (scripted (fun _ => (@Thrown unit unit tt, 10)))
              [(1000, tt); (2000, tt); (3000, tt); (4000, tt); (5000, tt)]
              initial 0%nat) as Hu
      by (vm_compute; repeat split; reflexivity).
    specialize (H ltac:(cbn; lia) ltac:(cbn; lia) (fun _ _ _ => I) Hu).
    vm_compute in H. destruct H as (Ha & Hb & Hc & Hd).
    vm_compute. split; [exact Ha|]. split; [exact Hb|]. split; [exact Hc|].
    destruct (Hd eq_refl) as (t & Ht & Hn). injection Ht as <-. exact Hn.
  - apply (proj1 (proj2 (proj2 (breaker_transitions unit unit unit defaultConfig)))
             nat (fun _ w => ((Returned tt, 10), S w)) tt 70000
             (mkBreaker open 5 0 5 (Some 5010) None (Some 65010)) 7%nat
             65010 tt 10 8%nat); cbn; try reflexivity; lia.
Defined.

(** C2 as the specification states it fails on two counts.  With a
    threshold of one, the call let through after the reset time-out
    succeeds and the circuit closes with [failureCount] zero but
    [successCount] one and [totalRequests] two: the counters are not all
    zeroed.  With a monitoring period shorter than the reset time-out, a
    call refused while the circuit is open takes one off the failure
    count, so that the failing call let through afterwards leaves the
    count below the threshold and the circuit half-open, where the next
    call is let through as well. *)
Lemma breaker_claim_counterexample :
  (let '(s', n') :=
     runCalls (mkConfig 1 100 1000 None)
       (scripted (fun i => match i with
                           | O => (@Thrown unit unit tt, 0)
                           | _ => (Returned tt, 0)
                           end))
       [(1, tt); (1001, tt)] initial 0%nat in
   n' = 2%nat /\ state s' = closed /\ failureCount s' = 0
   /\ successCount s' = 1 /\ totalRequests s' = 2)
  /\ (let '(s', n') :=
        runCalls (mkConfig 2 100 1000 (Some 10))
          (scripted (fun _ => (@Thrown unit unit tt, 0)))
          [(1, tt); (2, tt); (500, tt); (1002, tt)] initial 0%nat in
      n' = 3%nat /\ state s' = half_open /\ failureCount s' = 1
      /\ fst (execute (mkConfig 2 100 1000 (Some 10))
                (scripted (fun _ => (@Returned unit unit tt, 0)))
                tt 1003 s' n')
         = (Returned tt,
            mkBreaker closed 0 1 5 (Some 1002) (Some 1003) None)).
Proof. split; cbn; repeat split; reflexivity. Qed.

(** ** Further facts: histories of a breaker, and [getStatus] *)

(** What can happen to a breaker, each at some time: [execute] is
    called and runs up to its [await]; the operation of a call that is
    in flight settles and [execute] runs on from its [await];
    [forceOpen]; [manualReset].  Calls overlap: between the two halves
    of one [execute] anything else can happen. *)
Inductive Event (A : Type) :=
| Call (args : A)
| Settle (i : nat)
| ForceOpen
| ManualReset.
Arguments Call {A} args.
Arguments Settle {A} i.
Arguments ForceOpen {A}.
Arguments ManualReset {A}.

Section Histories.
Context {A E T W : Type}.
Variable cfg : CircuitBreakerConfig.
Variable operation : A -> W -> (Result E T * Z) * W.

(** What a call in flight will settle with, and when. *)
Definition Outcome : Type := Result (BreakerError E) T * Z.

(** [execute] up to its [await]: the call is counted and the state
    checked. *)
Definition enter (now : Z) (s : Breaker) : Breaker :=
  checkStateTransition cfg now
    (mkBreaker (state s) (failureCount s) (successCount s)
       (totalRequests s + 1) (lastFailureTime s) (lastSuccessTime s)
       (nextAttemptTime s)).

(** [execute] from its [await] on, run when the outcome is known. *)
Definition settle (outcome : Outcome) (s : Breaker) : Breaker :=
  match outcome with
  | (Returned _, t) => onSuccess t s
  | (Thrown _, t) => onFailure cfg t s
  end.

(** A call with nothing in between is the two halves in a row. *)
Lemma execute_enter_settle args now s w :
  execute cfg operation args now s w
  = match state (enter now s) with
    | open =>
        (Thrown (CircuitBreakerError (nextAttemptTime (enter now s))),
         enter now s, w)
    | _ =>
        let '(r, t, w') := executeWithTimeout cfg operation args now w in
        (r, settle (r, t) (enter now s), w')
    end.
Proof.
  unfold execute, enter, settle.
  destruct (state (checkStateTransition cfg now _)); try reflexivity;
    destruct (executeWithTimeout cfg operation args now w) as [[[v|e] t] w'];
    reflexivity.
Qed.

(** One event on the breaker, the world of the operation and the calls
    in flight.  A call that is not refused starts its operation and is
    in flight with the outcome and the time it will be known at; when
    it settles, [execute] runs on at that time. *)
Definition applyEvent (r : Breaker * W * list Outcome) (ev : Z * Event A)
  : Breaker * W * list Outcome :=
  let '(s, w, pending) := r in
  match snd ev with
  | Call args =>
      let s' := enter (fst ev) s in
      match state s' with
      | open => (s', w, pending)
      | _ =>
          let '(outcome, t, w') :=
            executeWithTimeout cfg operation args (fst ev) w in
          (s', w', pending ++ [(outcome, t)])
      end
  | Settle i =>
      match pending !! i with
      | Some outcome => (settle outcome s, w, delete i pending)
      | None => r
      end
  | ForceOpen => (forceOpen cfg (fst ev) s, w, pending)
  | ManualReset => (manualReset s, w, pending)
  end.

Definition runEvents (history : list (Z * Event A)) (w : W)
  : Breaker * W * list Outcome :=
  foldl applyEvent (initial, w, []) history.

Definition afterEvents (history : list (Z * Event A)) (w : W) : Breaker * W :=
  fst (runEvents history w).

Definition inFlight (history : list (Z * Event A)) (w : W) : list Outcome :=
  snd (runEvents history w).

(** Every [manualReset] of the history finds no call in flight. *)
Fixpoint quietFrom (r : Breaker * W * list Outcome)
    (history : list (Z * Event A)) : bool :=
  match history with
  | [] => true
  | ev :: rest =>
      match snd ev with
      | ManualReset => bool_decide (snd r = [])
      | _ => true
      end && quietFrom (applyEvent r ev) rest
  end.

Definition quietResets (history : list (Z * Event A)) (w : W) : bool :=
  quietFrom (initial, w, []) history.

(** The fields [isOpen] and [canExecute] of [getStatus], read at [now]. *)
Definition isOpen (s : Breaker) : bool :=
  match state s with open => true | _ => false end.

Definition canExecute (now : Z) (s : Breaker) : bool :=
  negb (isOpen s)
  || match nextAttemptTime s with
     | Some next => next <=? now
     | None => false
     end.

(** The time of the next attempt is set exactly while the circuit is
    open. *)
Definition coherent (s : Breaker) : Prop :=
  (state s = open -> nextAttemptTime s <> None)
  /\ (state s <> open -> nextAttemptTime s = None).

(** No counter is negative. *)
Definition counted (s : Breaker) : Prop :=
  0 <= failureCount s /\ 0 <= successCount s /\ 0 <= totalRequests s.

(** Every request counted has succeeded, failed or is one of the [n] in
    flight. *)
Definition tallied (n : nat) (s : Breaker) : Prop :=
  successCount s + failureCount s + Z.of_nat n <= totalRequests s.

Ltac breaker_cases :=
  repeat match goal with
         | |- context [if ?b then _ else _] => destruct b; cbn
         | |- context [match ?r with Returned _ => _ | Thrown _ => _ end] =>
             destruct r; cbn
         end.

Lemma enter_keeps now s :
  coherent s /\ counted s -> coherent (enter now s) /\ counted (enter now s).
Proof.
  destruct s as [st fc sc tr lf ls nx]. unfold coherent, counted. cbn.
  intros [[Ho Hn] (Hf & Hs & Ht)].
  assert (st <> open -> nx = None) as Hn' by exact Hn. clear Hn.
  assert (st = open -> nx <> None) as Ho' by exact Ho. clear Ho.
  unfold enter, checkStateTransition, toHalfOpen.
  generalize (decays cfg now). intros dec. cbn.
  destruct st; cbn; breaker_cases;
    (split; [split; intros H; try discriminate; try congruence;
             try (apply Hn'; discriminate); try (apply Ho'; reflexivity)
            |lia]).
Qed.

Lemma enter_tallied now s n :
  0 <= failureCount s -> tallied n s -> tallied (S n) (enter now s).
Proof.
  destruct s as [st fc sc tr lf ls nx]. unfold tallied. cbn.
  intros Hf Ht.
  unfold enter, checkStateTransition, toHalfOpen.
  generalize (decays cfg now). intros dec. cbn.
  destruct st; cbn; breaker_cases; lia.
Qed.

Lemma settle_keeps outcome s :
  coherent s /\ counted s ->
  coherent (settle outcome s) /\ counted (settle outcome s).
Proof.
  destruct s as [st fc sc tr lf ls nx], outcome as [r t].
  unfold coherent, counted. cbn.
  intros [[Ho Hn] (Hf & Hs & Ht)].
  assert (st <> open -> nx = None) as Hn' by exact Hn. clear Hn.
  assert (st = open -> nx <> None) as Ho' by exact Ho. clear Ho.
  unfold settle, onSuccess, onFailure, openCircuit, reset.
  destruct r; cbn; destruct st; cbn; breaker_cases;
    (split; [split; intros H; try discriminate; try congruence;
             try (apply Hn'; discriminate); try (apply Ho'; reflexivity)
            |lia]).
Qed.

Lemma settle_tallied outcome s n :
  0 <= failureCount s -> tallied (S n) s -> tallied n (settle outcome s).
Proof.
  destruct s as [st fc sc tr lf ls nx], outcome as [r t].
  unfold tallied. cbn. intros Hf Ht.
  unfold settle, onSuccess, onFailure, openCircuit, reset.
  destruct r; cbn; destruct st; cbn; breaker_cases; lia.
Qed.

Lemma applyEvent_keeps r ev :
  coherent (fst (fst r)) /\ counted (fst (fst r)) ->
  coherent (fst (fst (applyEvent r ev)))
  /\ counted (fst (fst (applyEvent r ev))).
Proof.
  destruct r as [[s w] pending], ev as [now [args|i| |]];
    cbn [applyEvent fst snd]; intros H.
  - pose proof (enter_keeps now s H) as H'.
    destruct (state (enter now s)); [|exact H'|];
      destruct (executeWithTimeout cfg operation args now w) as [[o t] w'];
      exact H'.
  - destruct (pending !! i) as [outcome|]; [|exact H].
    now apply settle_keeps.
  - revert H. unfold coherent, counted, forceOpen, openCircuit. cbn.
    intros [_ H]. split; [split; [discriminate|congruence]|exact H].
  - unfold coherent, counted, manualReset, reset. cbn.
    split; [split; [discriminate|reflexivity]|lia].
Qed.

Lemma runEvents_keeps history w :
  coherent (fst (afterEvents history w))
  /\ counted (fst (afterEvents history w)).
Proof.
  unfold afterEvents, runEvents.
  assert (coherent (fst (fst (initial, w, @nil Outcome)))
          /\ counted (fst (fst (initial, w, @nil Outcome)))) as H0.
  { unfold coherent, counted. cbn.
    split; [split; [discriminate|reflexivity]|lia]. }
  revert H0. generalize (initial, w, @nil Outcome).
  induction history as [|ev history IH]; intros r H; [exact H|].
  cbn [foldl]. apply IH. now apply applyEvent_keeps.
Qed.

Lemma applyEvent_tallied r ev :
  counted (fst (fst r)) ->
  match snd ev with
  | ManualReset => snd r = []
  | _ => True
  end ->
  tallied (length (snd r)) (fst (fst r)) ->
  tallied (length (snd (applyEvent r ev))) (fst (fst (applyEvent r ev))).
Proof.
  destruct r as [[s w] pending], ev as [now [args|i| |]];
    cbn [applyEvent fst snd]; intros (Hf & _ & _) Hq Ht.
  - pose proof (enter_tallied now s _ Hf Ht) as H'.
    destruct (state (enter now s)).
    + destruct (executeWithTimeout cfg operation args now w) as [[o t] w'].
      cbn [fst snd]. rewrite length_app, Nat.add_1_r. exact H'.
    + cbn [fst snd]. unfold tallied in *. lia.
    + destruct (executeWithTimeout cfg operation args now w) as [[o t] w'].
      cbn [fst snd]. rewrite length_app, Nat.add_1_r. exact H'.
  - destruct (pending !! i) as [outcome|] eqn:Hi; [|exact Ht].
    cbn [fst snd]. apply settle_tallied; [exact Hf|].
    pose proof (lookup_lt_Some _ _ _ Hi) as Hlt.
    rewrite length_delete by eauto.
    replace (S (length pending - 1)) with (length pending) by lia.
    exact Ht.
  - exact Ht.
  - subst pending. unfold tallied, manualReset, reset. cbn. lia.
Qed.

Lemma quietFrom_tallied history :
  forall r,
    coherent (fst (fst r)) /\ counted (fst (fst r)) ->
    tallied (length (snd r)) (fst (fst r)) ->
    quietFrom r history = true ->
    tallied (length (snd (foldl applyEvent r history)))
      (fst (fst (foldl applyEvent r history))).
Proof.
  induction history as [|ev history IH]; intros r Hk Ht Hq; [exact Ht|].
  cbn [foldl]. cbn [quietFrom] in Hq. apply andb_true_iff in Hq as [Hq1 Hq2].
  apply IH; [now apply applyEvent_keeps| |exact Hq2].
  apply applyEvent_tallied; [apply Hk| |exact Ht].
  destruct (snd ev); try exact I.
  now apply bool_decide_eq_true in Hq1.
Qed.

End Histories.

(** X3.  After any history of calls, [forceOpen]s and [manualReset]s on a
    new breaker, [nextAttemptTime] is set if and only if the circuit is
    open: the time that the breaker's error message prints is never
    missing, and no stale time is left behind once the circuit has closed
    or become half-open. *)
Theorem nextAttemptTime_set_iff_open {A E T W} (cfg : CircuitBreakerConfig)
    (operation : A -> W -> (Result E T * Z) * W)
    (history : list (Z * Event A)) (w : W) :
  state (fst (afterEvents cfg operation history w)) = open
  <-> nextAttemptTime (fst (afterEvents cfg operation history w)) <> None.
Proof.
  destruct (runEvents_keeps cfg operation history w) as [[Ho Hn] _].
  split; [exact Ho|].
  intros Hnx.
  destruct (state (fst (afterEvents cfg operation history w))) eqn:Hst;
    [exfalso; apply Hnx, Hn; discriminate|reflexivity
    |exfalso; apply Hnx, Hn; discriminate].
Qed.

(** X4.  After any history on a new breaker, with calls overlapping in
    any way, no counter is negative; and when every [manualReset] of the
    history found no call in flight, the successes and failures counted
    and the calls still in flight never add up to more than the requests
    counted, so that the failure rate reported by [getStatus] lies
    between 0 and 100 per cent. *)
Theorem counters_within_requests {A E T W} (cfg : CircuitBreakerConfig)
    (operation : A -> W -> (Result E T * Z) * W)
    (history : list (Z * Event A)) (w : W) :
  let s := fst (afterEvents cfg operation history w) in
  (0 <= failureCount s /\ 0 <= successCount s /\ 0 <= totalRequests s)
  /\ (quietResets cfg operation history w = true ->
      successCount s + failureCount s
      + Z.of_nat (length (inFlight cfg operation history w))
      <= totalRequests s).
Proof.
  split; [exact (proj2 (runEvents_keeps cfg operation history w))|].
  intros Hq. unfold afterEvents, inFlight, runEvents.
  apply (quietFrom_tallied cfg operation history); [| |exact Hq].
  - unfold coherent, counted. cbn.
    split; [split; [discriminate|reflexivity]|lia].
  - unfold tallied. cbn. lia.
Qed.

(** Two calls overlap, one fails and one succeeds, and a third is in
    flight at the end. *)
Lemma counters_within_requests_witness :
  let operation := fun (ok : bool) (w : nat) =>
                     ((if ok then @Returned unit unit tt else Thrown tt, 10),
                      S w) in
  let history := [(0, Call true); (1, Call false); (11, Settle 1%nat);
                  (12, Settle 0%nat); (20, ManualReset); (30, Call true)] in
  let s := fst (afterEvents defaultConfig operation history 0%nat) in
  quietResets defaultConfig operation history 0%nat = true
  /\ successCount s + failureCount s
     + Z.of_nat (length (inFlight defaultConfig operation history 0%nat))
     <= totalRequests s.
Proof.
  intros operation history s. split; [reflexivity|].
  apply (proj2 (counters_within_requests defaultConfig operation history 0%nat)).
  reflexivity.
Defined.

(** A [manualReset] while a call is in flight: the call fails afterwards
    and is counted as a failure of a breaker that has counted no
    request. *)
Example manualReset_in_flight :
  let operation := fun (_ : unit) (w : nat) =>
                     ((@Thrown unit unit tt, 10), S w) in
  let s := fst (afterEvents defaultConfig operation
                  [(0, Call tt); (5, ManualReset); (10, Settle 0%nat)] 0%nat) in
  failureCount s = 1 /\ totalRequests s = 0.
Proof. cbn. split; reflexivity. Qed.

(** X5.  [getStatus().canExecute] says what [execute] will do: read at
    the time of the call, it is [false] exactly when [execute] refuses
    the call with the breaker's own error (the time of the next attempt
    being a time other than 0, which JavaScript takes for unset). *)
Theorem canExecute_agrees_with_execute {A E T W} (cfg : CircuitBreakerConfig)
    (operation : A -> W -> (Result E T * Z) * W) args now s (w : W) :
  nextAttemptTime s <> Some 0 ->
  canExecute now s = false
  <-> exists next s',
        execute cfg operation args now s w
        = (Thrown (CircuitBreakerError next), s', w).
Proof.
  intros Hz. destruct s as [st fc sc tr lf ls nx].
  assert (forall x, executeWithTimeout cfg operation args now w
                    = x ->
                    forall next, fst (fst x) <> Thrown (CircuitBreakerError next))
    as Hop.
  { intros x <- next. unfold executeWithTimeout.
    destruct (operation args w) as [[[v|e] d] w''];
      destruct (d <? timeout cfg); cbn; discriminate. }
  specialize (Hop _ eq_refl).
  unfold canExecute, isOpen, execute, checkStateTransition, toHalfOpen.
  generalize (decays cfg now). intros dec.
  destruct (executeWithTimeout cfg operation args now w) as [[r t] w'].
  cbn in *.
  assert (forall next' : Z, nx = Some next' -> (next' =? 0) = false) as Hnz.
  { intros next' ->. apply Z.eqb_neq. congruence. }
  destruct st; cbn.
  - split; [discriminate|]. intros (next & s' & Hex). exfalso.
    destruct (dec _); cbn in Hex; destruct r; try discriminate;
      injection Hex as He _ _; apply (Hop next); now rewrite He.
  - destruct nx as [next'|]; cbn.
    + rewrite (Hnz _ eq_refl). cbn. destruct (next' <=? now); cbn.
      * split; [discriminate|]. intros (next & s' & Hex). exfalso.
        destruct (dec _); cbn in Hex; destruct r; try discriminate;
          injection Hex as He _ _; apply (Hop next); now rewrite He.
      * split; [|reflexivity]. intros _.
        destruct (dec _); cbn; eauto.
    + split; [|reflexivity]. intros _. destruct (dec _); cbn; eauto.
  - split; [discriminate|]. intros (next & s' & Hex). exfalso.
    destruct (dec _); cbn in Hex; destruct r; try discriminate;
      injection Hex as He _ _; apply (Hop next); now rewrite He.
Qed.

Lemma canExecute_agrees_with_execute_witness :
  canExecute 500 (mkBreaker open 5 0 5 (Some 10) None (Some 60010)) = false
  /\ exists next s',
       execute defaultConfig
         (fun (_ : unit) (w : nat) => ((@Returned unit unit tt, 10), S w)) tt 500
         (mkBreaker open 5 0 5 (Some 10) None (Some 60010)) 0%nat
       = (Thrown (CircuitBreakerError next), s', 0%nat).
Proof.
  split; [reflexivity|].
  apply (canExecute_agrees_with_execute defaultConfig
           (fun (_ : unit) (w : nat) => ((@Returned unit unit tt, 10), S w))
           tt 500 (mkBreaker open 5 0 5 (Some 10) None (Some 60010)) 0%nat).
  - discriminate.
  - reflexivity.
Defined.

End Breaker.

(* ================================================================== *)
(** * Token-bucket rate limiter (src/utils/rateLimiter.ts) *)
(* ================================================================== *)
Module Limiter.

(** A pending [acquire()]: who waits (the promise to resolve) and since
    when. *)
Record Waiter := mkWaiter { caller : nat; timestamp : Z }.

(** [RateLimitState] together with the limiter's [processing] flag and
    the time-out it has scheduled, if any (the time it is due). *)
Record RateLimiter := mkLimiter {
  tokens : Z;
  lastRefill : Z;
  queue : list Waiter;
  processing : bool;
  timer : option Q
}.

(** What the limiter can be asked to do, or what can happen to it. *)
Inductive Call :=
| Acquire (who : nat)
| TimerFires
| GetStatus
| Clear.

(** What a step lets the callers see. *)
Inductive Signal :=
| Granted (who : nat)
| Rejected (who : nat).

(** ** Numbers

    The limiter computes the tokens to add in JavaScript's numbers: a
    quotient, a product and [Math.floor], each rounded as the host
    rounds it. *)

(** What [Math.floor] can give. *)
Inductive Integral :=
| Whole (n : Z)
| PlusInfinity
| MinusInfinity
| NotANumber.

Record Numbers := mkNumbers {
  Number : Type;
  ofInteger : Z -> Number;
  times : Number -> Number -> Number;
  divide : Number -> Number -> Number;
  mathFloor : Number -> Integral;
  (** The rational that a finite number stands for. *)
  valueOf : Number -> Q
}.

(** Numbers without rounding. *)
Definition exact : Numbers :=
  mkNumbers Q inject_Z Qmult Qdiv (fun x => Whole (Qfloor x)) (fun x => x).

(** IEEE 754 binary64, the numbers of JavaScript: 53 bits of precision,
    results rounded to nearest, ties to even. *)
Definition double : Type := SpecFloat.spec_float.

Definition doubleOfInteger (n : Z) : double :=
  SpecFloat.binary_normalize 53 1024 n 0 false.

Definition doubleFloor (x : double) : Integral :=
  match x with
  | SpecFloat.S754_zero _ => Whole 0
  | SpecFloat.S754_infinity false => PlusInfinity
  | SpecFloat.S754_infinity true => MinusInfinity
  | SpecFloat.S754_nan => NotANumber
  | SpecFloat.S754_finite s m e =>
      let n := if s then Z.neg m else Z.pos m in
      Whole (if 0 <=? e then n * 2 ^ e else n / 2 ^ (- e))
  end.

Definition doubleValue (x : double) : Q :=
  match x with
  | SpecFloat.S754_finite s m e =>
      (inject_Z (if s then Z.neg m else Z.pos m) * (2 # 1) ^ e)%Q
  | _ => 0%Q
  end.

Definition binary64 : Numbers :=
  mkNumbers double doubleOfInteger (SpecFloat.SFmul 53 1024)
    (SpecFloat.SFdiv 53 1024) doubleFloor doubleValue.

Section Bucket.
(** The host's numbers; the sustained rate in requests per second, the
    burst capacity in tokens. *)
Variable host : Numbers.
Variable requestsPerSecond : Number host.
Variable burstSize : Z.

(** The constructor, run at time [now]. *)
Definition create (now : Z) : RateLimiter :=
  mkLimiter burstSize now [] false None.

Definition refillTokens (now : Z) (s : RateLimiter) : RateLimiter :=
  let timePassed :=
    divide host (ofInteger host (now - lastRefill s)) (ofInteger host 1000) in
  let tokensToAdd := mathFloor host (times host timePassed requestsPerSecond) in
  match tokensToAdd with
  | Whole n =>
      if 0 <? n then
        mkLimiter (Z.min burstSize (tokens s + n)) now
          (queue s) (processing s) (timer s)
      else s
  | PlusInfinity =>
      mkLimiter burstSize now (queue s) (processing s) (timer s)
  | MinusInfinity | NotANumber => s
  end.

(** The [while] loop of [processQueue]: one token per waiter, first come
    first served.  Returns the tokens left, the waiters left and the
    waiters served. *)
Fixpoint serve (tokens : Z) (queue : list Waiter)
  : Z * list Waiter * list Waiter :=
  match queue with
  | [] => (tokens, [], [])
  | request :: rest =>
      if 0 <? tokens then
        let '(tokens', queue', served) := serve (tokens - 1) rest in
        (tokens', queue', request :: served)
      else (tokens, queue, [])
  end.

Definition processQueue (now : Z) (s : RateLimiter)
  : RateLimiter * list Signal :=
  if processing s then (s, [])
  else
    let s1 := refillTokens now s in
    let '(tokens', queue', served) := serve (tokens s1) (queue s1) in
    let signals := map (fun r => Granted (caller r)) served in
    match queue' with
    | _ :: _ =>
        let delay :=
          Qmax 0 (valueOf host
                    (divide host (ofInteger host 1000) requestsPerSecond)) in
        (mkLimiter tokens' (lastRefill s1) queue' true
           (Some (inject_Z now + delay)%Q), signals)
    | [] => (mkLimiter tokens' (lastRefill s1) queue' false (timer s1), signals)
    end.

Definition acquire (who : nat) (now : Z) (s : RateLimiter)
  : RateLimiter * list Signal :=
  processQueue now
    (mkLimiter (tokens s) (lastRefill s) (queue s ++ [mkWaiter who now])
       (processing s) (timer s)).

(** The callback given to [setTimeout]; it runs once, not before it is
    due. *)
Definition timerCallback (now : Z) (s : RateLimiter)
  : RateLimiter * list Signal :=
  match timer s with
  | Some due =>
      if Qle_bool due (inject_Z now) then
        processQueue now
          (mkLimiter (tokens s) (lastRefill s) (queue s) false None)
      else (s, [])
  | None => (s, [])
  end.

Definition getStatus (now : Z) (s : RateLimiter) : RateLimiter :=
  refillTokens now s.

Definition clear (s : RateLimiter) : RateLimiter * list Signal :=
  (mkLimiter (tokens s) (lastRefill s) [] (processing s) (timer s),
   map (fun r => Rejected (caller r)) (queue s)).

Definition step (now : Z) (c : Call) (s : RateLimiter)
  : RateLimiter * list Signal :=
  match c with
  | Acquire who => acquire who now s
  | TimerFires => timerCallback now s
  | GetStatus => (getStatus now s, [])
  | Clear => clear s
  end.

(** A history of the limiter: what happens, and when.  The signals come
    out stamped with the time of the step that emits them. *)
Fixpoint run (history : list (Z * Call)) (s : RateLimiter)
  : list (Z * Signal) :=
  match history with
  | [] => []
  | (now, c) :: rest =>
      let '(s', signals) := step now c s in
      map (fun g => (now, g)) signals ++ run rest s'
  end.

End Bucket.

Definition isGranted (g : Signal) : bool :=
  match g with Granted _ => true | Rejected _ => false end.

(** The number of acquisitions granted at a time in [[from, upto]]. *)
Definition grantedWithin (from upto : Z) (out : list (Z * Signal)) : nat :=
  length (List.filter (fun e => isGranted (snd e) && (from <=? fst e) && (fst e <=? upto)) out).

(** The times of a history never go back, starting from [t0]. *)
Fixpoint chronological (t0 : Z) (history : list (Z * Call)) : Prop :=
  match history with
  | [] => True
  | (now, _) :: rest => t0 <= now /\ chronological now rest
  end.

(** ** The sliding-window bound *)

Definition grants (signals : list Signal) : nat :=
  length (List.filter isGranted signals).

Section Bound.
(** Without rounding. *)
Variable requestsPerSecond : Q.
Variable burstSize : Z.
Hypothesis rate_nonneg : 0 <= Qnum requestsPerSecond.
Hypothesis burst_nonneg : 0 <= burstSize.

(** The rate as a fraction [rn / D] of tokens per millisecond. *)
Let rn : Z := Qnum requestsPerSecond.
Let D : Z := 1000 * Zpos (Qden requestsPerSecond).

(** The limiter's credit at time [t], in units of [1 / D] token: the
    tokens in the bucket and what has accrued since the last refill. *)
Definition credit (t : Z) (s : RateLimiter) : Z :=
  D * tokens s + rn * (t - lastRefill s).

Definition inv (t : Z) (s : RateLimiter) : Prop :=
  0 <= tokens s <= burstSize /\ lastRefill s <= t.

Lemma D_pos : 0 < D.
Proof. unfold D. lia. Qed.

Lemma tokensToAdd_eq (now last : Z) :
  Qfloor (inject_Z (now - last) / inject_Z 1000 * requestsPerSecond)
  = ((now - last) * rn) / D.
Proof.
  unfold rn, D. destruct requestsPerSecond as [n d].
  unfold Qfloor, Qdiv, Qinv, inject_Z. cbn -[Z.div Z.mul Z.sub Pos.mul].
  f_equal; lia.
Qed.

Lemma refillTokens_spec now s :
  inv now s ->
  let s1 := refillTokens exact requestsPerSecond burstSize now s in
  inv now s1 /\ credit now s1 <= credit now s
  /\ credit now s1 < D * (burstSize + 1)
  /\ queue s1 = queue s /\ processing s1 = processing s
  /\ timer s1 = timer s.
Proof.
  intros [[Ht0 Ht1] Hl]. unfold refillTokens.
  cbn [exact ofInteger times divide mathFloor]. rewrite tokensToAdd_eq.
  pose proof D_pos as HD.
  set (d := now - lastRefill s). set (q := (d * rn) / D).
  assert (D * q <= d * rn < D * q + D) as [Hq1 Hq2].
  { unfold q. pose proof (Z.mul_div_le (d * rn) D HD).
    pose proof (Z.mul_succ_div_gt (d * rn) D HD). lia. }
  assert (0 <= d * rn) by (apply Z.mul_nonneg_nonneg; unfold d, rn; lia).
  assert (0 <= q) by (unfold q; apply Z.div_pos; lia).
  destruct (0 <? q) eqn:Hpos; cbn -[Z.mul Z.add Z.min]; unfold inv, credit;
    cbn [tokens lastRefill queue processing timer].
  - set (m := Z.min burstSize (tokens s + q)).
    assert (0 <= m <= burstSize /\ m <= tokens s + q) as [[Hm0 Hm1] Hm2]
      by (unfold m; lia).
    assert (D * m <= D * (tokens s + q)) by (apply Z.mul_le_mono_nonneg_l; lia).
    assert (D * m <= D * burstSize) by (apply Z.mul_le_mono_nonneg_l; lia).
    fold d. repeat split; try lia.
  - assert (q = 0) as Hq0 by lia. rewrite Hq0 in *.
    assert (D * tokens s <= D * burstSize) by (apply Z.mul_le_mono_nonneg_l; lia).
    fold d. repeat split; try lia.
Qed.

Lemma serve_spec (queue0 : list Waiter) :
  forall tok tok' queue' served,
    0 <= tok ->
    serve tok queue0 = (tok', queue', served) ->
    0 <= tok' /\ tok' + Z.of_nat (length served) = tok
    /\ queue0 = served ++ queue'.
Proof.
  induction queue0 as [|r rest IH]; intros tok tok' queue' served Htok; cbn.
  - intros [= <- <- <-]. cbn. repeat split; lia.
  - destruct (0 <? tok) eqn:Hpos.
    + destruct (serve (tok - 1) rest) as [[t1 q1] s1] eqn:Hs.
      intros [= <- <- <-].
      destruct (IH (tok - 1) t1 q1 s1) as (H0 & H1 & H2); [lia|exact Hs|].
      cbn [length app]. rewrite H2 at 1. repeat split; lia.
    + intros [= <- <- <-]. cbn. repeat split; lia.
Qed.

Lemma grants_Granted (served : list Waiter) :
  grants (map (fun r => Granted (caller r)) served) = length served.
Proof. unfold grants. induction served; cbn; [reflexivity|]. now f_equal. Qed.

Lemma grants_Rejected (served : list Waiter) :
  grants (map (fun r => Rejected (caller r)) served) = 0%nat.
Proof. unfold grants. induction served; cbn; [reflexivity|]. assumption. Qed.

(** What one run of [processQueue] does to the credit: every grant costs
    one token, and once the bucket has been refilled the grants and the
    credit left are together below [burstSize + 1] tokens. *)
Lemma processQueue_spec now s s' signals :
  inv now s ->
  processQueue exact requestsPerSecond burstSize now s = (s', signals) ->
  inv now s'
  /\ D * Z.of_nat (grants signals) + credit now s' <= credit now s
  /\ (grants signals = 0%nat
      \/ D * Z.of_nat (grants signals) + credit now s' < D * (burstSize + 1)).
Proof.
  intros Hinv. unfold processQueue.
  destruct (processing s).
  { intros [= <- <-]. cbn. split; [assumption|]. split; [lia|now left]. }
  destruct (refillTokens_spec now s Hinv) as (Hinv1 & Hc1 & Hc2 & _).
  set (s1 := refillTokens exact requestsPerSecond burstSize now s) in *.
  destruct (serve (tokens s1) (queue s1)) as [[tok' queue'] served] eqn:Hs.
  destruct Hinv1 as [[Ht0 Ht1] Hl].
  destruct (serve_spec _ _ _ _ _ Ht0 Hs) as (H0 & H1 & _).
  assert (inv now (mkLimiter tok' (lastRefill s1) queue' true None)
          /\ D * Z.of_nat (length served)
             + credit now (mkLimiter tok' (lastRefill s1) queue' true None)
             = credit now s1) as [Hi He].
  { unfold inv, credit. cbn [tokens lastRefill]. split; [lia|].
    rewrite <- H1. lia. }
  unfold inv, credit in *. cbn [tokens lastRefill] in *.
  destruct queue'; intros [= <- <-]; rewrite grants_Granted;
    cbn [tokens lastRefill]; (split; [lia|]); (split; [lia|right; lia]).
Qed.

Lemma step_spec now c s s' signals :
  inv now s ->
  step exact requestsPerSecond burstSize now c s = (s', signals) ->
  inv now s'
  /\ D * Z.of_nat (grants signals) + credit now s' <= credit now s
  /\ (grants signals = 0%nat
      \/ D * Z.of_nat (grants signals) + credit now s' < D * (burstSize + 1)).
Proof.
  intros Hinv. destruct c as [who| | |]; cbn [step].
  - unfold acquire. intros H. apply processQueue_spec in H; [exact H|exact Hinv].
  - unfold timerCallback. destruct (timer s) as [due|].
    + destruct (Qle_bool due (inject_Z now)).
      * intros H. apply processQueue_spec in H; [exact H|exact Hinv].
      * intros [= <- <-]. cbn. split; [assumption|]. split; [lia|now left].
    + intros [= <- <-]. cbn. split; [assumption|]. split; [lia|now left].
  - unfold getStatus. intros [= <- <-].
    destruct (refillTokens_spec now s Hinv) as (Hinv1 & Hc1 & _).
    split; [assumption|]. split; [|now left].
    change (grants []) with 0%nat. cbn [Z.of_nat]. lia.
  - unfold clear. intros [= <- <-]. rewrite grants_Rejected.
    cbn. split; [exact Hinv|]. split; [unfold credit; cbn; lia|now left].
Qed.

Lemma grantedWithin_app a b (l1 l2 : list (Z * Signal)) :
  grantedWithin a b (l1 ++ l2)
  = (grantedWithin a b l1 + grantedWithin a b l2)%nat.
Proof. unfold grantedWithin. now rewrite List.filter_app, length_app. Qed.

Lemma grantedWithin_stamp a b now (signals : list Signal) :
  grantedWithin a b (map (fun g => (now, g)) signals)
  = if (a <=? now) && (now <=? b) then grants signals else 0%nat.
Proof.
  unfold grantedWithin, grants.
  induction signals as [|g rest IH]; cbn [map List.filter fst snd length].
  - now destruct ((a <=? now) && (now <=? b)).
  - rewrite <- andb_assoc.
    destruct (isGranted g), ((a <=? now) && (now <=? b)); cbn [andb length];
      rewrite IH; reflexivity.
Qed.

Lemma inv_later t t' s : inv t s -> t <= t' -> inv t' s.
Proof. unfold inv. lia. Qed.

(** Nothing is granted before the history starts. *)
Lemma run_after (history : list (Z * Call)) :
  forall t s a b,
    chronological t history -> b < t ->
    grantedWithin a b (run exact requestsPerSecond burstSize history s) = 0%nat.
Proof.
  induction history as [|[now c] rest IH]; intros t s a b Hc Hb; [reflexivity|].
  cbn [run]. destruct Hc as [Ht Hc].
  destruct (step exact requestsPerSecond burstSize now c s) as [s' signals].
  rewrite grantedWithin_app, grantedWithin_stamp.
  assert ((now <=? b) = false) as -> by lia. rewrite andb_false_r.
  apply (IH now s' a b Hc). lia.
Qed.

(** The grants up to time [b] are paid out of the credit the limiter has
    at [b] if nothing is granted meanwhile. *)
Lemma run_credit (history : list (Z * Call)) :
  forall t s a b,
    inv t s -> chronological t history -> t <= b ->
    D * Z.of_nat (grantedWithin a b (run exact requestsPerSecond burstSize history s))
    <= credit b s.
Proof.
  pose proof D_pos as HD.
  induction history as [|[now c] rest IH]; intros t s a b Hinv Hc Hb.
  - cbn. unfold credit. destruct Hinv as [[H0 _] Hl].
    assert (0 <= D * tokens s) by (apply Z.mul_nonneg_nonneg; lia).
    assert (0 <= rn * (b - lastRefill s))
      by (apply Z.mul_nonneg_nonneg; unfold rn; lia).
    lia.
  - cbn [run]. destruct Hc as [Ht Hc].
    destruct (step exact requestsPerSecond burstSize now c s) as [s' signals] eqn:Hs.
    destruct (step_spec now c s s' signals (inv_later _ _ _ Hinv Ht) Hs)
      as (Hinv' & Hcost & _).
    rewrite grantedWithin_app, grantedWithin_stamp, Nat2Z.inj_add.
    destruct (Z_le_gt_dec now b) as [Hnb|Hnb].
    + specialize (IH now s' a b Hinv' Hc Hnb).
      assert (Z.of_nat (if (a <=? now) && (now <=? b) then grants signals
                        else 0%nat) <= Z.of_nat (grants signals)) as Hle
        by (destruct ((a <=? now) && (now <=? b)); lia).
      apply (Z.mul_le_mono_nonneg_l _ _ D) in Hle; [|lia].
      unfold credit in *. lia.
    + rewrite (run_after rest now s' a b Hc) by lia.
      assert ((now <=? b) = false) as -> by lia. rewrite andb_false_r.
      cbn. destruct Hinv as [[H0 _] Hl]. unfold credit.
      assert (0 <= D * tokens s) by (apply Z.mul_nonneg_nonneg; lia).
      assert (0 <= rn * (b - lastRefill s))
        by (apply Z.mul_nonneg_nonneg; unfold rn; lia).
      lia.
Qed.

(** The grants of a window stay below the burst plus what the rate adds
    over the length of the window, plus one. *)
Lemma run_window (history : list (Z * Call)) :
  forall t s a b,
    inv t s -> chronological t history -> a <= b ->
    D * Z.of_nat (grantedWithin a b (run exact requestsPerSecond burstSize history s))
    < D * (burstSize + 1) + rn * (b - a).
Proof.
  pose proof D_pos as HD.
  assert (forall a b, a <= b -> 0 < D * (burstSize + 1) + rn * (b - a)) as Hpos.
  { intros a b Hab.
    assert (0 <= rn * (b - a)) by (apply Z.mul_nonneg_nonneg; unfold rn; lia).
    assert (0 < D * (burstSize + 1)) by (apply Z.mul_pos_pos; lia). lia. }
  induction history as [|[now c] rest IH]; intros t s a b Hinv Hc Hab.
  - cbn. rewrite Z.mul_0_r. now apply Hpos.
  - cbn [run]. destruct Hc as [Ht Hc].
    destruct (step exact requestsPerSecond burstSize now c s) as [s' signals] eqn:Hs.
    destruct (step_spec now c s s' signals (inv_later _ _ _ Hinv Ht) Hs)
      as (Hinv' & Hcost & Hfull).
    rewrite grantedWithin_app, grantedWithin_stamp.
    destruct ((a <=? now) && (now <=? b)) eqn:Hin.
    + apply andb_true_iff in Hin as [Ha Hb].
      apply Z.leb_le in Ha, Hb.
      destruct Hfull as [Hnone|Hfull].
      * rewrite Hnone. cbn [Nat.add]. now apply (IH now s' a b).
      * pose proof (run_credit rest now s' a b Hinv' Hc Hb) as Hrest.
        rewrite Nat2Z.inj_add.
        assert (rn * (b - now) <= rn * (b - a))
          by (apply Z.mul_le_mono_nonneg_l; unfold rn; lia).
        unfold credit in *. lia.
    + cbn [Nat.add]. now apply (IH now s' a b).
Qed.

End Bound.

(** Without rounding the bound of the specification holds.  For a
    limiter with a non-negative rate and burst, and any history of calls
    and timer callbacks whose times never go back: the number of
    acquisitions granted within any window of [W] milliseconds is at
    most [ceil (rate * W / 1000) + burst]. *)
Theorem exact_window_bound (requestsPerSecond : Q) (burstSize : Z)
    (t0 : Z) (history : list (Z * Call)) (a W : Z) :
  0 <= Qnum requestsPerSecond ->
  0 <= burstSize ->
  chronological t0 history ->
  0 <= W ->
  Z.of_nat (grantedWithin a (a + W)
              (run exact requestsPerSecond burstSize history
                 (create burstSize t0)))
  <= Qceiling (requestsPerSecond * (W # 1000)) + burstSize.
Proof.
  intros Hr Hb Hc HW.
  assert (inv burstSize t0 (create burstSize t0)) as Hinv
    by (unfold inv, create; cbn; lia).
  pose proof (run_window requestsPerSecond burstSize Hr Hb history
                t0 _ a (a + W) Hinv Hc ltac:(lia)) as H.
  set (n := Z.of_nat _) in *.
  replace (a + W - a) with W in H by lia.
  destruct requestsPerSecond as [rn rd]. cbn [Qnum Qden] in *.
  unfold Qceiling, Qfloor. cbn [Qopp Qmult Qnum Qden].
  set (D := 1000 * Z.pos rd) in *.
  replace (Z.pos (rd * 1000)) with D by (unfold D; lia).
  assert (0 < D) as HD by (unfold D; lia).
  set (c := - (- (rn * W) / D)).
  assert (rn * W <= D * c) as Hceil.
  { unfold c. pose proof (Z.mul_div_le (- (rn * W)) D HD). lia. }
  assert (D * n < D * (burstSize + 1 + c)) as Hlt by lia.
  apply Z.mul_lt_mono_pos_l in Hlt; lia.
Qed.


(** Two requests per second with a burst of five: five acquisitions at
    once are granted at once, the sixth and seventh wait for the timer. *)
Definition sampleHistory : list (Z * Call) :=
  [(0, Acquire 1%nat); (0, Acquire 2%nat); (0, Acquire 3%nat);
   (0, Acquire 4%nat); (0, Acquire 5%nat); (100, Acquire 6%nat);
   (499, TimerFires); (600, TimerFires); (600, Acquire 7%nat);
   (1100, TimerFires); (1200, GetStatus)].

Example sampleHistory_run :
  run exact (2 # 1) 5 sampleHistory (create 5 0)
  = [(0, Granted 1%nat); (0, Granted 2%nat); (0, Granted 3%nat);
     (0, Granted 4%nat); (0, Granted 5%nat); (600, Granted 6%nat);
     (1100, Granted 7%nat)].
Proof. reflexivity. Qed.

Example exact_window_bound_sample :
  Z.of_nat (grantedWithin 0 (0 + 600)
              (run exact (2 # 1) 5 sampleHistory (create 5 0)))
  <= Qceiling ((2 # 1) * (600 # 1000)) + 5.
Proof.
  apply (exact_window_bound (2 # 1) 5 0 sampleHistory 0 600).
  - cbn. lia.
  - lia.
  - cbn. lia.
  - lia.
Qed.

(** *** With the numbers of JavaScript

    A rate of [100 / 9] requests per second and a burst of 3, the
    limiter made at time 0.  Three calls of [acquire()] at 90 ms take
    the burst: [0.09 * rate] is 0.9999999999999999 and nothing is added.
    At 270 ms the product [0.27 * rate] is rounded to 3, its exact value
    being below 3, and three tokens are added. *)
Definition roundedRate : Number binary64 :=
  divide binary64 (ofInteger binary64 100) (ofInteger binary64 9).

Definition roundedHistory : list (Z * Call) :=
  [(90, Acquire 1%nat); (90, Acquire 2%nat); (90, Acquire 3%nat);
   (270, Acquire 4%nat); (270, Acquire 5%nat); (270, Acquire 6%nat)].

Example roundedRate_below :
  (valueOf binary64 roundedRate < 100 # 9)%Q
  /\ (valueOf binary64 roundedRate * (270 # 1000) < 3)%Q.
Proof. split; vm_compute; reflexivity. Qed.

Example roundedRate_tokens :
  let tokensToAdd elapsed :=
    mathFloor binary64
      (times binary64
         (divide binary64 (ofInteger binary64 elapsed)
            (ofInteger binary64 1000))
         roundedRate) in
  tokensToAdd 90 = Whole 0 /\ tokensToAdd 270 = Whole 3.
Proof. split; vm_compute; reflexivity. Qed.

(** C4.  The bound fails on the code.  With a rate of [100 / 9] requests
    per second and a burst of 3, three calls of [acquire()] at 90 ms and
    three at 270 ms are all granted at once: six acquisitions within a
    window of 180 ms, where [ceil (rate * W / 1000) + burst] is 5. *)
Theorem acquire_window_exceeded :
  run binary64 roundedRate 3 roundedHistory (create 3 0)
  = [(90, Granted 1%nat); (90, Granted 2%nat); (90, Granted 3%nat);
     (270, Granted 4%nat); (270, Granted 5%nat); (270, Granted 6%nat)]
  /\ grantedWithin 90 (90 + 180)
       (run binary64 roundedRate 3 roundedHistory (create 3 0)) = 6%nat
  /\ Qceiling (valueOf binary64 roundedRate * (180 # 1000)) + 3 = 5.
Proof. repeat split; vm_compute; reflexivity. Qed.

(** ** Further facts: who is answered, and the state a history leaves *)

Section Bucket'.
Variable host : Numbers.
Variable requestsPerSecond : Number host.
Variable burstSize : Z.

(** The limiter as a history leaves it. *)
Fixpoint stateAfter (history : list (Z * Call)) (s : RateLimiter)
  : RateLimiter :=
  match history with
  | [] => s
  | (now, c) :: rest =>
      stateAfter rest (fst (step host requestsPerSecond burstSize now c s))
  end.

End Bucket'.

(** The caller a signal answers. *)
Definition answered (g : Signal) : nat :=
  match g with Granted who => who | Rejected who => who end.

(** The callers of [acquire()] in a history, in the order of their
    calls. *)
Definition acquirers (history : list (Z * Call)) : list nat :=
  omap (fun e => match snd e with Acquire who => Some who | _ => None end)
    history.

Section Answers.
Variable host : Numbers.
Variable requestsPerSecond : Number host.
Variable burstSize : Z.

Lemma serve_split (queue0 : list Waiter) :
  forall tok, queue0 = (serve tok queue0).2 ++ (serve tok queue0).1.2.
Proof.
  induction queue0 as [|r rest IH]; intros tok; cbn; [reflexivity|].
  destruct (0 <? tok); [|reflexivity].
  specialize (IH (tok - 1)).
  destruct (serve (tok - 1) rest) as [[t1 q1] s1]. cbn in *.
  now rewrite IH at 1.
Qed.

Lemma refillTokens_queue now s :
  queue (refillTokens host requestsPerSecond burstSize now s) = queue s
  /\ processing (refillTokens host requestsPerSecond burstSize now s) = processing s
  /\ timer (refillTokens host requestsPerSecond burstSize now s) = timer s.
Proof.
  unfold refillTokens.
  destruct (mathFloor _ _) as [n| | |]; [now destruct (0 <? n)|auto..].
Qed.

Lemma processQueue_answers now s :
  map answered (processQueue host requestsPerSecond burstSize now s).2
  ++ map caller (queue (processQueue host requestsPerSecond burstSize now s).1)
  = map caller (queue s).
Proof.
  unfold processQueue. destruct (processing s); [reflexivity|].
  destruct (refillTokens_queue now s) as (Hq & _).
  set (s1 := refillTokens host requestsPerSecond burstSize now s) in *.
  pose proof (serve_split (queue s1) (tokens s1)) as Hsplit.
  destruct (serve (tokens s1) (queue s1)) as [[tok' queue'] served].
  cbn in Hsplit. rewrite <- Hq, Hsplit, map_app.
  destruct queue'; cbn [fst snd queue]; rewrite map_map; reflexivity.
Qed.

Lemma step_answers now c s :
  map answered (step host requestsPerSecond burstSize now c s).2
  ++ map caller (queue (step host requestsPerSecond burstSize now c s).1)
  = map caller (queue s) ++ acquirers [(now, c)].
Proof.
  destruct c as [who| | |]; cbn [step acquirers omap snd];
    rewrite ?app_nil_r.
  - unfold acquire. rewrite processQueue_answers. cbn [queue].
    now rewrite map_app.
  - unfold timerCallback. destruct (timer s) as [due|]; [|reflexivity].
    destruct (Qle_bool due (inject_Z now)); [|reflexivity].
    now rewrite processQueue_answers.
  - cbn. unfold getStatus. now destruct (refillTokens_queue now s) as (-> & _).
  - cbn. rewrite map_map. reflexivity.
Qed.

Lemma run_answers (history : list (Z * Call)) :
  forall s,
    map (fun e => answered (snd e)) (run host requestsPerSecond burstSize history s)
    ++ map caller (queue (stateAfter host requestsPerSecond burstSize history s))
    = map caller (queue s) ++ acquirers history.
Proof.
  induction history as [|[now c] rest IH]; intros s.
  - cbn. now rewrite app_nil_r.
  - cbn [run stateAfter].
    pose proof (step_answers now c s) as Hstep.
    destruct (step host requestsPerSecond burstSize now c s) as [s' signals].
    cbn [fst snd] in *.
    rewrite map_app, map_map. cbn [snd].
    rewrite <- app_assoc, IH, app_assoc.
    change (map (fun x : Signal => answered x) signals)
      with (map answered signals).
    rewrite Hstep, <- app_assoc. f_equal.
    unfold acquirers. cbn [omap snd]. now destruct c.
Qed.

(** Whoever waits, waits for a run of the queue that a pending time-out
    will start. *)
Definition attended (s : RateLimiter) : Prop :=
  (queue s <> [] -> processing s = true)
  /\ (processing s = true -> timer s <> None).

Lemma processQueue_attended now s :
  (processing s = true -> attended s) ->
  attended (processQueue host requestsPerSecond burstSize now s).1.
Proof.
  unfold attended, processQueue. intros H.
  destruct (processing s) eqn:Hp.
  { cbn. rewrite Hp. split; [reflexivity|now apply H]. }
  destruct (serve _ _) as [[tok' queue'] served].
  destruct queue'; cbn; split; congruence.
Qed.

Lemma step_attended now c s :
  attended s -> attended (step host requestsPerSecond burstSize now c s).1.
Proof.
  intros H. destruct c as [who| | |]; cbn [step].
  - unfold acquire, processQueue. cbn [processing].
    destruct H as [Hq Ht]. destruct (processing s) eqn:Hp.
    + unfold attended. cbn. split; [reflexivity|exact Ht].
    + destruct (serve _ _) as [[tok' queue'] served].
      unfold attended. destruct queue'; cbn; split; congruence.
  - unfold timerCallback. destruct (timer s) as [due|] eqn:Htm; [|exact H].
    destruct (Qle_bool due (inject_Z now)); [|exact H].
    apply processQueue_attended. cbn. discriminate.
  - cbn. unfold getStatus, attended.
    destruct (refillTokens_queue now s) as (-> & -> & ->). exact H.
  - unfold clear, attended in *. cbn. split; [congruence|apply H].
Qed.

Lemma stateAfter_attended (history : list (Z * Call)) :
  forall s, attended s ->
            attended (stateAfter host requestsPerSecond burstSize history s).
Proof.
  induction history as [|[now c] rest IH]; intros s H; [exact H|].
  cbn [stateAfter]. apply IH. now apply step_attended.
Qed.

(** The bucket never holds less than nothing or more than the burst. *)
Definition within (s : RateLimiter) : Prop := 0 <= tokens s <= burstSize.

Lemma refillTokens_within now s :
  0 <= burstSize -> within s ->
  within (refillTokens host requestsPerSecond burstSize now s)
  /\ tokens s <= tokens (refillTokens host requestsPerSecond burstSize now s).
Proof.
  unfold within, refillTokens. intros Hb H.
  destruct (mathFloor _ _) as [tokensToAdd| | |]; cbn [tokens]; [|lia..].
  destruct (0 <? tokensToAdd) eqn:Hadd; cbn [tokens]; lia.
Qed.




(** An [acquire()] that finds the queue idle and a token in the bucket is
    granted at once. *)
Lemma acquire_granted who now s :
  0 <= burstSize -> within s -> 0 < tokens s ->
  queue s = [] -> processing s = false ->
  exists s',
    acquire host requestsPerSecond burstSize who now s = (s', [Granted who])
    /\ within s' /\ tokens s - 1 <= tokens s'
    /\ queue s' = [] /\ processing s' = false.
Proof.
  intros Hb H Hpos Hq Hp. unfold acquire, processQueue. cbn [processing].
  rewrite Hp.
  set (s0 := mkLimiter _ _ _ _ _).
  destruct (refillTokens_within now s0 Hb H) as [H1 Hle].
  destruct (refillTokens_queue now s0) as (Hq1 & _).
  set (s1 := refillTokens host requestsPerSecond burstSize now s0) in *.
  rewrite Hq1. unfold s0 at 1. cbn [queue]. rewrite Hq. cbn [app serve].
  change (tokens s0) with (tokens s) in Hle.
  assert ((0 <? tokens s1) = true) as -> by lia.
  cbn [map caller]. eexists. split; [reflexivity|].
  unfold within in *. cbn [tokens queue processing].
  repeat split; try reflexivity; lia.
Qed.

End Answers.

(** X6.  Nobody is answered twice, forgotten or overtaken: after any
    history on a new limiter, the callers answered so far (granted or
    rejected), in the order of the answers, followed by the callers still
    in the queue, are the callers of [acquire()] in the order of their
    calls. *)
Theorem acquirers_answered_in_order (host : Numbers)
    (requestsPerSecond : Number host) (burstSize : Z)
    (t0 : Z) (history : list (Z * Call)) :
  map (fun e => answered (snd e))
    (run host requestsPerSecond burstSize history (create burstSize t0))
  ++ map caller
       (queue (stateAfter host requestsPerSecond burstSize history
                 (create burstSize t0)))
  = acquirers history.
Proof. now rewrite run_answers. Qed.



(** X8.  No caller is left waiting unattended: after any history on a
    new limiter, either the queue is empty or the limiter is marked as
    processing and a time-out is pending whose callback will run the
    queue again. *)
Theorem waiters_have_a_timer (host : Numbers)
    (requestsPerSecond : Number host) (burstSize : Z)
    (t0 : Z) (history : list (Z * Call)) :
  let s := stateAfter host requestsPerSecond burstSize history
             (create burstSize t0) in
  queue s = [] \/ (processing s = true /\ exists due, timer s = Some due).
Proof.
  cbn zeta.
  assert (attended (create burstSize t0)) as H0
    by (unfold attended, create; cbn; split; congruence).
  pose proof (stateAfter_attended host requestsPerSecond burstSize history _ H0)
    as [Hq Hp].
  destruct (queue (stateAfter _ _ _ _ _)) as [|r rest]; [now left|right].
  assert (processing (stateAfter host requestsPerSecond burstSize history
                        (create burstSize t0)) = true) as Hpr
    by (apply Hq; discriminate).
  split; [exact Hpr|]. specialize (Hp Hpr).
  destruct (timer _) as [due|]; [now exists due|congruence].
Qed.

(** X9.  The burst is honoured: the first [burstSize] calls of
    [acquire()] on a new limiter are each granted at once, in the order
    of the calls, whenever they are made and whatever the rate. *)
Theorem burst_granted_at_once (host : Numbers)
    (requestsPerSecond : Number host) (burstSize : Z)
    (t0 : Z) (calls : list (Z * nat)) :
  Z.of_nat (length calls) <= burstSize ->
  run host requestsPerSecond burstSize
    (map (fun e => (fst e, Acquire (snd e))) calls) (create burstSize t0)
  = map (fun e => (fst e, Granted (snd e))) calls.
Proof.
  intros Hn.
  assert (0 <= burstSize) as Hb by lia.
  assert (within burstSize (create burstSize t0)
          /\ Z.of_nat (length calls) <= tokens (create burstSize t0)
          /\ queue (create burstSize t0) = []
          /\ processing (create burstSize t0) = false) as H0
    by (unfold within, create; cbn; repeat split; lia).
  revert H0. generalize (create burstSize t0). clear Hn.
  induction calls as [|[now who] rest IH]; intros s (Hw & Hn & Hq & Hp);
    [reflexivity|].
  cbn [map run step fst snd length] in *.
  destruct (acquire_granted host requestsPerSecond burstSize who now s Hb Hw
              ltac:(lia) Hq Hp) as (s' & -> & Hw' & Ht' & Hq' & Hp').
  cbn [map app]. f_equal. apply IH. repeat split; try assumption; try apply Hw'. lia.
Qed.

Lemma burst_granted_at_once_witness :
  run binary64 roundedRate 5
    (map (fun e => (fst e, Acquire (snd e)))
       [(0, 1%nat); (30, 2%nat); (700, 3%nat); (700, 4%nat); (1500, 5%nat)])
    (create 5 0)
  = map (fun e => (fst e, Granted (snd e)))
      [(0, 1%nat); (30, 2%nat); (700, 3%nat); (700, 4%nat); (1500, 5%nat)].
Proof.
  apply (burst_granted_at_once binary64 roundedRate 5 0
           [(0, 1%nat); (30, 2%nat); (700, 3%nat); (700, 4%nat); (1500, 5%nat)]).
  cbn. lia.
Defined.

End Limiter.

(* ================================================================== *)
(** * Compression codec (src/utils/compression.ts) *)
(* ================================================================== *)
Module Compression.

(** What the codec takes from its host: [JSON.stringify] and [JSON.parse]
    over the values [V] that are stored, and zlib's [gzip] and [gunzip].
    Strings and buffers are both sequences of bytes; [None] stands for a
    thrown error. *)
Record Codec (V : Type) := mkCodec {
  stringify : V -> string;
  parse : string -> option V;
  gzip : string -> option string;
  gunzip : string -> option string
}.
Arguments stringify {V} c v.
Arguments parse {V} c s.
Arguments gzip {V} c s.
Arguments gunzip {V} c s.

Inductive DecompressError := FailedToDecompress.

Section CompressionUtil.
Context {V : Type}.
Variable codec : Codec V.
Variable compressionThreshold : Z.

Definition byteLength (s : string) : Z := Z.of_nat (String.length s).

(** [compress]: the pair of [data] and [compressed].  The test
    [compressed.length / dataSize < 0.9] is taken on the integers. *)
Definition compress (data : V) : string * bool :=
  let jsonString := stringify codec data in
  let dataSize := byteLength jsonString in
  if dataSize <? compressionThreshold then (jsonString, false)
  else
    match gzip codec jsonString with
    | Some compressed =>
        if 10 * byteLength compressed <? 9 * dataSize
        then (compressed, true)
        else (jsonString, false)
    | None => (jsonString, false)
    end.

Definition decompress (data : string) (isCompressed : bool)
  : Result DecompressError V :=
  if negb isCompressed then
    match parse codec data with
    | Some v => Returned v
    | None => Thrown FailedToDecompress
    end
  else
    match gunzip codec data with
    | Some decompressed =>
        match parse codec decompressed with
        | Some v => Returned v
        | None => Thrown FailedToDecompress
        end
    | None => Thrown FailedToDecompress
    end.

End CompressionUtil.

(** The values a codec serialises faithfully, and a zlib that undoes
    itself. *)
Definition serializable {V} (codec : Codec V) (v : V) : Prop :=
  parse codec (stringify codec v) = Some v.

Definition lossless {V} (codec : Codec V) : Prop :=
  forall s z, gzip codec s = Some z -> gunzip codec z = Some s.

(** C8.  With a lossless zlib, every JSON-serialisable value comes back
    from [decompress] applied to what [compress] returned, flag included;
    and a value whose serialisation is shorter than the threshold is
    returned as its JSON text with [compressed = false]. *)
Theorem compress_roundtrip {V} (codec : Codec V) (threshold : Z) (v : V) :
  lossless codec -> serializable codec v ->
  decompress codec (fst (compress codec threshold v))
                   (snd (compress codec threshold v)) = Returned v
  /\ (byteLength (stringify codec v) < threshold ->
      compress codec threshold v = (stringify codec v, false)).
Proof.
  intros Hz Hv. unfold compress.
  destruct (byteLength (stringify codec v) <? threshold) eqn:Hsmall.
  - split; [|reflexivity]. cbn. unfold decompress. cbn. now rewrite Hv.
  - split; [|intros; exfalso; lia].
    destruct (gzip codec (stringify codec v)) as [z|] eqn:Hg.
    + destruct (10 * byteLength z <? 9 * byteLength (stringify codec v)).
      * cbn. unfold decompress. cbn. rewrite (Hz _ _ Hg). now rewrite Hv.
      * cbn. unfold decompress. cbn. now rewrite Hv.
    + cbn. unfold decompress. cbn. now rewrite Hv.
Qed.

(** A codec for the two booleans: their JSON text, and a zlib that
    knows a one-byte code for the text [false]. *)
Definition boolCodec : Codec bool :=
  mkCodec bool
    (fun b => if b then "true" else "false")
    (fun s => if String.eqb s "true" then Some true
              else if String.eqb s "false" then Some false else None)
    (fun s => if String.eqb s "false" then Some "F" else None)
    (fun z => if String.eqb z "F" then Some "false" else None).

Lemma boolCodec_lossless : lossless boolCodec.
Proof.
  intros s z. cbn. destruct (String.eqb_spec s "false") as [->|_];
    [|discriminate]. now intros [= <-].
Qed.

Lemma compress_roundtrip_witness :
  (compress boolCodec 5 false = ("F", true)
   /\ decompress boolCodec "F" true = Returned false)
  /\ compress boolCodec 5 true = ("true", false).
Proof.
  pose proof (compress_roundtrip boolCodec 5 false boolCodec_lossless eq_refl)
    as [H1 _].
  pose proof (compress_roundtrip boolCodec 5 true boolCodec_lossless eq_refl)
    as [_ H2].
  split; [split; [reflexivity|exact H1]|].
  apply H2. reflexivity.
Defined.

(** ** Further facts: what [compress] stores *)

(** What [decompress] makes of what [compress] returned. *)
Lemma decompress_compress {V} (codec : Codec V) (threshold : Z) (v : V) :
  lossless codec -> serializable codec v ->
  forall data flag,
    compress codec threshold v = (data, flag) ->
    decompress codec data flag = Returned v.
Proof.
  intros Hz Hv data flag. unfold compress, decompress.
  destruct (_ <? threshold).
  { intros [= <- <-]. cbn. now rewrite Hv. }
  destruct (gzip codec (stringify codec v)) as [z|] eqn:Hg.
  - destruct (10 * byteLength z <? _); intros [= <- <-]; cbn.
    + rewrite (Hz _ _ Hg). now rewrite Hv.
    + now rewrite Hv.
  - intros [= <- <-]. cbn. now rewrite Hv.
Qed.

(** X10.  [compress] never stores more than the JSON text of the value:
    what it returns is flagged as compressed only if the text has at
    least [compressionThreshold] bytes and zlib's output is under nine
    tenths of it, and is the JSON text itself otherwise, also when zlib
    fails. *)
Theorem compress_never_grows {V} (codec : Codec V) (threshold : Z) (v : V) :
  let json := stringify codec v in
  let data := fst (compress codec threshold v) in
  let flag := snd (compress codec threshold v) in
  byteLength data <= byteLength json
  /\ (flag = true ->
      threshold <= byteLength json
      /\ gzip codec json = Some data
      /\ 10 * byteLength data < 9 * byteLength json)
  /\ (flag = false -> data = json).
Proof.
  cbn zeta. unfold compress.
  destruct (byteLength (stringify codec v) <? threshold) eqn:Hsmall.
  { cbn. repeat split; try discriminate; lia. }
  destruct (gzip codec (stringify codec v)) as [z|] eqn:Hg.
  - destruct (10 * byteLength z <? 9 * byteLength (stringify codec v)) eqn:Hr;
      cbn; repeat split; try discriminate; try reflexivity; try lia.
    unfold byteLength in *. lia.
  - cbn. repeat split; try discriminate; lia.
Qed.

End Compression.

(* ================================================================== *)
(** * Cache-key generation (src/utils/key_generation.ts) *)
(* ================================================================== *)
Module KeyGen.

(** ** JavaScript objects as the generator sees them *)

(** An object with string keys: its own enumerable properties in the
    order of their creation, no key twice. *)
Definition JsObject (V : Type) : Type := list (string * V).

(** [Some n] when the key is the canonical decimal text of an array
    index [n < 2^32 - 1]: such keys are enumerated first, in numeric
    order. *)
Definition arrayIndex (key : string) : option N :=
  match NilEmpty.uint_of_string key with
  | Some d =>
      let n := N.of_uint d in
      if String.eqb (NilEmpty.string_of_uint (N.to_uint n)) key
         && (n <? 2 ^ 32 - 1)%N
      then Some n else None
  | None => None
  end.

Definition indexLe (k1 k2 : string) : Prop :=
  (default 0 (arrayIndex k1) <= default 0 (arrayIndex k2))%N.

#[local] Instance indexLe_dec k1 k2 : Decision (indexLe k1 k2).
Proof. unfold indexLe. apply _. Defined.

(** [Object.keys]: array indices in ascending order, then the other
    keys in the order of their creation. *)
Definition objectKeys {V} (o : JsObject V) : list string :=
  let keys := o.*1 in
  merge_sort indexLe (filter (fun k => is_Some (arrayIndex k)) keys)
  ++ filter (fun k => ~ is_Some (arrayIndex k)) keys.

(** [o[key]], for a property of the object's own. *)
Definition getProperty {V} (o : JsObject V) (key : string) : option V :=
  (list_to_map o : gmap string V) !! key.

(** [o[key] = v] on an object made by [{}], for a value [v] that is no
    object: an existing property keeps its place and a new one is
    created last.  The key [__proto__] is the exception: without a
    property of that name of its own, the object answers with the
    accessor it inherits from [Object.prototype], whose setter ignores
    such a value, and no property is created. *)
Fixpoint setProperty {V} (o : JsObject V) (key : string) (v : V)
  : JsObject V :=
  match o with
  | [] => if String.eqb key "__proto__" then [] else [(key, v)]
  | (k, x) :: rest =>
      if String.eqb k key then (k, v) :: rest
      else (k, x) :: setProperty rest key v
  end.

(** [Object.entries]. *)
Definition objectEntries {V} (o : JsObject V) : list (string * option V) :=
  map (fun k => (k, getProperty o k)) (objectKeys o).

(** The order of [Array.prototype.sort] without a comparator, on
    strings: by code units. *)
Definition strLe (s1 s2 : string) : Prop := String.leb s1 s2.

#[local] Instance strLe_dec s1 s2 : Decision (strLe s1 s2).
Proof. unfold strLe. apply _. Defined.

(** [Array.prototype.join]. *)
Fixpoint join (sep : string) (parts : list string) : string :=
  match parts with
  | [] => ""
  | [p] => p
  | p :: rest => p +:+ sep +:+ join sep rest
  end.

(** ** The generator *)

(** What the generator takes from its host: the values a parameter can
    hold besides [null] and [undefined], with [JSON.stringify] for the
    objects and [String] for the rest, and the SHA-256 digest in
    hexadecimal. *)
Record Host := mkHost {
  Obj : Type;
  Prim : Type;
  jsonStringify : Obj -> string;
  toString : Prim -> string;
  sha256hex : string -> string
}.

Inductive ParamValue (h : Host) :=
| PNull
| PUndefined
| PObject (o : Obj h)
| PPrimitive (p : Prim h).
Arguments PNull {h}.
Arguments PUndefined {h}.
Arguments PObject {h} o.
Arguments PPrimitive {h} p.

Section KeyGenerator.
Variable h : Host.

Definition SEPARATOR : string := ":".
Definition VERSION : string := "v1".

(** The body of the [forEach] in [sortAndNormalizeParams]. *)
Definition normalizeValue (value : option (ParamValue h)) : string :=
  match value with
  | None | Some PNull | Some PUndefined => ""
  | Some (PObject o) => jsonStringify h o
  | Some (PPrimitive p) => toString h p
  end.

Definition sortAndNormalizeParams (params : JsObject (ParamValue h))
  : JsObject string :=
  foldl (fun normalized key =>
           setProperty normalized key (normalizeValue (getProperty params key)))
        [] (merge_sort strLe (objectKeys params)).

Definition serializeParams (params : JsObject string) : string :=
  if decide (length (objectKeys params) = 0%nat) then ""
  else join "&" (map (fun '(key, value) => key +:+ "=" +:+ default "" value)
                     (objectEntries params)).

Definition hashString (input : string) : string :=
  String.substring 0 16 (sha256hex h input).

Definition generateKey (type : string) (params : JsObject (ParamValue h))
  : string :=
  let sortedParams := sortAndNormalizeParams params in
  let paramString := serializeParams sortedParams in
  let baseKey := join SEPARATOR [VERSION; type; paramString] in
  if (200 <? String.length baseKey)%nat then
    join SEPARATOR [VERSION; type; hashString baseKey]
  else baseKey.

End KeyGenerator.

(** ** Key determinism *)

#[local] Instance strLe_total : Total strLe.
Proof.
  intros s1 s2. unfold strLe.
  destruct (String.leb_total s1 s2) as [H|H]; rewrite H; cbn; auto.
Qed.

#[local] Instance strLe_antisym : AntiSymm (=) strLe.
Proof.
  intros s1 s2 H1 H2. unfold strLe in *.
  apply String.leb_antisym; now apply Is_true_true.
Qed.

#[local] Instance strLe_trans : Transitive strLe.
Proof.
  assert (forall a b, strLe a b <-> a = b \/ OrderedTypeEx.String_as_OT.lt a b) as Hle.
  { intros a b. unfold strLe, String.leb.
    pose proof (OrderedTypeEx.String_as_OT.cmp_eq a b) as He.
    pose proof (OrderedTypeEx.String_as_OT.cmp_lt a b) as Hl.
    pose proof (OrderedTypeEx.String_as_OT.cmp_lt b a) as Hg.
    pose proof (OrderedTypeEx.String_as_OT.cmp_antisym b a) as Ha.
    unfold OrderedTypeEx.String_as_OT.cmp in *.
    destruct (String.compare a b) eqn:Hc; cbn; split; intros H;
      try tauto.
    destruct H as [H|H]; [apply He in H; discriminate|].
    apply Hl in H. discriminate. }
  intros a b c Hab Hbc. apply Hle in Hab, Hbc. apply Hle.
  destruct Hab as [->|Hab]; [assumption|].
  destruct Hbc as [<-|Hbc]; [now right|].
  right. exact (OrderedTypeEx.String_as_OT.lt_trans _ _ _ Hab Hbc).
Qed.

Lemma objectKeys_Permutation {V} (o : JsObject V) : objectKeys o ≡ₚ o.*1.
Proof.
  unfold objectKeys. rewrite merge_sort_Permutation.
  apply filter_app_complement.
Qed.

(** The sorted list of keys depends on the keys only. *)
Lemma sortedKeys_of_keys {V W} (o1 : JsObject V) (o2 : JsObject W) :
  o1.*1 ≡ₚ o2.*1 ->
  merge_sort strLe (objectKeys o1) = merge_sort strLe (objectKeys o2).
Proof.
  intros Hp. apply (Sorted_unique strLe).
  - apply Sorted_merge_sort, _.
  - apply Sorted_merge_sort, _.
  - now rewrite !merge_sort_Permutation, !objectKeys_Permutation.
Qed.

Lemma getProperty_Permutation {V} (o1 o2 : JsObject V) key :
  NoDup (o1.*1) -> o1 ≡ₚ o2 -> getProperty o1 key = getProperty o2 key.
Proof.
  intros Hnd Hp. unfold getProperty.
  now rewrite (list_to_map_proper (M := gmap string) o1 o2 Hnd Hp).
Qed.

Lemma sortAndNormalizeParams_same (h : Host)
    (p1 p2 : JsObject (ParamValue h)) :
  p1.*1 ≡ₚ p2.*1 ->
  (forall key, normalizeValue h (getProperty p1 key)
               = normalizeValue h (getProperty p2 key)) ->
  sortAndNormalizeParams h p1 = sortAndNormalizeParams h p2.
Proof.
  intros Hp Hv. unfold sortAndNormalizeParams.
  rewrite (sortedKeys_of_keys p1 p2 Hp).
  generalize (@nil (string * string)).
  induction (merge_sort strLe (objectKeys p2)) as [|k ks IH]; intros acc;
    [reflexivity|].
  cbn [foldl]. rewrite (Hv k). apply IH.
Qed.

(** C9 (as amended).  Two parameter objects with the same keys, created
    in any two orders, give the same cache key for every category when
    under each key their values are normalised to the same text: both
    [null] or [undefined], primitives with the same [String(..)], or
    objects with the same [JSON.stringify(..)]. *)
Theorem generateKey_order_independent (h : Host) (type : string)
    (p1 p2 : JsObject (ParamValue h)) :
  p1.*1 ≡ₚ p2.*1 ->
  (forall key, normalizeValue h (getProperty p1 key)
               = normalizeValue h (getProperty p2 key)) ->
  generateKey h type p1 = generateKey h type p2.
Proof.
  intros Hp Hv. unfold generateKey.
  now rewrite (sortAndNormalizeParams_same h p1 p2 Hp Hv).
Qed.

(** A host for examples: objects and primitives are given by their
    text, the digest by a stand-in. *)
Definition textHost : Host :=
  mkHost string string (fun o => o) (fun p => p) (fun s => "0123456789abcdef").

Definition sampleParams : JsObject (ParamValue textHost) :=
  [("league", PPrimitive ("Standard" : Prim textHost));
   ("category", PPrimitive ("armour" : Prim textHost));
   ("7", PNull);
   ("10", PObject ("[1,2]" : Obj textHost))].

Definition sampleParams' : JsObject (ParamValue textHost) :=
  [("10", PObject ("[1,2]" : Obj textHost));
   ("7", PNull);
   ("category", PPrimitive ("armour" : Prim textHost));
   ("league", PPrimitive ("Standard" : Prim textHost))].

Example generateKey_sample :
  generateKey textHost "unique_items" sampleParams
  = "v1:unique_items:7=&10=[1,2]&category=armour&league=Standard".
Proof. vm_compute. reflexivity. Qed.

Lemma generateKey_order_independent_witness :
  generateKey textHost "unique_items" sampleParams
  = generateKey textHost "unique_items" sampleParams'.
Proof.
  apply generateKey_order_independent.
  - symmetry. exact (reverse_Permutation (sampleParams.*1)).
  - intros key.
    rewrite (getProperty_Permutation sampleParams sampleParams' key).
    + reflexivity.
    + apply (bool_decide_unpack _). vm_compute. exact I.
    + symmetry. exact (reverse_Permutation sampleParams).
Defined.

(** *** Nested objects

    The claim as the specification has it takes two mappings for the
    same when they hold the same key/value pairs, a nested object being
    the same value whatever the order in which its own properties were
    created.  [JSON.stringify] writes a nested object's properties in
    the order of [Object.keys], so the generator tells such mappings
    apart. *)

(** A host whose objects hold whole numbers under keys that need no
    escaping, and whose primitives are strings. *)
Definition quoted (s : string) : string :=
  String (Ascii.ascii_of_nat 34) (s +:+ String (Ascii.ascii_of_nat 34) "").

Definition numberToString (n : Z) : string :=
  NilZero.string_of_int (Z.to_int n).

Definition stringifyNumbers (o : JsObject Z) : string :=
  "{" +:+ join "," (map (fun '(key, value) =>
                           quoted key +:+ ":"
                           +:+ default "null" (numberToString <$> value))
                        (objectEntries o))
  +:+ "}".

Definition jsonHost : Host :=
  mkHost (JsObject Z) string stringifyNumbers (fun p => p)
         (fun s => "0123456789abcdef").

(** The same value: nested objects are compared by their properties. *)
Definition sameValue (v1 v2 : option (ParamValue jsonHost)) : Prop :=
  match v1, v2 with
  | Some (PObject o1), Some (PObject o2) =>
      forall key, getProperty (o1 : JsObject Z) key
                  = getProperty (o2 : JsObject Z) key
  | _, _ => v1 = v2
  end.

(** The same key/value pairs. *)
Definition sameMapping (p1 p2 : JsObject (ParamValue jsonHost)) : Prop :=
  forall key, sameValue (getProperty p1 key) (getProperty p2 key).

Definition nestedParams : JsObject (ParamValue jsonHost) :=
  [("query", PPrimitive ("boots" : Prim jsonHost));
   ("price", PObject ([("min", 1); ("max", 5)] : Obj jsonHost))].

Definition nestedParams' : JsObject (ParamValue jsonHost) :=
  [("price", PObject ([("max", 5); ("min", 1)] : Obj jsonHost));
   ("query", PPrimitive ("boots" : Prim jsonHost))].

(** C9 (as the claim has it) fails.  [{ query: 'boots', price: { min: 1,
    max: 5 } }] and [{ price: { max: 5, min: 1 }, query: 'boots' }] hold
    the same key/value pairs, and their keys differ: one carries
    [price={"min":1,"max":5}], the other [price={"max":5,"min":1}]. *)
Lemma generateKey_nested_order_counterexample :
  sameMapping nestedParams nestedParams'
  /\ generateKey jsonHost "search_results" nestedParams
     = "v1:search_results:price={" +:+ quoted "min" +:+ ":1,"
       +:+ quoted "max" +:+ ":5}&query=boots"
  /\ generateKey jsonHost "search_results" nestedParams'
     = "v1:search_results:price={" +:+ quoted "max" +:+ ":5,"
       +:+ quoted "min" +:+ ":1}&query=boots"
  /\ generateKey jsonHost "search_results" nestedParams
     <> generateKey jsonHost "search_results" nestedParams'.
Proof.
  split; [|split; [|split]].
  - intros key. unfold sameValue, getProperty, nestedParams, nestedParams'.
    cbn [list_to_map foldr uncurry fst snd].
    destruct (decide (key = "query")) as [->|Hq].
    { rewrite lookup_insert_eq. rewrite lookup_insert_ne by discriminate.
      rewrite lookup_insert_eq. reflexivity. }
    destruct (decide (key = "price")) as [->|Hp].
    + rewrite lookup_insert_ne by discriminate.
      rewrite !lookup_insert_eq.
      intros key. cbn [list_to_map foldr uncurry fst snd].
      destruct (decide (key = "min")) as [->|Hm].
      { rewrite lookup_insert_eq. rewrite lookup_insert_ne by discriminate.
        rewrite lookup_insert_eq. reflexivity. }
      destruct (decide (key = "max")) as [->|Hx].
      { rewrite lookup_insert_eq. rewrite lookup_insert_ne by discriminate.
        rewrite lookup_insert_eq. reflexivity. }
      rewrite !lookup_insert_ne by congruence. reflexivity.
    + rewrite !lookup_insert_ne by congruence.
      rewrite lookup_empty. reflexivity.
  - vm_compute. reflexivity.
  - vm_compute. reflexivity.
  - vm_compute. discriminate.
Qed.

(** ** Further facts: reading a key back *)

Import Stdlib.Strings.Ascii.

(** [String.prototype.split] for a separator of one character, as the
    generator's separators are. *)
Fixpoint split (sep : Ascii.ascii) (s : string) : list string :=
  match s with
  | EmptyString => [EmptyString]
  | String a rest =>
      if Ascii.eqb a sep then EmptyString :: split sep rest
      else match split sep rest with
           | p :: ps => String a p :: ps
           | [] => [String a EmptyString]
           end
  end.

(** [String.prototype.includes] for one character. *)
Fixpoint contains (c : Ascii.ascii) (s : string) : bool :=
  match s with
  | EmptyString => false
  | String a rest => Ascii.eqb a c || contains c rest
  end.

Definition getTypeFromKey (key : string) : option string :=
  let parts := split ":"%char key in
  if (length parts <? 2)%nat || negb (bool_decide (parts !! 0%nat = Some VERSION))
  then None
  else parts !! 1%nat.

Definition isValidKey (key : string) : bool :=
  let parts := split ":"%char key in
  (2 <=? length parts)%nat && bool_decide (parts !! 0%nat = Some VERSION).

(** The test of the regular expression [^[a-f0-9]{16}$]. *)
Definition isHexDigit (a : Ascii.ascii) : bool :=
  let n := Ascii.nat_of_ascii a in
  ((48 <=? n) && (n <=? 57) || (97 <=? n) && (n <=? 102))%nat.

Definition isHashString (input : string) : bool :=
  (String.length input =? 16)%nat
  && forallb isHexDigit (String.list_ascii_of_string input).

(** The body of the [forEach] in [deserializeParams]: [key] and [value]
    are the first two pieces of the pair, a missing piece being
    [undefined]. *)
Definition deserializePair (params : JsObject string) (pair : string)
  : JsObject string :=
  let pieces := split "="%char pair in
  match pieces !! 0%nat, pieces !! 1%nat with
  | Some key, Some value =>
      if negb (String.eqb key "") then setProperty params key value
      else params
  | _, _ => params
  end.

Definition deserializeParams (paramString : string) : JsObject string :=
  if String.eqb paramString "" then []
  else foldl deserializePair [] (split "&"%char paramString).

(** [parseKey]: nothing in its [try] throws. *)
Definition parseKey (key : string) : option (string * JsObject string) :=
  let parts := split ":"%char key in
  if (length parts <? 2)%nat || negb (bool_decide (parts !! 0%nat = Some VERSION))
  then None
  else
    let type := default "" (parts !! 1%nat) in
    let paramsString := join SEPARATOR (drop 2 parts) in
    if isHashString paramsString then Some (type, [])
    else Some (type, deserializeParams paramsString).

(** A text that goes through [serializeParams] unharmed. *)
Definition plain (s : string) : Prop :=
  contains "&"%char s = false /\ contains "="%char s = false.

Lemma split_nonempty sep s : split sep s <> [].
Proof.
  destruct s as [|a rest]; cbn -[Ascii.eqb]; [discriminate|].
  destruct (Ascii.eqb a sep); [discriminate|].
  destruct (split sep rest); discriminate.
Qed.

Lemma split_clean sep s : contains sep s = false -> split sep s = [s].
Proof.
  induction s as [|a rest IH]; cbn -[Ascii.eqb]; [reflexivity|].
  destruct (Ascii.eqb a sep); cbn -[Ascii.eqb]; [discriminate|].
  intros H. now rewrite (IH H).
Qed.

Lemma split_app sep s1 s2 :
  contains sep s1 = false ->
  split sep (s1 +:+ String sep s2) = s1 :: split sep s2.
Proof.
  induction s1 as [|a rest IH].
  - intros _. change ("" +:+ String sep s2) with (String sep s2).
    cbn [split]. now rewrite Ascii.eqb_refl.
  - change (String a rest +:+ String sep s2)
      with (String a (rest +:+ String sep s2)).
    cbn [split contains]. destruct (Ascii.eqb a sep); [discriminate|].
    cbn [orb]. intros H. now rewrite (IH H).
Qed.

Lemma join_split sep s : join (String sep "") (split sep s) = s.
Proof.
  induction s as [|a rest IH]; [reflexivity|]. cbn [split].
  destruct (Ascii.eqb_spec a sep) as [->|Hne].
  - pose proof (split_nonempty sep rest) as Hn.
    destruct (split sep rest) as [|p ps] eqn:Hs; [contradiction|].
    cbn [join]. cbn -[Ascii.eqb]. now rewrite <- IH.
  - destruct (split sep rest) as [|p ps] eqn:Hs.
    + now destruct (split_nonempty sep rest).
    + rewrite <- IH. destruct ps; reflexivity.
Qed.

Lemma split_join sep (parts : list string) :
  parts <> [] -> Forall (fun p => contains sep p = false) parts ->
  split sep (join (String sep "") parts) = parts.
Proof.
  induction parts as [|p ps IH]; [congruence|]. intros _ Hall.
  apply Forall_cons in Hall as [Hp Hps].
  destruct ps as [|q qs]; [now apply split_clean|].
  change (join (String sep "") (p :: q :: qs))
    with (p +:+ String sep (join (String sep "") (q :: qs))).
  rewrite split_app by exact Hp. f_equal. now apply IH.
Qed.

Lemma contains_app c s1 s2 :
  contains c (s1 +:+ s2) = contains c s1 || contains c s2.
Proof.
  induction s1 as [|a rest IH]; [reflexivity|].
  change (String a rest +:+ s2) with (String a (rest +:+ s2)).
  cbn [contains]. now rewrite IH, orb_assoc.
Qed.

Lemma contains_join c sep p (ps : list string) :
  contains c p = true -> contains c (join sep (p :: ps)) = true.
Proof.
  intros H. destruct ps as [|q qs]; [exact H|].
  change (join sep (p :: q :: qs)) with (p +:+ sep +:+ join sep (q :: qs)).
  now rewrite contains_app, H.
Qed.

Lemma isHashString_contains input :
  isHashString input = true -> contains "="%char input = false.
Proof.
  unfold isHashString. intros [_ H]%andb_true_iff. revert H.
  induction input as [|a rest IH]; cbn -[Ascii.eqb]; [reflexivity|].
  intros [Ha Hr]%andb_true_iff. rewrite (IH Hr), orb_false_r.
  destruct (Ascii.eqb_spec a "="%char); [subst; discriminate|reflexivity].
Qed.

Lemma length_app_string s1 s2 :
  String.length (s1 +:+ s2) = (String.length s1 + String.length s2)%nat.
Proof.
  induction s1 as [|a rest IH]; [reflexivity|].
  change (String a rest +:+ s2) with (String a (rest +:+ s2)).
  cbn [String.length]. now rewrite IH.
Qed.

Lemma length_substring n m s : (String.length (String.substring n m s) <= m)%nat.
Proof.
  revert n m. induction s as [|a rest IH]; intros n m.
  - destruct n, m; cbn -[Ascii.eqb]; lia.
  - destruct n as [|n]; cbn -[Ascii.eqb].
    + destruct m as [|m]; cbn -[Ascii.eqb]; [lia|]. specialize (IH 0%nat m). lia.
    + apply IH.
Qed.

(** The shape of every key. *)
Lemma generateKey_shape (h : Host) type params :
  exists x,
    generateKey h type params = "v1:" +:+ (type +:+ String ":"%char x)
    /\ (x = hashString h (join SEPARATOR
                            [VERSION; type;
                             serializeParams (sortAndNormalizeParams h params)])
        \/ ((String.length
               (join SEPARATOR
                  [VERSION; type;
                   serializeParams (sortAndNormalizeParams h params)])
             <= 200)%nat
            /\ x = serializeParams (sortAndNormalizeParams h params))).
Proof.
  unfold generateKey.
  destruct (200 <? _)%nat eqn:Hlong.
  - eexists. split; [reflexivity|now left].
  - eexists. split; [reflexivity|]. right. split; [|reflexivity].
    apply Nat.ltb_ge in Hlong. exact Hlong.
Qed.

Lemma split_key type x :
  contains ":"%char type = false ->
  split ":"%char ("v1:" +:+ (type +:+ String ":"%char x))
  = "v1" :: type :: split ":"%char x.
Proof.
  intros Ht.
  assert (forall rest, split ":"%char ("v1:" +:+ rest)
                       = "v1" :: split ":"%char rest) as ->.
  { intros rest.
    change ("v1:" +:+ rest) with (String "v" (String "1" (String ":" rest))).
    cbn. reflexivity. }
  now rewrite (split_app ":"%char type x Ht).
Qed.

(** Objects as finite maps: on an object without a property
    [__proto__] of its own, an assignment inserts, but for that key. *)
Lemma setProperty_map {V} (o : JsObject V) key v :
  (list_to_map o : gmap string V) !! "__proto__" = None ->
  (list_to_map (setProperty o key v) : gmap string V)
  = if decide (key = "__proto__") then list_to_map o
    else <[key := v]> (list_to_map o).
Proof.
  induction o as [|[k x] rest IH]; intros Hproto; cbn [setProperty].
  - destruct (String.eqb_spec key "__proto__") as [->|Hne].
    + now rewrite decide_True.
    + now rewrite decide_False.
  - rewrite list_to_map_cons in Hproto.
    apply lookup_insert_None in Hproto as [Hrest Hk].
    destruct (String.eqb_spec k key) as [->|Hne].
    + rewrite decide_False by congruence. rewrite !list_to_map_cons.
      now rewrite insert_insert_eq.
    + rewrite !list_to_map_cons, (IH Hrest).
      destruct (decide (key = "__proto__")); [reflexivity|].
      now apply insert_insert_ne.
Qed.

Lemma foldl_setProperty_map {V} (f : string -> V) (keys : list string) :
  forall (acc : JsObject V) k,
    (list_to_map acc : gmap string V) !! "__proto__" = None ->
    (list_to_map (foldl (fun o key => setProperty o key (f key)) acc keys)
       : gmap string V) !! k
    = if decide (k ∈ keys /\ k <> "__proto__") then Some (f k)
      else (list_to_map acc : gmap string V) !! k.
Proof.
  induction keys as [|key keys IH]; intros acc k Hproto; cbn [foldl].
  - rewrite decide_False; [reflexivity|].
    intros [Hin _]. now apply elem_of_nil in Hin.
  - rewrite IH.
    2:{ rewrite setProperty_map by assumption.
        destruct (decide (key = "__proto__")); [assumption|].
        now rewrite lookup_insert_ne. }
    rewrite setProperty_map by assumption.
    destruct (decide (k ∈ keys /\ k <> "__proto__")) as [[Hin Hk]|Hout].
    + rewrite decide_True; [reflexivity|]. split; [now right|assumption].
    + destruct (decide (key = "__proto__")) as [->|Hkey].
      * rewrite decide_False; [reflexivity|].
        intros [Hin Hk]. apply elem_of_cons in Hin as [->|Hin]; tauto.
      * destruct (decide (k = key)) as [->|Hne].
        -- rewrite lookup_insert_eq, decide_True; [reflexivity|].
           split; [left|assumption].
        -- rewrite lookup_insert_ne by congruence.
           rewrite decide_False; [reflexivity|].
           intros [Hin Hk]. apply elem_of_cons in Hin as [->|Hin]; tauto.
Qed.

Lemma objectKeys_elem {V} (o : JsObject V) k :
  k ∈ objectKeys o <-> is_Some (getProperty o k).
Proof.
  rewrite objectKeys_Permutation. unfold getProperty.
  destruct ((list_to_map o : gmap string V) !! k) as [v|] eqn:Hk.
  - split; [eauto|]. intros _.
    apply elem_of_list_to_map_2 in Hk.
    apply list_elem_of_fmap. now exists (k, v).
  - split; [|intros [? [=]]]. intros Hin.
    apply not_elem_of_list_to_map in Hk. contradiction.
Qed.

(** The properties of the normalised object are the normalised values of
    the properties of the parameters, but for a parameter [__proto__],
    which is lost. *)
Lemma sortAndNormalizeParams_lookup (h : Host)
    (params : JsObject (ParamValue h)) k :
  getProperty (sortAndNormalizeParams h params) k
  = if decide (k = "__proto__") then None
    else (fun v => normalizeValue h (Some v)) <$> getProperty params k.
Proof.
  unfold sortAndNormalizeParams, getProperty at 1.
  rewrite (foldl_setProperty_map
             (fun key => normalizeValue h (getProperty params key)))
    by apply lookup_empty.
  destruct (decide (k = "__proto__")) as [->|Hk].
  { rewrite decide_False by tauto. apply lookup_empty. }
  destruct (decide (k ∈ merge_sort strLe (objectKeys params)
                    /\ k <> "__proto__")) as [[Hin _]|Hout].
  - rewrite merge_sort_Permutation in Hin.
    apply objectKeys_elem in Hin as [v Hv]. now rewrite Hv.
  - rewrite merge_sort_Permutation, objectKeys_elem in Hout.
    destruct (getProperty params k) as [v|]; [|apply lookup_empty].
    exfalso. apply Hout. eauto.
Qed.

(** Reading back the pairs that [serializeParams] wrote. *)
Lemma deserializePair_written (o : JsObject string) key value :
  key <> "" -> contains "="%char key = false ->
  contains "="%char value = false ->
  deserializePair o (key +:+ "=" +:+ value) = setProperty o key value.
Proof.
  intros Hk Hck Hcv. unfold deserializePair.
  change (key +:+ "=" +:+ value) with (key +:+ String "="%char value).
  rewrite (split_app "="%char key value Hck), (split_clean _ _ Hcv).
  cbn [lookup list_lookup].
  destruct (String.eqb_spec key "") as [->|_]; [congruence|reflexivity].
Qed.

Lemma foldl_deserializePair (normalized : JsObject string)
    (keys : list string) :
  (forall k, k ∈ keys ->
             k <> "" /\ contains "="%char k = false
             /\ contains "="%char (default "" (getProperty normalized k))
                = false) ->
  forall acc,
    foldl deserializePair acc
      (map (fun '(key, value) => key +:+ "=" +:+ default "" value)
         (map (fun k => (k, getProperty normalized k)) keys))
    = foldl (fun o k => setProperty o k (default "" (getProperty normalized k)))
        acc keys.
Proof.
  induction keys as [|k keys IH]; intros Hall acc; [reflexivity|].
  cbn [map foldl].
  destruct (Hall k ltac:(left)) as (H1 & H2 & H3).
  rewrite (deserializePair_written acc k _ H1 H2 H3).
  apply IH. intros k' Hk'. apply Hall. now right.
Qed.

Lemma deserializeParams_serializeParams (normalized : JsObject string) :
  getProperty normalized "__proto__" = None ->
  (forall k v, getProperty normalized k = Some v ->
               k <> "" /\ plain k /\ plain v) ->
  isHashString (serializeParams normalized) = false
  /\ forall k,
       getProperty (deserializeParams (serializeParams normalized)) k
       = getProperty normalized k.
Proof.
  intros Hproto Hsafe. unfold serializeParams.
  destruct (decide (length (objectKeys normalized) = 0%nat)) as [Hnone|Hsome].
  { split; [reflexivity|]. intros k. cbn.
    destruct (getProperty normalized k) as [v|] eqn:Hk; [|reflexivity].
    assert (k ∈ objectKeys normalized) as Hin
      by (apply objectKeys_elem; eauto).
    apply length_zero_iff_nil in Hnone. rewrite Hnone in Hin.
    now apply elem_of_nil in Hin. }
  unfold objectEntries.
  assert (forall k, k ∈ objectKeys normalized ->
            k <> "" /\ plain k
            /\ plain (default "" (getProperty normalized k))) as Hkeys.
  { intros k [v Hv]%objectKeys_elem. rewrite Hv. now apply Hsafe. }
  set (pairs := map _ (map _ (objectKeys normalized))).
  assert (exists p ps, pairs = p :: ps /\ contains "="%char p = true)
    as (p & ps & Hpairs & Hp).
  { unfold pairs. destruct (objectKeys normalized) as [|k ks];
      [now cbn in Hsome|].
    cbn [map]. eexists _, _. split; [reflexivity|].
    change (k +:+ "=" +:+ default "" (getProperty normalized k))
      with (k +:+ String "="%char (default "" (getProperty normalized k))).
    rewrite contains_app. cbn. now rewrite orb_true_r. }
  assert (contains "="%char (join "&" pairs) = true) as Heq
    by (rewrite Hpairs; now apply contains_join).
  split.
  { destruct (isHashString (join "&" pairs)) eqn:Hhash; [|reflexivity].
    apply isHashString_contains in Hhash. congruence. }
  intros k. unfold deserializeParams.
  destruct (String.eqb_spec (join "&" pairs) "") as [Hempty|_].
  { rewrite Hempty in Heq. discriminate. }
  rewrite (split_join "&"%char pairs).
  - unfold pairs. rewrite foldl_deserializePair.
    + unfold getProperty at 1.
      rewrite (foldl_setProperty_map
                 (fun k => default "" (getProperty normalized k)))
        by apply lookup_empty.
      destruct (decide (k ∈ objectKeys normalized /\ k <> "__proto__"))
        as [[Hin _]|Hout].
      * apply objectKeys_elem in Hin as [v Hv]. now rewrite Hv.
      * destruct (getProperty normalized k) as [v|] eqn:Hk;
          [|apply lookup_empty].
        exfalso. apply Hout. split; [apply objectKeys_elem; eauto|].
        intros ->. congruence.
    + intros k' Hk'. destruct (Hkeys k' Hk') as (H1 & [_ H2] & [_ H3]).
      auto.
  - rewrite Hpairs. discriminate.
  - unfold pairs. rewrite Forall_forall. intros pair Hin.
    apply list_elem_of_fmap in Hin as ([k' v'] & -> & Hin).
    apply list_elem_of_fmap in Hin as (k'' & [= -> ->] & Hin).
    destruct (Hkeys k'' Hin) as (_ & [H2 _] & [H3 _]).
    change (k'' +:+ "=" +:+ default "" (getProperty normalized k''))
      with (k'' +:+ String "="%char (default "" (getProperty normalized k''))).
    rewrite contains_app, H2. cbn [contains orb].
    now rewrite H3.
Qed.

(** X12.  A key carries its category: for a category without a colon,
    [getTypeFromKey] gives the category back from every key that
    [generateKey] makes for it, hashed or not, and [isValidKey] accepts
    the key. *)
Theorem generated_key_carries_type (h : Host) (type : string)
    (params : JsObject (ParamValue h)) :
  contains ":"%char type = false ->
  getTypeFromKey (generateKey h type params) = Some type
  /\ isValidKey (generateKey h type params) = true.
Proof.
  intros Ht. destruct (generateKey_shape h type params) as (x & -> & _).
  unfold getTypeFromKey, isValidKey. rewrite (split_key type x Ht).
  split; reflexivity.
Qed.

Lemma generated_key_carries_type_witness :
  getTypeFromKey (generateKey textHost "unique_items" sampleParams)
  = Some "unique_items"
  /\ isValidKey (generateKey textHost "unique_items" sampleParams) = true.
Proof.
  apply (generated_key_carries_type textHost "unique_items" sampleParams).
  reflexivity.
Defined.

(** X13.  Keys stay short: a key is never longer than 200 characters,
    or than the category and 20 characters more when the category
    itself is that long. *)
Theorem generated_key_length (h : Host) (type : string)
    (params : JsObject (ParamValue h)) :
  (String.length (generateKey h type params)
   <= Nat.max 200 (String.length type + 20))%nat.
Proof.
  unfold generateKey. destruct (200 <? _)%nat eqn:Hlong.
  - change (join SEPARATOR [VERSION; type; ?x])
      with ("v1:" +:+ (type +:+ String ":"%char x)).
    rewrite !length_app_string. cbn [String.length].
    pose proof (length_substring 0 16
                  (sha256hex h
                     (join SEPARATOR
                        [VERSION; type;
                         serializeParams (sortAndNormalizeParams h params)])))
      as Hhash.
    unfold hashString. lia.
  - apply Nat.ltb_ge in Hlong. lia.
Qed.

(** X14.  [parseKey] reads back what [generateKey] wrote.  For a
    category without a colon and parameters whose keys are not empty and
    whose keys and normalised values hold neither [&] nor [=], a key of
    at most 200 characters parses to the category and to an object whose
    properties are the normalised values of the parameters; a parameter
    named [__proto__] is the exception: it is in no key and the object
    read back has no property of that name. *)
Theorem parseKey_generateKey (h : Host) (type : string)
    (params : JsObject (ParamValue h)) :
  contains ":"%char type = false ->
  (forall k v, getProperty params k = Some v ->
               k <> "" /\ plain k /\ plain (normalizeValue h (Some v))) ->
  (String.length
     (join SEPARATOR
        [VERSION; type; serializeParams (sortAndNormalizeParams h params)])
   <= 200)%nat ->
  exists o,
    parseKey (generateKey h type params) = Some (type, o)
    /\ forall k,
         getProperty o k
         = if decide (k = "__proto__") then None
           else (fun v => normalizeValue h (Some v)) <$> getProperty params k.
Proof.
  intros Ht Hsafe Hshort.
  assert (generateKey h type params
          = "v1:" +:+ (type +:+ String ":"%char
                         (serializeParams (sortAndNormalizeParams h params))))
    as ->.
  { unfold generateKey.
    destruct (200 <? _)%nat eqn:Hlong; [|reflexivity].
    apply Nat.ltb_lt in Hlong. lia. }
  destruct (deserializeParams_serializeParams
              (sortAndNormalizeParams h params)) as [Hhash Hback].
  { rewrite sortAndNormalizeParams_lookup. now rewrite decide_True. }
  { intros k v. rewrite sortAndNormalizeParams_lookup.
    destruct (decide (k = "__proto__")); [discriminate|].
    destruct (getProperty params k) as [pv|] eqn:Hk; [|discriminate].
    intros [= <-]. now apply (Hsafe k pv). }
  exists (deserializeParams (serializeParams (sortAndNormalizeParams h params))).
  split.
  - unfold parseKey. rewrite (split_key type _ Ht).
    cbn [length Nat.ltb Nat.leb orb lookup list_lookup drop default].
    rewrite bool_decide_true by reflexivity. cbn [negb].
    rewrite drop_0.
    rewrite (join_split ":"%char), Hhash. reflexivity.
  - intros k. now rewrite Hback, sortAndNormalizeParams_lookup.
Qed.

Lemma parseKey_generateKey_witness :
  exists o,
    parseKey (generateKey textHost "unique_items" sampleParams)
    = Some ("unique_items", o)
    /\ forall k,
         getProperty o k
         = if decide (k = "__proto__") then None
           else (fun v => normalizeValue textHost (Some v))
                  <$> getProperty sampleParams k.
Proof.
  apply (parseKey_generateKey textHost "unique_items" sampleParams).
  - reflexivity.
  - intros k v Hk. unfold getProperty in Hk.
    apply elem_of_list_to_map_2 in Hk. unfold sampleParams in Hk.
    repeat (apply elem_of_cons in Hk as [[= -> ->]|Hk];
            [repeat split; (discriminate || reflexivity)|]).
    now apply elem_of_nil in Hk.
  - vm_compute. lia.
Defined.

End KeyGen.

(* ================================================================== *)
(** * Two-tier cache (src/cache/l1_cache.ts, l2_cache.ts,
      invalidation.ts, cache_manager.ts, src/database/sqlite_client.ts) *)
(* ================================================================== *)
Module Cache.

(** ** The stores behind the tiers *)

(** node-cache, as far as [L1Cache] uses it.  [ncSet] is [None] when the
    library throws (the store is full, the key is of the wrong type). *)
Record NodeCache (V : Type) := mkNodeCache {
  NC : Type;
  ncGet : string -> Z -> NC -> option V * NC;
  ncSet : string -> V -> Q -> Z -> NC -> option (bool * NC)
}.
Arguments NC {V} n.
Arguments ncGet {V} n key now store.
Arguments ncSet {V} n key value ttl now store.

(** A row of the table [cache_entries]. *)
Record CacheRow := mkRow {
  row_key : string;
  row_value : string;
  data_type : string;
  row_ttl : Z;
  created_at : Z;
  last_accessed : Z;
  row_compressed : Z;
  access_count : Z
}.

(** The three statements [SQLiteClient] runs for [get] and [set]: the
    [UPDATE] that touches a live row, the [SELECT] by key and the
    [INSERT OR REPLACE].  [None] stands for a thrown error; the
    statements that change rows return how many they changed. *)
Record Sqlite := mkSqlite {
  DB : Type;
  touchLive : Z -> string -> DB -> option (Z * DB);
  selectByKey : string -> DB -> option (option CacheRow);
  insertOrReplace : CacheRow -> DB -> option (Z * DB)
}.

Section SQLiteClient.
Variable sql : Sqlite.

Definition sqliteGet (key : string) (now : Z) (db : DB sql)
  : option CacheRow * DB sql :=
  match touchLive sql now key db with
  | Some (changes, db') =>
      if changes =? 0 then (None, db')
      else match selectByKey sql key db' with
           | Some row => (row, db')
           | None => (None, db')
           end
  | None => (None, db)
  end.

(** [entry] comes without [access_count]; the statement keeps the count
    of the row it replaces. *)
Definition sqliteSet (entry : CacheRow) (db : DB sql) : bool * DB sql :=
  match insertOrReplace sql entry db with
  | Some (changes, db') => (0 <? changes, db')
  | None => (false, db)
  end.

End SQLiteClient.

(** ** L1: the in-memory tier *)

Record L1Cache {V} (nc : NodeCache V) := mkL1 {
  l1_store : NC nc;
  l1_hits : Z;
  l1_misses : Z;
  l1_sets : Z;
  l1_deletes : Z
}.
Arguments mkL1 {V nc}.
Arguments l1_store {V nc}.
Arguments l1_hits {V nc}.
Arguments l1_misses {V nc}.
Arguments l1_sets {V nc}.
Arguments l1_deletes {V nc}.

Section L1.
Context {V : Type}.
Variable nc : NodeCache V.

Definition l1Get (key : string) (now : Z) (c : L1Cache nc)
  : option V * L1Cache nc :=
  match ncGet nc key now (l1_store c) with
  | (Some value, store') =>
      (Some value,
       mkL1 store' (l1_hits c + 1) (l1_misses c) (l1_sets c) (l1_deletes c))
  | (None, store') =>
      (None,
       mkL1 store' (l1_hits c) (l1_misses c + 1) (l1_sets c) (l1_deletes c))
  end.

(** The [set] event handler counts a successful write once, the method
    once more. *)
Definition l1Set (key : string) (value : V) (ttl : Q) (now : Z)
    (c : L1Cache nc) : bool * L1Cache nc :=
  match ncSet nc key value ttl now (l1_store c) with
  | Some (true, store') =>
      (true,
       mkL1 store' (l1_hits c) (l1_misses c) (l1_sets c + 1 + 1) (l1_deletes c))
  | Some (false, store') =>
      (false,
       mkL1 store' (l1_hits c) (l1_misses c) (l1_sets c) (l1_deletes c))
  | None => (false, c)
  end.

End L1.

(** ** L2: the durable tier *)

Record L2Cache (sql : Sqlite) := mkL2 {
  l2_db : DB sql;
  l2_hits : Z;
  l2_misses : Z;
  l2_sets : Z;
  l2_deletes : Z;
  compressionSaved : Z
}.
Arguments mkL2 {sql}.
Arguments l2_db {sql}.
Arguments l2_hits {sql}.
Arguments l2_misses {sql}.
Arguments l2_sets {sql}.
Arguments l2_deletes {sql}.
Arguments compressionSaved {sql}.

Section L2.
Context {V : Type}.
Variable sql : Sqlite.
Variable codec : Compression.Codec V.
Variable compressionThreshold : Z.

Definition l2Get (key : string) (now : Z) (c : L2Cache sql)
  : option V * L2Cache sql :=
  match sqliteGet sql key now (l2_db c) with
  | (None, db') =>
      (None, mkL2 db' (l2_hits c) (l2_misses c + 1) (l2_sets c)
               (l2_deletes c) (compressionSaved c))
  | (Some row, db') =>
      match Compression.decompress codec (row_value row)
              (negb (row_compressed row =? 0)) with
      | Returned value =>
          (Some value, mkL2 db' (l2_hits c + 1) (l2_misses c) (l2_sets c)
                         (l2_deletes c) (compressionSaved c))
      | Thrown _ =>
          (None, mkL2 db' (l2_hits c) (l2_misses c + 1) (l2_sets c)
                   (l2_deletes c) (compressionSaved c))
      end
  end.

Definition l2Set (key : string) (value : V) (dataType : string) (ttl : Z)
    (now : Z) (c : L2Cache sql) : bool * L2Cache sql :=
  let expiresAt := now + ttl in
  let '(data, compressed) :=
    Compression.compress codec compressionThreshold value in
  let saved :=
    if compressed
    then compressionSaved c
         + (Compression.byteLength (Compression.stringify codec value)
            - Compression.byteLength data)
    else compressionSaved c in
  let entry := mkRow key data dataType expiresAt now now
                 (if compressed then 1 else 0) 1 in
  match sqliteSet sql entry (l2_db c) with
  | (true, db') =>
      (true, mkL2 db' (l2_hits c) (l2_misses c) (l2_sets c + 1)
               (l2_deletes c) saved)
  | (false, db') =>
      (false, mkL2 db' (l2_hits c) (l2_misses c) (l2_sets c)
                (l2_deletes c) saved)
  end.

End L2.

(** ** Invalidation policy: the TTL of a category *)

Record CachePolicy := mkPolicy {
  l1TTL : Z;
  l2TTL : Z;
  refreshThreshold : Q
}.

Record InvalidationConfig := mkInvalidation {
  defaultTTL : Z;
  policies : gmap string CachePolicy
}.

(** [policy?.l1TTL || defaultTTL]: zero counts as absent. *)
Definition getTTL (cfg : InvalidationConfig) (dataType : string) : Z :=
  match policies cfg !! dataType with
  | Some policy => if l1TTL policy =? 0 then defaultTTL cfg else l1TTL policy
  | None => defaultTTL cfg
  end.

Definition getL2TTL (cfg : InvalidationConfig) (dataType : string) : Z :=
  match policies cfg !! dataType with
  | Some policy =>
      if l2TTL policy =? 0 then getTTL cfg dataType * 5 else l2TTL policy
  | None => getTTL cfg dataType * 5
  end.

(** ** The manager *)

Inductive CacheSource := source_l1 | source_l2.

Record CacheResult (V : Type) := mkResult {
  value : V;
  source : CacheSource;
  cached : bool;
  timestamp : Z
}.
Arguments mkResult {V}.
Arguments value {V}.
Arguments source {V}.

Record CacheMetrics := mkMetrics {
  requestCount : Z;
  averageResponseTime : Q;
  errorRate : Q
}.

(** A JavaScript [Error] with its message. *)
Inductive JsError := Error (message : string).

Definition cacheMiss : JsError :=
  Error "Cache miss - data needs to be fetched from source".

Record CacheManager {V} (nc : NodeCache V) (sql : Sqlite) := mkManager {
  l1Cache : option (L1Cache nc);
  l2Cache : option (L2Cache sql);
  invalidation : InvalidationConfig;
  metrics : CacheMetrics
}.
Arguments mkManager {V nc sql}.
Arguments l1Cache {V nc sql}.
Arguments l2Cache {V nc sql}.
Arguments invalidation {V nc sql}.
Arguments metrics {V nc sql}.

Section Manager.
Context {V : Type}.
Variable host : KeyGen.Host.
Variable nc : NodeCache V.
Variable sql : Sqlite.
Variable codec : Compression.Codec V.
Variable compressionThreshold : Z.

(** The running average of [updateResponseTime]. *)
Definition updateResponseTime (startTime now : Z) (m : CacheMetrics)
  : CacheMetrics :=
  let responseTime := inject_Z (now - startTime) in
  let count := requestCount m in
  if count =? 1 then mkMetrics count responseTime (errorRate m)
  else
    mkMetrics count
      ((averageResponseTime m * inject_Z (count - 1) + responseTime)
       / inject_Z count)%Q
      (errorRate m).

Definition countRequest (m : CacheMetrics) : CacheMetrics :=
  mkMetrics (requestCount m + 1) (averageResponseTime m) (errorRate m).

Definition countError (m : CacheMetrics) : CacheMetrics :=
  mkMetrics (requestCount m) (averageResponseTime m) (errorRate m + 1)%Q.

(** The time to live handed to the first tier, in seconds. *)
Definition l1Seconds (cfg : InvalidationConfig) (dataType : string) : Q :=
  (inject_Z (getTTL cfg dataType) / 1000)%Q.

(** [get], entered at [startTime] and left at [now]. *)
Definition get (dataType : string)
    (params : KeyGen.JsObject (KeyGen.ParamValue host))
    (startTime now : Z) (m : CacheManager nc sql)
  : Result JsError (CacheResult V) * CacheManager nc sql :=
  let key := KeyGen.generateKey host dataType params in
  let metrics1 := countRequest (metrics m) in
  (* Try L1 cache first *)
  let '(l1Value, l1') :=
    match l1Cache m with
    | Some c => let '(v, c') := l1Get nc key startTime c in (v, Some c')
    | None => (None, None)
    end in
  match l1Value with
  | Some v =>
      (Returned (mkResult v source_l1 true now),
       mkManager l1' (l2Cache m) (invalidation m)
         (updateResponseTime startTime now metrics1))
  | None =>
      (* Try L2 cache *)
      let '(l2Value, l2') :=
        match l2Cache m with
        | Some c =>
            let '(v, c') := l2Get sql codec key startTime c in (v, Some c')
        | None => (None, None)
        end in
      match l2Value with
      | Some v =>
          (* Populate L1 cache if available *)
          let l1'' :=
            match l1' with
            | Some c =>
                Some (snd (l1Set nc key v
                             (l1Seconds (invalidation m) dataType)
                             startTime c))
            | None => None
            end in
          (Returned (mkResult v source_l2 true now),
           mkManager l1'' l2' (invalidation m)
             (updateResponseTime startTime now metrics1))
      | None =>
          (* Cache miss: the error is thrown, caught, counted, thrown again *)
          (Thrown cacheMiss,
           mkManager l1' l2' (invalidation m)
             (updateResponseTime startTime now
                (countError (updateResponseTime startTime now metrics1))))
      end
  end.

(** [set].  No call inside its [try] throws, so the [catch] is not
    reached. *)
Definition set (dataType : string)
    (params : KeyGen.JsObject (KeyGen.ParamValue host)) (value : V)
    (startTime now : Z) (m : CacheManager nc sql)
  : bool * CacheManager nc sql :=
  let key := KeyGen.generateKey host dataType params in
  let success := true in
  (* Set in L1 cache *)
  let '(success, l1') :=
    match l1Cache m with
    | Some c =>
        let '(l1Success, c') :=
          l1Set nc key value (l1Seconds (invalidation m) dataType)
            startTime c in
        (success && l1Success, Some c')
    | None => (success, None)
    end in
  (* Set in L2 cache *)
  let '(success, l2') :=
    match l2Cache m with
    | Some c =>
        let '(l2Success, c') :=
          l2Set sql codec compressionThreshold key value dataType
            (getL2TTL (invalidation m) dataType) startTime c in
        (success && l2Success, Some c')
    | None => (success, None)
    end in
  (success,
   mkManager l1' l2' (invalidation m)
     (updateResponseTime startTime now (metrics m))).

(** [getValue]: the value, or [undefined] when [get] throws. *)
Definition getValue (dataType : string)
    (params : KeyGen.JsObject (KeyGen.ParamValue host))
    (startTime now : Z) (m : CacheManager nc sql)
  : option V * CacheManager nc sql :=
  match get dataType params startTime now m with
  | (Returned result, m') => (Some (value result), m')
  | (Thrown _, m') => (None, m')
  end.

End Manager.

(** ** Two small stores to run the manager on *)

(** A node-cache that keeps its entries in a list and throws once it
    holds [maxKeys] keys; entries do not expire. *)
Definition listNodeCache (V : Type) (maxKeys : nat) : NodeCache V :=
  mkNodeCache V (list (string * V))
    (fun key _ store => (snd <$> List.find (fun e => String.eqb (fst e) key) store, store))
    (fun key value _ _ store =>
       if (maxKeys <=? length store)%nat then None
       else Some (true,
                  (key, value)
                    :: List.filter (fun e => negb (String.eqb (fst e) key)) store)).

(** A table kept in a list; when [writable] is off every statement that
    writes throws, as a full or read-only disk makes it. *)
Definition listSqlite (writable : bool) : Sqlite :=
  mkSqlite (list CacheRow)
    (fun now key db =>
       if writable then
         if existsb (fun r => String.eqb (row_key r) key && (now <? row_ttl r)) db
         then Some (1,
                    map (fun r =>
                           if String.eqb (row_key r) key && (now <? row_ttl r)
                           then mkRow (row_key r) (row_value r) (data_type r)
                                  (row_ttl r) (created_at r) now
                                  (row_compressed r) (access_count r + 1)
                           else r) db)
         else Some (0, db)
       else None)
    (fun key db => Some (List.find (fun r => String.eqb (row_key r) key) db))
    (fun entry db =>
       if writable then
         let kept :=
           match List.find (fun r => String.eqb (row_key r) (row_key entry)) db with
           | Some old => access_count old
           | None => 1
           end in
         Some (1,
               mkRow (row_key entry) (row_value entry) (data_type entry)
                 (row_ttl entry) (created_at entry) (last_accessed entry)
                 (row_compressed entry) kept
               :: List.filter
                    (fun r => negb (String.eqb (row_key r) (row_key entry))) db)
       else None).

(** ** Facts about [set] and [get] *)

Section ManagerFacts.
Context {V : Type}.
Variable host : KeyGen.Host.
Variable nc : NodeCache V.
Variable sql : Sqlite.
Variable codec : Compression.Codec V.
Variable compressionThreshold : Z.

(** The outcome of the write to each tier, [true] for a tier that is
    switched off. *)
Definition l1Written dataType params (v : V) (now : Z)
    (m : CacheManager nc sql) : bool :=
  match l1Cache m with
  | Some c =>
      fst (l1Set nc (KeyGen.generateKey host dataType params) v
             (l1Seconds (invalidation m) dataType) now c)
  | None => true
  end.

Definition l2Written dataType params (v : V) (now : Z)
    (m : CacheManager nc sql) : bool :=
  match l2Cache m with
  | Some c =>
      fst (l2Set sql codec compressionThreshold
             (KeyGen.generateKey host dataType params) v dataType
             (getL2TTL (invalidation m) dataType) now c)
  | None => true
  end.

Lemma set_result dataType params (v : V) startTime now m :
  fst (set host nc sql codec compressionThreshold dataType params v
         startTime now m)
  = l1Written dataType params v startTime m
    && l2Written dataType params v startTime m.
Proof.
  unfold set, l1Written, l2Written.
  destruct (l1Cache m) as [c1|], (l2Cache m) as [c2|]; cbn.
  - destruct (l1Set _ _ _ _ _ _) as [b1 c1'].
    destruct (l2Set _ _ _ _ _ _ _ _ _) as [b2 c2']. reflexivity.
  - destruct (l1Set _ _ _ _ _ _) as [b1 c1']. cbn. now rewrite andb_true_r.
  - destruct (l2Set _ _ _ _ _ _ _ _ _) as [b2 c2']. reflexivity.
  - reflexivity.
Qed.

(** What the lookups of [get] find in each tier, and the first tier as
    its lookup leaves it. *)
Definition l1Lookup dataType params (now : Z) (m : CacheManager nc sql)
  : option V :=
  match l1Cache m with
  | Some c => fst (l1Get nc (KeyGen.generateKey host dataType params) now c)
  | None => None
  end.

Definition l1AfterLookup dataType params (now : Z) (m : CacheManager nc sql)
  : option (L1Cache nc) :=
  match l1Cache m with
  | Some c =>
      Some (snd (l1Get nc (KeyGen.generateKey host dataType params) now c))
  | None => None
  end.

Definition l2Lookup dataType params (now : Z) (m : CacheManager nc sql)
  : option V :=
  match l2Cache m with
  | Some c =>
      fst (l2Get sql codec (KeyGen.generateKey host dataType params) now c)
  | None => None
  end.

Definition l2AfterLookup dataType params (now : Z) (m : CacheManager nc sql)
  : option (L2Cache sql) :=
  match l2Cache m with
  | Some c =>
      Some (snd (l2Get sql codec (KeyGen.generateKey host dataType params)
                   now c))
  | None => None
  end.

Lemma get_l1_hit dataType params startTime now m v :
  l1Lookup dataType params startTime m = Some v ->
  fst (get host nc sql codec dataType params startTime now m)
    = Returned (mkResult v source_l1 true now)
  /\ l2Cache (snd (get host nc sql codec dataType params startTime now m))
     = l2Cache m.
Proof.
  unfold l1Lookup, get. destruct (l1Cache m) as [c1|]; [|discriminate].
  destruct (l1Get _ _ _ _) as [v1 c1']. cbn. intros ->. now split.
Qed.

Lemma get_l2_hit dataType params startTime now m v :
  l1Lookup dataType params startTime m = None ->
  l2Lookup dataType params startTime m = Some v ->
  fst (get host nc sql codec dataType params startTime now m)
    = Returned (mkResult v source_l2 true now)
  /\ l1Cache (snd (get host nc sql codec dataType params startTime now m))
     = (fun c => snd (l1Set nc (KeyGen.generateKey host dataType params) v
                        (l1Seconds (invalidation m) dataType) startTime c))
       <$> l1AfterLookup dataType params startTime m.
Proof.
  unfold l1Lookup, l1AfterLookup, l2Lookup, get.
  destruct (l2Cache m) as [c2|]; [|intros _; discriminate].
  destruct (l2Get _ _ _ _ _) as [v2 c2'].
  destruct (l1Cache m) as [c1|].
  - destruct (l1Get _ _ _ _) as [v1 c1']. cbn. intros -> ->. now split.
  - cbn. intros _ ->. now split.
Qed.

Lemma get_miss dataType params startTime now m :
  l1Lookup dataType params startTime m = None ->
  l2Lookup dataType params startTime m = None ->
  get host nc sql codec dataType params startTime now m
  = (Thrown cacheMiss,
     mkManager (l1AfterLookup dataType params startTime m)
       (l2AfterLookup dataType params startTime m) (invalidation m)
       (updateResponseTime startTime now
          (countError
             (updateResponseTime startTime now (countRequest (metrics m)))))).
Proof.
  unfold l1Lookup, l1AfterLookup, l2Lookup, l2AfterLookup, get.
  destruct (l1Cache m) as [c1|], (l2Cache m) as [c2|];
    repeat match goal with
           | |- context [l1Get ?a ?b ?c ?d] => destruct (l1Get a b c d)
           | |- context [l2Get ?a ?b ?c ?d ?e] => destruct (l2Get a b c d e)
           end; cbn; intros; subst; reflexivity.
Qed.

Lemma errorRate_updateResponseTime startTime now metrics0 :
  errorRate (updateResponseTime startTime now metrics0) = errorRate metrics0.
Proof. unfold updateResponseTime. now destruct (requestCount metrics0 =? 1). Qed.

End ManagerFacts.

(** C1 (as amended).  [set] writes to every enabled tier, whatever
    became of the write to the other one: each tier is left as its own
    write leaves it.  It reports success exactly when the write to every
    enabled tier succeeded: one failed write among the enabled tiers is
    enough to make it report failure, even though the other tier took
    the value. *)
Theorem set_succeeds_iff_every_tier {V} (host : KeyGen.Host)
    (nc : NodeCache V) (sql : Sqlite) (codec : Compression.Codec V)
    (threshold : Z) dataType params (v : V) startTime now
    (m : CacheManager nc sql) :
  let key := KeyGen.generateKey host dataType params in
  let out := set host nc sql codec threshold dataType params v startTime now
               m in
  (fst out = true
   <-> (l1Written host nc sql dataType params v startTime m = true
        /\ l2Written host nc sql codec threshold dataType params v startTime m
           = true))
  /\ l1Cache (snd out)
     = (fun c => snd (l1Set nc key v (l1Seconds (invalidation m) dataType)
                        startTime c))
       <$> l1Cache m
  /\ l2Cache (snd out)
     = (fun c => snd (l2Set sql codec threshold key v dataType
                        (getL2TTL (invalidation m) dataType) startTime c))
       <$> l2Cache m.
Proof.
  intros key out. split.
  - unfold out. rewrite set_result. apply andb_true_iff.
  - unfold out, key, set.
    destruct (l1Cache m) as [c1|], (l2Cache m) as [c2|]; cbn [fmap option_fmap option_map];
      repeat match goal with
             | |- context [l1Set ?a ?b ?c ?d ?e ?f] =>
                 destruct (l1Set a b c d e f)
             | |- context [l2Set ?a ?b ?c ?d ?e ?f ?g ?h ?i] =>
                 destruct (l2Set a b c d e f g h i)
             end; cbn; split; reflexivity.
Qed.

(** A manager over a one-key first tier and a table that is writable or
    not. *)
Definition sampleManager (writable : bool)
  : CacheManager (listNodeCache bool 1) (listSqlite writable) :=
  mkManager (Some (@mkL1 bool (listNodeCache bool 1) [] 0 0 0 0))
    (Some (@mkL2 (listSqlite writable) [] 0 0 0 0 0))
    (mkInvalidation 300000 ∅) (mkMetrics 0 0 0).

(** C1 as the specification states it fails: with both tiers enabled,
    the first tier takes the value (it is in its store afterwards) and
    the table refuses it, and [set] reports failure although one enabled
    tier succeeded. *)
Lemma set_partial_failure_counterexample :
  l1Written KeyGen.textHost (listNodeCache bool 1) (listSqlite false)
    "leagues" [] true 0 (sampleManager false) = true
  /\ l2Written KeyGen.textHost (listNodeCache bool 1) (listSqlite false)
       Compression.boolCodec 1024 "leagues" [] true 0 (sampleManager false)
     = false
  /\ fst (set KeyGen.textHost (listNodeCache bool 1) (listSqlite false)
            Compression.boolCodec 1024 "leagues" [] true 0 1
            (sampleManager false)) = false
  /\ l1_store (nc := listNodeCache bool 1)
       <$> l1Cache
             (snd (set KeyGen.textHost (listNodeCache bool 1)
                     (listSqlite false) Compression.boolCodec 1024 "leagues"
                     [] true 0 1 (sampleManager false)))
     = Some [("v1:leagues:", true)]
  /\ l2_db (sql := listSqlite false)
       <$> l2Cache
             (snd (set KeyGen.textHost (listNodeCache bool 1)
                     (listSqlite false) Compression.boolCodec 1024 "leagues"
                     [] true 0 1 (sampleManager false)))
     = Some ([] : list CacheRow).
Proof. vm_compute. repeat split; reflexivity. Qed.

(** C6 (as amended).  [get] looks in the first tier first and returns
    its value with source L1; when the first tier misses or is switched
    off and the second tier has the value, [get] writes it to the first
    tier with the category's L1 time to live and returns it with source
    L2; when every enabled tier misses, [get] throws the error
    [Cache miss - data needs to be fetched from source] and adds one to
    the error count, the tiers being left as the lookups left them. *)
Theorem get_fallthrough {V} (host : KeyGen.Host) (nc : NodeCache V)
    (sql : Sqlite) (codec : Compression.Codec V) dataType params
    startTime now (m : CacheManager nc sql) :
  let result := get host nc sql codec dataType params startTime now m in
  let key := KeyGen.generateKey host dataType params in
  (forall v,
      l1Lookup host nc sql dataType params startTime m = Some v ->
      fst result = Returned (mkResult v source_l1 true now)
      /\ l2Cache (snd result) = l2Cache m)
  /\ (forall v,
        l1Lookup host nc sql dataType params startTime m = None ->
        l2Lookup host nc sql codec dataType params startTime m = Some v ->
        fst result = Returned (mkResult v source_l2 true now)
        /\ l1Cache (snd result)
           = (fun c => snd (l1Set nc key v
                              (inject_Z (getTTL (invalidation m) dataType) / 1000)%Q
                              startTime c))
             <$> l1AfterLookup host nc sql dataType params startTime m)
  /\ (l1Lookup host nc sql dataType params startTime m = None ->
      l2Lookup host nc sql codec dataType params startTime m = None ->
      fst result = Thrown cacheMiss
      /\ errorRate (metrics (snd result)) = (errorRate (metrics m) + 1)%Q
      /\ l1Cache (snd result)
         = l1AfterLookup host nc sql dataType params startTime m
      /\ l2Cache (snd result)
         = l2AfterLookup host nc sql codec dataType params startTime m).
Proof.
  intros result key. split; [|split].
  - intros v. apply get_l1_hit.
  - intros v. apply get_l2_hit.
  - intros H1 H2. unfold result. rewrite (get_miss _ _ _ _ _ _ _ _ _ H1 H2).
    cbn [fst snd metrics l1Cache l2Cache].
    rewrite errorRate_updateResponseTime. cbn [countError errorRate].
    rewrite errorRate_updateResponseTime. repeat split; reflexivity.
Qed.

(** The sample manager after [set "leagues" {} true] at time 0. *)
Definition warmManager : CacheManager (listNodeCache bool 1) (listSqlite true) :=
  snd (set KeyGen.textHost (listNodeCache bool 1) (listSqlite true)
         Compression.boolCodec 1024 "leagues" [] true 0 1 (sampleManager true)).

(** The same with the first tier emptied, as after a restart. *)
Definition restartedManager
  : CacheManager (listNodeCache bool 1) (listSqlite true) :=
  mkManager (Some (@mkL1 bool (listNodeCache bool 1) [] 0 0 0 0))
    (l2Cache warmManager) (invalidation warmManager) (metrics warmManager).

Lemma get_fallthrough_witness :
  fst (get KeyGen.textHost (listNodeCache bool 1) (listSqlite true)
         Compression.boolCodec "leagues" [] 5 6 warmManager)
    = Returned (mkResult true source_l1 true 6)
  /\ (fst (get KeyGen.textHost (listNodeCache bool 1) (listSqlite true)
             Compression.boolCodec "leagues" [] 5 6 restartedManager)
        = Returned (mkResult true source_l2 true 6)
      /\ l1_store <$> l1Cache
           (snd (get KeyGen.textHost (listNodeCache bool 1) (listSqlite true)
                   Compression.boolCodec "leagues" [] 5 6 restartedManager))
         = Some [("v1:leagues:", true)]).
Proof.
  split.
  - apply (proj1 (get_fallthrough KeyGen.textHost (listNodeCache bool 1)
                    (listSqlite true) Compression.boolCodec "leagues" [] 5 6
                    warmManager) true).
    vm_compute. reflexivity.
  - destruct (proj1 (proj2 (get_fallthrough KeyGen.textHost
                    (listNodeCache bool 1) (listSqlite true)
                    Compression.boolCodec "leagues" [] 5 6 restartedManager))
                true) as [H1 H2].
    + vm_compute. reflexivity.
    + vm_compute. reflexivity.
    + split; [exact H1|]. rewrite H2. vm_compute. reflexivity.
Defined.

(** C6 as the specification states it fails on its last part: on a miss
    of both tiers [get] throws an [Error], which [getValue] has to catch,
    and counts it among the errors. *)
Lemma get_miss_is_error_counterexample :
  fst (get KeyGen.textHost (listNodeCache bool 1) (listSqlite true)
         Compression.boolCodec "leagues" [] 5 6 (sampleManager true))
    = Thrown (Error "Cache miss - data needs to be fetched from source")
  /\ errorRate (metrics (sampleManager true)) = 0%Q
  /\ errorRate (metrics
       (snd (get KeyGen.textHost (listNodeCache bool 1) (listSqlite true)
               Compression.boolCodec "leagues" [] 5 6 (sampleManager true))))
     = (0 + 1)%Q.
Proof. vm_compute. repeat split; reflexivity. Qed.

(** ** Further facts: a value written is a value read *)

Section TableFacts.
Context {V : Type}.
Variable codec : Compression.Codec V.
Variable compressionThreshold : Z.

(** No row of the table has the key. *)
Lemma other_rows_missed (key : string) (now : Z) (db : list CacheRow) :
  existsb (fun r => String.eqb (row_key r) key && (now <? row_ttl r))
    (List.filter (fun r => negb (String.eqb (row_key r) key)) db) = false.
Proof.
  induction db as [|r db IH]; [reflexivity|]. cbn.
  destruct (String.eqb (row_key r) key) eqn:Hk; cbn; [exact IH|].
  now rewrite Hk.
Qed.

(** [L2Cache.set] on a table that takes the row, then [L2Cache.get]. *)
Lemma l2Set_then_l2Get (key : string) (v : V) (dataType : string)
    (ttl t0 t1 : Z) (c : L2Cache (listSqlite true)) :
  Compression.lossless codec -> Compression.serializable codec v ->
  let written := l2Set (listSqlite true) codec compressionThreshold key v
                   dataType ttl t0 c in
  fst written = true
  /\ fst (l2Get (listSqlite true) codec key t1 (snd written))
     = if t1 <? t0 + ttl then Some v else None.
Proof.
  intros Hz Hv. cbn zeta. unfold l2Set.
  pose proof (Compression.decompress_compress codec compressionThreshold v
                Hz Hv) as Hround.
  destruct (Compression.compress codec compressionThreshold v)
    as [data flag].
  specialize (Hround data flag eq_refl).
  cbn [sqliteSet listSqlite insertOrReplace Z.ltb Z.compare fst snd l2_db
       row_key row_value data_type row_ttl created_at last_accessed
       row_compressed].
  split; [reflexivity|].
  unfold l2Get, sqliteGet.
  cbn [listSqlite touchLive selectByKey l2_db existsb row_key row_ttl
       fst snd].
  rewrite String.eqb_refl. cbn [andb].
  destruct (t1 <? t0 + ttl) eqn:Hlive.
  - cbn [orb Z.eqb map row_key row_ttl]. rewrite String.eqb_refl, Hlive.
    cbn [andb List.find row_key]. rewrite String.eqb_refl.
    cbn [row_value row_compressed].
    assert (negb ((if flag then 1 else 0) =? 0) = flag) as ->
      by now destruct flag.
    now rewrite Hround.
  - cbn [orb]. rewrite other_rows_missed. reflexivity.
Qed.

End TableFacts.

(** X11.  A value written is a value read, until it expires.  Let [set]
    write a serialisable value through a manager whose second tier is a
    table that takes the row (zlib being lossless).  Then any manager
    over the table as [set] left it, whose first tier is switched off,
    new or has lost the key, returns that value from [get] with source
    L2 and from [getValue], as long as the category's L2 time to live
    has not elapsed since the write; from then on the row is not read
    any more, and with no first tier [getValue] gives [undefined]. *)
Theorem set_then_get_from_l2 {V} (host : KeyGen.Host) (nc : NodeCache V)
    (codec : Compression.Codec V) (threshold : Z) dataType params (v : V)
    (t0 now0 t1 now1 : Z) (c : L2Cache (listSqlite true))
    (m m' : CacheManager nc (listSqlite true)) :
  Compression.lossless codec -> Compression.serializable codec v ->
  l2Cache m = Some c ->
  l2Cache m'
  = l2Cache (snd (set host nc (listSqlite true) codec threshold dataType
                    params v t0 now0 m)) ->
  l1Lookup host nc (listSqlite true) dataType params t1 m' = None ->
  (t1 < t0 + getL2TTL (invalidation m) dataType ->
   fst (get host nc (listSqlite true) codec dataType params t1 now1 m')
     = Returned (mkResult v source_l2 true now1)
   /\ fst (getValue host nc (listSqlite true) codec dataType params t1 now1 m')
      = Some v)
  /\ (t0 + getL2TTL (invalidation m) dataType <= t1 ->
      fst (get host nc (listSqlite true) codec dataType params t1 now1 m')
        = Thrown cacheMiss
      /\ fst (getValue host nc (listSqlite true) codec dataType params t1
                now1 m') = None).
Proof.
  intros Hz Hv Hc Hm' Hl1.
  assert (l2Lookup host nc (listSqlite true) codec dataType params t1 m'
          = if t1 <? t0 + getL2TTL (invalidation m) dataType
            then Some v else None) as Hl2.
  { unfold l2Lookup. rewrite Hm'. unfold set. rewrite Hc.
    destruct (l1Cache m) as [c1|].
    - destruct (l1Set _ _ _ _ _ _) as [b1 c1'].
      pose proof (l2Set_then_l2Get codec threshold
                    (KeyGen.generateKey host dataType params) v dataType
                    (getL2TTL (invalidation m) dataType) t0 t1 c Hz Hv)
        as [_ Hget].
      destruct (l2Set _ _ _ _ _ _ _ _ _) as [b2 c2']. exact Hget.
    - pose proof (l2Set_then_l2Get codec threshold
                    (KeyGen.generateKey host dataType params) v dataType
                    (getL2TTL (invalidation m) dataType) t0 t1 c Hz Hv)
        as [_ Hget].
      destruct (l2Set _ _ _ _ _ _ _ _ _) as [b2 c2']. exact Hget. }
  split; intros Ht.
  - assert ((t1 <? t0 + getL2TTL (invalidation m) dataType) = true) as Hlt
      by lia.
    rewrite Hlt in Hl2.
    destruct (get_l2_hit host nc (listSqlite true) codec dataType params
                t1 now1 m' v Hl1 Hl2) as [Hget _].
    split; [exact Hget|]. unfold getValue.
    destruct (get _ _ _ _ _ _ _ _ _) as [[r|e] m'']; cbn in *;
      [now injection Hget as ->|discriminate].
  - assert ((t1 <? t0 + getL2TTL (invalidation m) dataType) = false) as Hlt
      by lia.
    rewrite Hlt in Hl2.
    pose proof (get_miss host nc (listSqlite true) codec dataType params
                  t1 now1 m' Hl1 Hl2) as Hget.
    unfold getValue. rewrite Hget. now split.
Qed.

Lemma set_then_get_from_l2_witness :
  fst (get KeyGen.textHost (listNodeCache bool 1) (listSqlite true)
         Compression.boolCodec "leagues" [] 5 6 restartedManager)
    = Returned (mkResult true source_l2 true 6)
  /\ fst (getValue KeyGen.textHost (listNodeCache bool 1) (listSqlite true)
            Compression.boolCodec "leagues" [] 5 6 restartedManager)
     = Some true.
Proof.
  apply (proj1 (set_then_get_from_l2 KeyGen.textHost (listNodeCache bool 1)
                  Compression.boolCodec 1024 "leagues" [] true 0 1 5 6
                  (@mkL2 (listSqlite true) [] 0 0 0 0 0)
                  (sampleManager true) restartedManager
                  Compression.boolCodec_lossless eq_refl eq_refl eq_refl
                  eq_refl)).
  vm_compute. reflexivity.
Defined.

End Cache.

(* ================================================================== *)
(** * Deduplicating priority queue (src/utils/priority-queue.ts) *)
(* ================================================================== *)
Module PQueue.

Inductive Priority := HIGH | MEDIUM | LOW.

(** The numbers of the [enum]. *)
Definition rank (p : Priority) : Z :=
  match p with HIGH => 0 | MEDIUM => 1 | LOW => 2 end.

#[local] Instance Priority_eq_dec : EqDecision Priority.
Proof. solve_decision. Defined.

Record PriorityQueueConfig := mkConfig {
  maxSize : Z;
  deduplicationWindowMs : Z
}.

(** The constructor's defaults. *)
Definition defaultConfig : PriorityQueueConfig := mkConfig 100 60000.

Record Stats := mkStats {
  duplicatesPrevented : Z;
  totalProcessed : Z;
  totalWaitTime : Z
}.

Section Queue.
(** The payloads, their normal form, and the digest of a normal form
    ([JSON.stringify] followed by SHA-256, in hexadecimal). *)
Context {T N : Type}.
Variable normalizeData : T -> N.
Variable digest : N -> string.
(** The shallow copy [{...data}] that [retry] makes of a payload. *)
Variable spread : T -> T.
Variable cfg : PriorityQueueConfig.

(** A queue item.  The same JavaScript object sits in a queue and in the
    deduplication map, and its [priority] and [retryCount] are assigned
    in place: [oid] tells the objects apart, and an assignment is made to
    every copy of the object. *)
Record QueueItem := mkItem {
  oid : nat;
  id : string;
  priority : Priority;
  data : T;
  hash : string;
  timestamp : Z;
  retryCount : Z
}.

(** The three queues in the order of the [Map], the deduplication map,
    the statistics, the time-outs set by [dequeue] that have not fired
    (when each is due, and for which item), and the next free [oid]. *)
Record PriorityQueue := mkQueue {
  high : list QueueItem;
  medium : list QueueItem;
  low : list QueueItem;
  deduplicationMap : gmap string QueueItem;
  stats : Stats;
  timers : list (Z * QueueItem);
  nextOid : nat
}.

Definition create : PriorityQueue :=
  mkQueue [] [] [] ∅ (mkStats 0 0 0) [] 0.

Definition generateHash (d : T) : string := digest (normalizeData d).

Definition queueOf (p : Priority) (q : PriorityQueue) : list QueueItem :=
  match p with HIGH => high q | MEDIUM => medium q | LOW => low q end.

Definition setQueue (p : Priority) (items : list QueueItem)
    (q : PriorityQueue) : PriorityQueue :=
  match p with
  | HIGH => mkQueue items (medium q) (low q) (deduplicationMap q) (stats q)
              (timers q) (nextOid q)
  | MEDIUM => mkQueue (high q) items (low q) (deduplicationMap q) (stats q)
                (timers q) (nextOid q)
  | LOW => mkQueue (high q) (medium q) items (deduplicationMap q) (stats q)
             (timers q) (nextOid q)
  end.

Definition setMap (m : gmap string QueueItem) (q : PriorityQueue)
  : PriorityQueue :=
  mkQueue (high q) (medium q) (low q) m (stats q) (timers q) (nextOid q).

(** All queued items, highest tier first. *)
Definition allItems (q : PriorityQueue) : list QueueItem :=
  high q ++ medium q ++ low q.

Definition size (q : PriorityQueue) : Z := Z.of_nat (length (allItems q)).

Definition isEmpty (q : PriorityQueue) : bool := size q =? 0.

(** [findIndex] by id followed by [splice]: the first item with the id
    and the queue without it. *)
Fixpoint extract (wanted : string) (items : list QueueItem)
  : option (QueueItem * list QueueItem) :=
  match items with
  | [] => None
  | item :: rest =>
      if String.eqb (id item) wanted then Some (item, rest)
      else match extract wanted rest with
           | Some (found, rest') => Some (found, item :: rest')
           | None => None
           end
  end.

Definition withPriority (p : Priority) (item : QueueItem) : QueueItem :=
  mkItem (oid item) (id item) p (data item) (hash item) (timestamp item)
    (retryCount item).

Definition withRetryCount (n : Z) (item : QueueItem) : QueueItem :=
  mkItem (oid item) (id item) (priority item) (data item) (hash item)
    (timestamp item) n.

(** An assignment to a field of object [o], seen through every copy. *)
Definition assign (o : nat) (f : QueueItem -> QueueItem) (item : QueueItem)
  : QueueItem :=
  if decide (oid item = o) then f item else item.

Definition assignEverywhere (o : nat) (f : QueueItem -> QueueItem)
    (q : PriorityQueue) : PriorityQueue :=
  mkQueue (assign o f <$> high q) (assign o f <$> medium q)
    (assign o f <$> low q) (assign o f <$> deduplicationMap q) (stats q)
    (map (fun t => (fst t, assign o f (snd t))) (timers q)) (nextOid q).

(** [updatePriority]: the first queue, in the order of the [Map], that
    holds an item with the id gives it up; the item takes its new
    priority and goes to the end of the queue of that priority. *)
Definition moveFrom (p : Priority) (wanted : string) (newPriority : Priority)
    (q : PriorityQueue) : option PriorityQueue :=
  match extract wanted (queueOf p q) with
  | Some (item, rest) =>
      let q1 := setQueue p rest q in
      let q2 := assignEverywhere (oid item) (withPriority newPriority) q1 in
      Some (setQueue newPriority
              (queueOf newPriority q2 ++ [withPriority newPriority item]) q2)
  | None => None
  end.

Definition updatePriority (wanted : string) (newPriority : Priority)
    (q : PriorityQueue) : bool * PriorityQueue :=
  match moveFrom HIGH wanted newPriority q with
  | Some q' => (true, q')
  | None =>
      match moveFrom MEDIUM wanted newPriority q with
      | Some q' => (true, q')
      | None =>
          match moveFrom LOW wanted newPriority q with
          | Some q' => (true, q')
          | None => (false, q)
          end
      end
  end.

Definition countDuplicate (q : PriorityQueue) : PriorityQueue :=
  mkQueue (high q) (medium q) (low q) (deduplicationMap q)
    (mkStats (duplicatesPrevented (stats q) + 1) (totalProcessed (stats q))
       (totalWaitTime (stats q)))
    (timers q) (nextOid q).

(** [enqueue]; [newId] is what [crypto.randomBytes] draws and [now] the
    time of the call. *)
Definition enqueue (d : T) (p : Priority) (newId : string) (now : Z)
    (q : PriorityQueue) : option string * PriorityQueue :=
  let h := generateHash d in
  match deduplicationMap q !! h with
  | Some existing =>
      (* Check for duplicates *)
      let q1 := countDuplicate q in
      let q2 := if rank p <? rank (priority existing)
                then snd (updatePriority (id existing) p q1) else q1 in
      (Some (id existing), q2)
  | None =>
      (* Check queue size limit *)
      if maxSize cfg <=? size q then (None, q)
      else
        let item := mkItem (nextOid q) newId p d h now 0 in
        let q1 := setQueue p (queueOf p q ++ [item]) q in
        (Some newId,
         mkQueue (high q1) (medium q1) (low q1)
           (<[h := item]> (deduplicationMap q1)) (stats q1) (timers q1)
           (S (nextOid q1)))
  end.

(** What [dequeue] does with the item it took from the queue of
    priority [p]. *)
Definition took (p : Priority) (item : QueueItem) (rest : list QueueItem)
    (now : Z) (q : PriorityQueue) : option QueueItem * PriorityQueue :=
  let q1 := setQueue p rest q in
  (Some item,
   mkQueue (high q1) (medium q1) (low q1) (deduplicationMap q1)
     (mkStats (duplicatesPrevented (stats q1)) (totalProcessed (stats q1) + 1)
        (totalWaitTime (stats q1) + (now - timestamp item)))
     (timers q1 ++ [(now + deduplicationWindowMs cfg, item)]) (nextOid q1)).

Definition dequeue (now : Z) (q : PriorityQueue)
  : option QueueItem * PriorityQueue :=
  match high q, medium q, low q with
  | item :: rest, _, _ => took HIGH item rest now q
  | [], item :: rest, _ => took MEDIUM item rest now q
  | [], [], item :: rest => took LOW item rest now q
  | [], [], [] => (None, q)
  end.

Definition peek (q : PriorityQueue) : option QueueItem :=
  head (allItems q).

(** The callback [dequeue] hands to [setTimeout]: the hash is released
    if the map still holds this very item under it. *)
Definition release (item : QueueItem) (q : PriorityQueue) : PriorityQueue :=
  match deduplicationMap q !! hash item with
  | Some held =>
      if decide (oid held = oid item)
      then setMap (delete (hash item) (deduplicationMap q)) q
      else q
  | None => q
  end.

(** The [k]-th pending time-out fires, if it is due. *)
Definition timerFires (k : nat) (now : Z) (q : PriorityQueue)
  : PriorityQueue :=
  match timers q !! k with
  | Some (due, item) =>
      if due <=? now then
        release item
          (mkQueue (high q) (medium q) (low q) (deduplicationMap q) (stats q)
             (take k (timers q) ++ drop (S k) (timers q)) (nextOid q))
      else q
  | None => q
  end.

Definition clear (q : PriorityQueue) : PriorityQueue :=
  mkQueue [] [] [] ∅ (stats q) (timers q) (nextOid q).

(** [remove]: like [updatePriority], queue by queue. *)
Definition removeFrom (p : Priority) (wanted : string) (q : PriorityQueue)
  : option PriorityQueue :=
  match extract wanted (queueOf p q) with
  | Some (item, rest) =>
      let q1 := setQueue p rest q in
      Some (setMap (delete (hash item) (deduplicationMap q1)) q1)
  | None => None
  end.

Definition remove (wanted : string) (q : PriorityQueue)
  : bool * PriorityQueue :=
  match removeFrom HIGH wanted q with
  | Some q' => (true, q')
  | None =>
      match removeFrom MEDIUM wanted q with
      | Some q' => (true, q')
      | None =>
          match removeFrom LOW wanted q with
          | Some q' => (true, q')
          | None => (false, q)
          end
      end
  end.

(** [cleanup]: the hashes of items that are in no queue and older than
    the window are released. *)
Definition cleanup (now : Z) (q : PriorityQueue) : PriorityQueue :=
  setMap
    (filter (fun entry =>
               ~ (~ (fst entry ∈ hash <$> allItems q)
                  /\ deduplicationWindowMs cfg < now - timestamp (snd entry)))
            (deduplicationMap q))
    q.

(** [retry]: the hash of the failed item is released, a copy of its
    payload is enqueued one tier lower, and the item now held under the
    hash of the copy gets the retry count. *)
Definition lower (p : Priority) : Priority :=
  match p with HIGH => MEDIUM | MEDIUM => LOW | LOW => LOW end.

Definition retry (item : QueueItem) (newId : string) (now : Z)
    (q : PriorityQueue) : option string * PriorityQueue :=
  let newPriority := lower (priority item) in
  let retryItem := spread (data item) in
  let q1 := setMap (delete (hash item) (deduplicationMap q)) q in
  let '(result, q2) := enqueue retryItem newPriority newId now q1 in
  match result, deduplicationMap q2 !! generateHash retryItem with
  | Some _, Some newItem =>
      (result,
       assignEverywhere (oid newItem)
         (withRetryCount (retryCount item + 1)) q2)
  | _, _ => (result, q2)
  end.

(** ** Histories of the queue *)

Inductive Op :=
| DoEnqueue (d : T) (p : Priority) (newId : string) (now : Z)
| DoDequeue (now : Z)
| DoUpdatePriority (wanted : string) (p : Priority)
| DoRemove (wanted : string)
| DoClear
| DoCleanup (now : Z)
| DoTimer (k : nat) (now : Z).

Definition applyOp (q : PriorityQueue) (op : Op) : PriorityQueue :=
  match op with
  | DoEnqueue d p newId now => snd (enqueue d p newId now q)
  | DoDequeue now => snd (dequeue now q)
  | DoUpdatePriority wanted p => snd (updatePriority wanted p q)
  | DoRemove wanted => snd (remove wanted q)
  | DoClear => clear q
  | DoCleanup now => cleanup now q
  | DoTimer k now => timerFires k now q
  end.

(** The queue after a history of calls and time-outs on a new queue. *)
Definition after (history : list Op) : PriorityQueue :=
  foldl applyOp create history.

(** How many queued items carry the hash [h]. *)
Definition queuedWith (h : string) (q : PriorityQueue) : nat :=
  length (filter (fun item => hash item = h) (allItems q)).

End Queue.

(** ** Facts about the queue *)

Section QueueFacts.
Context {T N : Type}.
Variable normalizeData : T -> N.
Variable digest : N -> string.
Variable cfg : PriorityQueueConfig.

(** What tells a queued item apart and what it is filed under. *)
Definition keyOf (item : QueueItem (T := T)) : nat * string :=
  (oid item, hash item).

Definition keys (q : PriorityQueue (T := T)) : list (nat * string) :=
  keyOf <$> allItems q.

Lemma extract_Some wanted (items : list (QueueItem (T := T))) x rest :
  extract wanted items = Some (x, rest) ->
  items ≡ₚ x :: rest /\ id x = wanted.
Proof.
  revert x rest. induction items as [|item items IH]; intros x rest; cbn;
    [discriminate|].
  destruct (String.eqb_spec (id item) wanted) as [Hid|Hid].
  - intros [= <- <-]. now split.
  - destruct (extract wanted items) as [[found rest']|]; [|discriminate].
    intros [= <- <-]. destruct (IH _ _ eq_refl) as [Hp Hi].
    split; [|exact Hi]. rewrite Hp. apply perm_swap.
Qed.

Lemma keyOf_assign_priority o p (items : list (QueueItem (T := T))) :
  keyOf <$> (assign o (withPriority p) <$> items) = keyOf <$> items.
Proof.
  rewrite <- list_fmap_compose. apply list_fmap_ext. intros i item _.
  cbn. unfold assign. now destruct (decide (oid item = o)).
Qed.

(** Moving an item between tiers keeps the queued items, up to their
    order and the priority of the one that moved. *)
Lemma moveFrom_spec p wanted newPriority (q q' : PriorityQueue (T := T)) :
  moveFrom p wanted newPriority q = Some q' ->
  exists x : QueueItem (T := T),
    keys q' ≡ₚ keys q
    /\ stats q' = stats q /\ nextOid q' = nextOid q
    /\ deduplicationMap q'
       = assign (oid x) (withPriority newPriority) <$> deduplicationMap q
    /\ timers q'
       = map (fun t => (fst t, assign (oid x) (withPriority newPriority) (snd t)))
             (timers q).
Proof.
  unfold moveFrom.
  destruct (extract wanted (queueOf p q)) as [[x rest]|] eqn:He; [|discriminate].
  intros [= <-]. exists x. apply extract_Some in He as [Hp _].
  assert (keyOf <$> queueOf p q ≡ₚ keyOf x :: (keyOf <$> rest)) as Hk
    by now rewrite Hp.
  unfold keys, allItems.
  destruct p, newPriority; cbn in *;
    rewrite ?fmap_app, ?keyOf_assign_priority, ?Hk; cbn;
    (split; [unfold keyOf at 1; cbn; fold (keyOf x); solve_Permutation|]);
    repeat split; reflexivity.
Qed.

Lemma updatePriority_spec wanted newPriority (q : PriorityQueue (T := T)) :
  let q' := snd (updatePriority wanted newPriority q) in
  keys q' ≡ₚ keys q
  /\ stats q' = stats q /\ nextOid q' = nextOid q
  /\ exists f : QueueItem -> QueueItem,
       (forall item, oid (f item) = oid item /\ hash (f item) = hash item
                     /\ id (f item) = id item)
       /\ deduplicationMap q' = f <$> deduplicationMap q
       /\ timers q' = map (fun t => (fst t, f (snd t))) (timers q).
Proof.
  assert (forall o (item : QueueItem (T := T)),
             oid (assign o (withPriority newPriority) item) = oid item
             /\ hash (assign o (withPriority newPriority) item) = hash item
             /\ id (assign o (withPriority newPriority) item) = id item) as Hf.
  { intros o item. unfold assign. now destruct (decide (oid item = o)). }
  unfold updatePriority.
  destruct (moveFrom HIGH wanted newPriority q) as [q1|] eqn:H1;
    [|destruct (moveFrom MEDIUM wanted newPriority q) as [q2|] eqn:H2;
      [|destruct (moveFrom LOW wanted newPriority q) as [q3|] eqn:H3]];
    cbn [snd];
    try (match goal with H : moveFrom _ _ _ _ = Some _ |- _ =>
           apply moveFrom_spec in H as (x & Hk & Hs & Hn & Hm & Ht) end;
         repeat split; try assumption;
         exists (assign (oid x) (withPriority newPriority)); auto).
  repeat split; try reflexivity. exists (fun item => item).
  split; [auto|]. split.
  - now rewrite map_fmap_id.
  - rewrite <- (map_id (timers q)) at 1. apply map_ext. now intros [].
Qed.

Lemma size_keys (q : PriorityQueue (T := T)) :
  size q = Z.of_nat (length (keys q)).
Proof. unfold size, keys. now rewrite length_fmap. Qed.

(** The three ways [enqueue] can go. *)
Lemma enqueue_duplicate d p newId now (q : PriorityQueue (T := T)) existing :
  deduplicationMap q !! generateHash normalizeData digest d = Some existing ->
  let q' := snd (enqueue normalizeData digest cfg d p newId now q) in
  fst (enqueue normalizeData digest cfg d p newId now q) = Some (id existing)
  /\ keys q' ≡ₚ keys q
  /\ duplicatesPrevented (stats q') = duplicatesPrevented (stats q) + 1
  /\ nextOid q' = nextOid q
  /\ exists f : QueueItem -> QueueItem,
       (forall item, oid (f item) = oid item /\ hash (f item) = hash item
                     /\ id (f item) = id item)
       /\ deduplicationMap q' = f <$> deduplicationMap q
       /\ timers q' = map (fun t => (fst t, f (snd t))) (timers q).
Proof.
  intros Hd. unfold enqueue. rewrite Hd. cbn [fst snd].
  split; [reflexivity|].
  destruct (rank p <? rank (priority existing)).
  - destruct (updatePriority_spec (id existing) p (countDuplicate q))
      as (Hk & Hs & Hn & f & Hf & Hm & Ht).
    rewrite Hs. repeat split; try assumption. now exists f.
  - repeat split; try reflexivity. exists (fun item => item).
    split; [auto|]. split.
    + cbn. now rewrite map_fmap_id.
    + cbn. rewrite <- (map_id (timers q)) at 1. apply map_ext. now intros [].
Qed.

Lemma enqueue_fresh d p newId now (q : PriorityQueue (T := T)) :
  let h := generateHash normalizeData digest d in
  deduplicationMap q !! h = None ->
  size q < maxSize cfg ->
  let q' := snd (enqueue normalizeData digest cfg d p newId now q) in
  fst (enqueue normalizeData digest cfg d p newId now q) = Some newId
  /\ keys q' ≡ₚ (nextOid q, h) :: keys q
  /\ stats q' = stats q /\ nextOid q' = S (nextOid q)
  /\ timers q' = timers q
  /\ deduplicationMap q'
     = <[h := mkItem (nextOid q) newId p d h now 0]> (deduplicationMap q).
Proof.
  intros h Hd Hs. unfold enqueue. fold h. rewrite Hd.
  assert ((maxSize cfg <=? size q) = false) as -> by lia.
  cbn [fst snd]. split; [reflexivity|].
  unfold keys, allItems.
  destruct p; cbn; rewrite ?fmap_app; cbn;
    (split; [unfold keyOf at 2; cbn; solve_Permutation|]);
    repeat split; reflexivity.
Qed.

Lemma enqueue_full d p newId now (q : PriorityQueue (T := T)) :
  deduplicationMap q !! generateHash normalizeData digest d = None ->
  maxSize cfg <= size q ->
  enqueue normalizeData digest cfg d p newId now q = (None, q).
Proof.
  intros Hd Hs. unfold enqueue. rewrite Hd.
  now assert ((maxSize cfg <=? size q) = true) as -> by lia.
Qed.

End QueueFacts.

(** C10.  The duplicate check comes before the capacity check: a
    payload whose hash is in the deduplication map gets the id of the item
    held there, however full the queue is; [enqueue] returns [null] only
    for a payload that is no duplicate when the queue is full, and then
    the queue is as it was. *)
Theorem enqueue_duplicate_before_capacity {T N} (normalizeData : T -> N)
    (digest : N -> string) (cfg : PriorityQueueConfig)
    (d : T) (p : Priority) (newId : string) (now : Z)
    (q : PriorityQueue (T := T)) :
  (forall existing,
      deduplicationMap q !! generateHash normalizeData digest d = Some existing ->
      fst (enqueue normalizeData digest cfg d p newId now q)
      = Some (id existing))
  /\ (fst (enqueue normalizeData digest cfg d p newId now q) = None
      <-> (deduplicationMap q !! generateHash normalizeData digest d = None
           /\ maxSize cfg <= size q))
  /\ (fst (enqueue normalizeData digest cfg d p newId now q) = None ->
      snd (enqueue normalizeData digest cfg d p newId now q) = q).
Proof.
  split; [|split].
  - intros existing Hd. now apply enqueue_duplicate.
  - split.
    + intros Hnone.
      destruct (deduplicationMap q !! generateHash normalizeData digest d)
        as [existing|] eqn:Hd.
      * pose proof (enqueue_duplicate normalizeData digest cfg d p newId now q
                      existing Hd) as [Hr _]. congruence.
      * split; [reflexivity|].
        destruct (Z_lt_le_dec (size q) (maxSize cfg)) as [Hlt|Hle];
          [|exact Hle].
        pose proof (enqueue_fresh normalizeData digest cfg d p newId now q
                      Hd Hlt) as [Hr _]. congruence.
    + intros [Hd Hs]. now rewrite enqueue_full.
  - intros Hnone.
    destruct (deduplicationMap q !! generateHash normalizeData digest d)
      as [existing|] eqn:Hd.
    + pose proof (enqueue_duplicate normalizeData digest cfg d p newId now q
                    existing Hd) as [Hr _]. congruence.
    + destruct (Z_lt_le_dec (size q) (maxSize cfg)) as [Hlt|Hle].
      * pose proof (enqueue_fresh normalizeData digest cfg d p newId now q
                      Hd Hlt) as [Hr _]. congruence.
      * now rewrite enqueue_full.
Qed.

(** A queue for one item whose payloads are strings, normalised and
    hashed to themselves. *)
Definition tinyConfig : PriorityQueueConfig := mkConfig 1 60000.

Definition tinyQueue : PriorityQueue (T := string) :=
  snd (enqueue (fun d => d) (fun n => n) tinyConfig "a" LOW "id-1" 10 create).

Lemma enqueue_duplicate_before_capacity_witness :
  size tinyQueue = maxSize tinyConfig
  /\ fst (enqueue (fun d => d) (fun n => n) tinyConfig "a" HIGH "id-2" 20
            tinyQueue) = Some "id-1"
  /\ enqueue (fun d => d) (fun n => n) tinyConfig "b" HIGH "id-3" 30 tinyQueue
     = (None, tinyQueue).
Proof.
  pose proof (enqueue_duplicate_before_capacity (fun d : string => d)
                (fun n => n) tinyConfig "a" HIGH "id-2" 20 tinyQueue)
    as (Hdup & _ & _).
  pose proof (enqueue_duplicate_before_capacity (fun d : string => d)
                (fun n => n) tinyConfig "b" HIGH "id-3" 30 tinyQueue)
    as (_ & Hnull & Hsame).
  split; [reflexivity|]. split.
  - apply (Hdup (mkItem 0 "id-1" LOW "a" "a" 10 0)). reflexivity.
  - assert (fst (enqueue (fun d : string => d) (fun n => n) tinyConfig "b"
                   HIGH "id-3" 30 tinyQueue) = None) as Hn.
    { apply Hnull. split; [reflexivity|]. vm_compute. discriminate. }
    rewrite (surjective_pairing (enqueue _ _ _ _ _ _ _ _)).
    now rewrite Hn, (Hsame Hn).
Defined.

(** ** The invariant of the queue *)

Section QueueInvariant.
Context {T N : Type}.
Variable normalizeData : T -> N.
Variable digest : N -> string.
Variable cfg : PriorityQueueConfig.

(** Every queued item is the one the deduplication map holds under its
    hash; no two queued items share a hash or are the same object; an
    item whose time-out is pending is not queued; and the objects made so
    far are numbered below [nextOid]. *)
Definition wf (q : PriorityQueue (T := T)) : Prop :=
  (forall o h, (o, h) ∈ keys q ->
     exists held, deduplicationMap q !! h = Some held /\ oid held = o)
  /\ NoDup (keys q).*2
  /\ NoDup (keys q).*1
  /\ (forall t, t ∈ timers q -> oid (snd t) ∉ (keys q).*1)
  /\ (forall o h, (o, h) ∈ keys q -> (o < nextOid q)%nat)
  /\ (forall t, t ∈ timers q -> (oid (snd t) < nextOid q)%nat).

Lemma wf_create : wf create.
Proof.
  unfold wf, keys. cbn. repeat split; try constructor;
    intros; exfalso; eapply not_elem_of_nil; eauto.
Qed.

(** The invariant goes along with a reordering of the queues and an
    assignment that keeps identity and hash. *)
Lemma wf_transport (q q' : PriorityQueue (T := T)) (f : QueueItem -> QueueItem) :
  keys q' ≡ₚ keys q -> nextOid q' = nextOid q ->
  (forall item, oid (f item) = oid item /\ hash (f item) = hash item
                /\ id (f item) = id item) ->
  deduplicationMap q' = f <$> deduplicationMap q ->
  timers q' = map (fun t => (fst t, f (snd t))) (timers q) ->
  wf q -> wf q'.
Proof.
  intros Hk Hn Hf Hm Ht (I1 & I2 & I3 & I4 & I5 & I6).
  unfold wf. rewrite Hn, Hm, Ht. repeat split.
  - intros o h Hin. rewrite Hk in Hin.
    destruct (I1 o h Hin) as (held & Hl & Ho).
    exists (f held). rewrite lookup_fmap, Hl. split; [reflexivity|].
    now rewrite (proj1 (Hf held)).
  - now rewrite Hk.
  - now rewrite Hk.
  - intros t Hin. apply list_elem_of_fmap in Hin as ([due item] & -> & Hin).
    cbn. rewrite (proj1 (Hf item)), Hk. exact (I4 _ Hin).
  - intros o h Hin. rewrite Hk in Hin. exact (I5 o h Hin).
  - intros t Hin. apply list_elem_of_fmap in Hin as ([due item] & -> & Hin).
    cbn. rewrite (proj1 (Hf item)). exact (I6 _ Hin).
Qed.

(** Taking away a queued item, with or without the hash it is filed
    under, and possibly setting its time-out. *)
Lemma wf_take_out (q q' : PriorityQueue (T := T)) (x : QueueItem) :
  keys q ≡ₚ keyOf x :: keys q' -> nextOid q' = nextOid q ->
  (deduplicationMap q' = deduplicationMap q
   \/ deduplicationMap q' = delete (hash x) (deduplicationMap q)) ->
  (forall t, t ∈ timers q' -> t ∈ timers q \/ snd t = x) ->
  wf q -> wf q'.
Proof.
  intros Hk Hn Hm Ht (I1 & I2 & I3 & I4 & I5 & I6).
  assert (forall k, k ∈ keys q' -> k ∈ keys q) as Hsub
    by (intros k Hin; rewrite Hk; now right).
  assert (keyOf x ∈ keys q) as Hx by (rewrite Hk; now left).
  rewrite Hk in I2, I3. cbn in I2, I3.
  apply NoDup_cons in I2 as [Hx2 I2]. apply NoDup_cons in I3 as [Hx3 I3].
  unfold wf. rewrite Hn. repeat split; try assumption.
  - intros o h Hin. destruct (I1 o h (Hsub _ Hin)) as (held & Hl & Ho).
    exists held. split; [|exact Ho].
    destruct Hm as [-> | ->]; [exact Hl|].
    rewrite lookup_delete_ne; [exact Hl|].
    intros <-. apply Hx2. apply list_elem_of_fmap. now exists (o, hash x).
  - intros t Hin. destruct (Ht t Hin) as [Hold | ->].
    + intros Hin'. apply (I4 t Hold). rewrite Hk. cbn. now right.
    + exact Hx3.
  - intros o h Hin. exact (I5 o h (Hsub _ Hin)).
  - intros t Hin. destruct (Ht t Hin) as [Hold | ->].
    + exact (I6 t Hold).
    + exact (I5 (oid x) (hash x) Hx).
Qed.

Lemma wf_enqueue d p newId now (q : PriorityQueue (T := T)) :
  wf q -> wf (snd (enqueue normalizeData digest cfg d p newId now q)).
Proof.
  intros Hwf.
  destruct (deduplicationMap q !! generateHash normalizeData digest d)
    as [existing|] eqn:Hd.
  - destruct (enqueue_duplicate normalizeData digest cfg d p newId now q
                existing Hd) as (_ & Hk & _ & Hn & f & Hf & Hm & Ht).
    exact (wf_transport q _ f Hk Hn Hf Hm Ht Hwf).
  - destruct (Z_lt_le_dec (size q) (maxSize cfg)) as [Hlt|Hle];
      [|now rewrite enqueue_full].
    destruct (enqueue_fresh normalizeData digest cfg d p newId now q Hd Hlt)
      as (_ & Hk & _ & Hn & Ht & Hm).
    destruct Hwf as (I1 & I2 & I3 & I4 & I5 & I6).
    set (h := generateHash normalizeData digest d) in *.
    assert (h ∉ (keys q).*2) as Hfresh.
    { intros Hin. apply list_elem_of_fmap in Hin as ([o h'] & Hh & Hin).
      cbn in Hh. subst h'. destruct (I1 o h Hin) as (held & Hl & _).
      congruence. }
    unfold wf. rewrite Hn, Ht, Hm. repeat split.
    + intros o h' Hin. rewrite Hk in Hin.
      apply elem_of_cons in Hin as [[= -> ->]|Hin].
      * eexists. rewrite lookup_insert_eq. split; reflexivity.
      * destruct (I1 o h' Hin) as (held & Hl & Ho). exists held.
        split; [|exact Ho]. rewrite lookup_insert_ne; [exact Hl|].
        intros <-. congruence.
    + rewrite Hk. cbn. apply NoDup_cons. split; assumption.
    + rewrite Hk. cbn. apply NoDup_cons. split; [|assumption].
      intros Hin. apply list_elem_of_fmap in Hin as ([o h'] & Ho & Hin).
      cbn in Ho. subst o. specialize (I5 _ _ Hin). lia.
    + intros t Hin. rewrite Hk. cbn. intros Hin'.
      apply elem_of_cons in Hin' as [Heq|Hin'].
      * specialize (I6 t Hin). lia.
      * exact (I4 t Hin Hin').
    + intros o h' Hin. rewrite Hk in Hin.
      apply elem_of_cons in Hin as [[= -> ->]|Hin]; [lia|].
      specialize (I5 _ _ Hin). lia.
    + intros t Hin. specialize (I6 t Hin). lia.
Qed.

Lemma wf_updatePriority wanted p (q : PriorityQueue (T := T)) :
  wf q -> wf (snd (updatePriority wanted p q)).
Proof.
  intros Hwf.
  destruct (updatePriority_spec wanted p q) as (Hk & _ & Hn & f & Hf & Hm & Ht).
  exact (wf_transport q _ f Hk Hn Hf Hm Ht Hwf).
Qed.

Lemma wf_dequeue now (q : PriorityQueue (T := T)) :
  wf q -> wf (snd (dequeue cfg now q)).
Proof.
  intros Hwf. unfold dequeue.
  destruct (high q) as [|x rest] eqn:Hh;
    [destruct (medium q) as [|x rest] eqn:Hm;
      [destruct (low q) as [|x rest] eqn:Hl; [exact Hwf|]|]|];
    apply (wf_take_out q _ x); try exact Hwf; try reflexivity;
    try (left; reflexivity);
    try (unfold keys, allItems; cbn; rewrite ?Hh, ?Hm, ?Hl; reflexivity);
    cbn; intros t Hin; apply elem_of_app in Hin as [Hin|Hin];
    [now left|apply list_elem_of_singleton in Hin; subst; now right
    |now left|apply list_elem_of_singleton in Hin; subst; now right
    |now left|apply list_elem_of_singleton in Hin; subst; now right].
Qed.

Lemma removeFrom_wf p wanted (q q' : PriorityQueue (T := T)) :
  removeFrom p wanted q = Some q' -> wf q -> wf q'.
Proof.
  unfold removeFrom.
  destruct (extract wanted (queueOf p q)) as [[x rest]|] eqn:He; [|discriminate].
  intros [= <-]. apply extract_Some in He as [Hp _].
  assert (keyOf <$> queueOf p q ≡ₚ keyOf x :: (keyOf <$> rest)) as Hk
    by now rewrite Hp.
  apply (wf_take_out q _ x).
  - unfold keys, allItems.
    destruct p; cbn in *; rewrite ?fmap_app, ?Hk; solve_Permutation.
  - now destruct p.
  - right. now destruct p.
  - intros t Hin. left. now destruct p.
Qed.

Lemma wf_remove wanted (q : PriorityQueue (T := T)) :
  wf q -> wf (snd (remove wanted q)).
Proof.
  intros Hwf. unfold remove.
  destruct (removeFrom HIGH wanted q) as [q1|] eqn:H1;
    [|destruct (removeFrom MEDIUM wanted q) as [q2|] eqn:H2;
      [|destruct (removeFrom LOW wanted q) as [q3|] eqn:H3]];
    cbn [snd]; eauto using removeFrom_wf.
Qed.

Lemma wf_clear (q : PriorityQueue (T := T)) : wf q -> wf (clear q).
Proof.
  intros (I1 & I2 & I3 & I4 & I5 & I6). unfold wf, keys. cbn.
  repeat split; try constructor; try assumption;
    try (intros; exfalso; eapply not_elem_of_nil; eauto; fail).
  intros t _. apply not_elem_of_nil.
Qed.

Lemma wf_cleanup now (q : PriorityQueue (T := T)) :
  wf q -> wf (cleanup cfg now q).
Proof.
  intros (I1 & I2 & I3 & I4 & I5 & I6). unfold wf, cleanup, keys in *. cbn.
  repeat split; try assumption.
  intros o h Hin. destruct (I1 o h Hin) as (held & Hl & Ho).
  exists held. split; [|exact Ho].
  apply map_lookup_filter_Some. split; [exact Hl|]. cbn.
  intros [Hnot _]. apply Hnot.
  apply list_elem_of_fmap in Hin as (item & [= -> ->] & Hin).
  apply list_elem_of_fmap. now exists item.
Qed.

Lemma wf_timerFires k now (q : PriorityQueue (T := T)) :
  wf q -> wf (timerFires k now q).
Proof.
  intros Hwf. unfold timerFires.
  destruct (timers q !! k) as [[due item]|] eqn:Hk; [|exact Hwf].
  destruct (due <=? now); [|exact Hwf].
  destruct Hwf as (I1 & I2 & I3 & I4 & I5 & I6).
  assert (forall t, t ∈ take k (timers q) ++ drop (S k) (timers q) ->
                    t ∈ timers q) as Hsub.
  { intros t Hin. rewrite <- (take_drop_middle _ _ _ Hk).
    apply elem_of_app in Hin as [Hin|Hin]; apply elem_of_app;
      [now left|right; now right]. }
  assert ((due, item) ∈ timers q) as Hitem
    by (apply list_elem_of_lookup; eauto).
  unfold release. cbn [deduplicationMap].
  destruct (deduplicationMap q !! hash item) as [held|] eqn:Hh;
    [destruct (decide (oid held = oid item)) as [Ho|Ho]|];
    unfold wf, keys in *; cbn; repeat split; auto.
  intros o h Hin. destruct (I1 o h Hin) as (held' & Hl & Ho').
  exists held'. split; [|exact Ho'].
  rewrite lookup_delete_ne; [exact Hl|].
  intros <-. rewrite Hh in Hl. injection Hl as <-.
  apply (I4 _ Hitem). cbn. rewrite <- Ho, Ho'.
  apply list_elem_of_fmap. now exists (o, hash item).
Qed.

Lemma wf_applyOp (q : PriorityQueue (T := T)) op :
  wf q -> wf (applyOp normalizeData digest cfg q op).
Proof.
  destruct op; cbn [applyOp];
    auto using wf_enqueue, wf_dequeue, wf_updatePriority, wf_remove,
               wf_clear, wf_cleanup, wf_timerFires.
Qed.

(** Every queue that calls and time-outs make of a new queue satisfies
    the invariant. *)
Lemma wf_after history : wf (after normalizeData digest cfg history).
Proof.
  unfold after. generalize wf_create.
  generalize (create (T := T)).
  induction history as [|op history IH]; intros q Hq; [exact Hq|].
  cbn [foldl]. apply IH. now apply wf_applyOp.
Qed.

Lemma queuedWith_keys h (q : PriorityQueue (T := T)) :
  queuedWith h q = length (filter (fun k => snd k = h) (keys q)).
Proof.
  unfold queuedWith, keys. induction (allItems q) as [|item items IH];
    [reflexivity|].
  cbn [fmap list_fmap]. rewrite !filter_cons. cbn [keyOf snd].
  destruct (decide (hash item = h)); cbn [length]; now rewrite IH.
Qed.

Lemma queuedWith_unreserved h (q : PriorityQueue (T := T)) :
  wf q -> deduplicationMap q !! h = None -> queuedWith h q = 0%nat.
Proof.
  intros (I1 & _) Hd. rewrite queuedWith_keys.
  induction (keys q) as [|[o h'] ks IH]; [reflexivity|].
  rewrite filter_cons. cbn [snd].
  destruct (decide (h' = h)) as [->|Hne].
  - destruct (I1 o h) as (held & Hl & _); [now left|]. congruence.
  - apply IH. intros o' h'' Hin. apply I1. now right.
Qed.

End QueueInvariant.

(** C5.  When a first [enqueue] creates an item (its payload is no
    duplicate and the queue has room), a second [enqueue] with a payload
    of the same normal form returns the id of that item and adds one to
    [duplicatesPrevented]; the two calls add one entry to the queue, and
    in a queue made by calls and time-outs from a new one that entry is
    the only one filed under the payload's hash. *)
Theorem enqueue_twice_collapses {T N} (normalizeData : T -> N)
    (digest : N -> string) (cfg : PriorityQueueConfig)
    (q : PriorityQueue (T := T)) (d1 d2 : T) (p1 p2 : Priority)
    (id1 id2 : string) (t1 t2 : Z) :
  deduplicationMap q !! generateHash normalizeData digest d1 = None ->
  size q < maxSize cfg ->
  normalizeData d1 = normalizeData d2 ->
  let first := enqueue normalizeData digest cfg d1 p1 id1 t1 q in
  let second := enqueue normalizeData digest cfg d2 p2 id2 t2 (snd first) in
  fst first = Some id1
  /\ fst second = Some id1
  /\ duplicatesPrevented (stats (snd second))
     = duplicatesPrevented (stats (snd first)) + 1
  /\ size (snd second) = size q + 1
  /\ ((exists history, q = after normalizeData digest cfg history) ->
      queuedWith (generateHash normalizeData digest d1) (snd second) = 1%nat).
Proof.
  intros Hd Hs Hnorm first second.
  destruct (enqueue_fresh normalizeData digest cfg d1 p1 id1 t1 q Hd Hs)
    as (Hr1 & Hk1 & _ & _ & _ & Hm1).
  fold first in Hr1, Hk1, Hm1.
  set (h := generateHash normalizeData digest d1) in *.
  assert (generateHash normalizeData digest d2 = h) as Hh
    by (unfold h, generateHash; now rewrite Hnorm).
  assert (deduplicationMap (snd first) !! generateHash normalizeData digest d2
          = Some (mkItem (nextOid q) id1 p1 d1 h t1 0)) as Hd2
    by (rewrite Hh, Hm1; apply lookup_insert_eq).
  destruct (enqueue_duplicate normalizeData digest cfg d2 p2 id2 t2
              (snd first) _ Hd2) as (Hr2 & Hk2 & Hdup & _).
  fold second in Hr2, Hk2, Hdup.
  split; [exact Hr1|]. split; [exact Hr2|]. split; [exact Hdup|].
  split.
  - rewrite !size_keys, Hk2, Hk1. cbn [length]. lia.
  - intros [history ->].
    pose proof (queuedWith_unreserved h _
                  (wf_after normalizeData digest cfg history) Hd) as H0.
    rewrite queuedWith_keys in *. rewrite Hk2, Hk1, filter_cons. cbn [snd].
    rewrite decide_True by reflexivity. cbn [length]. now rewrite H0.
Qed.

(** A search enqueued twice on a queue that has seen some traffic: the
    second call gets the id of the first and the queue holds the search
    once. *)
Definition busyQueue : PriorityQueue (T := string) :=
  after (fun d => d) (fun n => n) defaultConfig
    [DoEnqueue "divine" LOW "id-1" 10; DoEnqueue "exalted" HIGH "id-2" 11;
     DoDequeue 12; DoEnqueue "exalted" LOW "id-3" 13; DoTimer 0%nat 70000].

Lemma enqueue_twice_collapses_witness :
  let first := enqueue (fun d => d) (fun n => n) defaultConfig
                 "chaos" MEDIUM "id-4" 70001 busyQueue in
  let second := enqueue (fun d => d) (fun n => n) defaultConfig
                  "chaos" HIGH "id-5" 70002 (snd first) in
  fst first = Some "id-4"
  /\ fst second = Some "id-4"
  /\ duplicatesPrevented (stats (snd second))
     = duplicatesPrevented (stats (snd first)) + 1
  /\ size (snd second) = size busyQueue + 1
  /\ queuedWith "chaos" (snd second) = 1%nat.
Proof.
  intros first second.
  destruct (enqueue_twice_collapses (fun d : string => d) (fun n => n)
              defaultConfig busyQueue "chaos" "chaos" MEDIUM HIGH
              "id-4" "id-5" 70001 70002)
    as (H1 & H2 & H3 & H4 & H5).
  - reflexivity.
  - reflexivity.
  - reflexivity.
  - split; [exact H1|]. split; [exact H2|]. split; [exact H3|].
    split; [exact H4|]. apply H5. now eexists.
Defined.

(** ** Further facts: capacity, order of service, reservations *)

Section QueueService.
Context {T N : Type}.
Variable normalizeData : T -> N.
Variable digest : N -> string.
Variable spread : T -> T.
Variable cfg : PriorityQueueConfig.

(** A call of [enqueue]: the payload, the priority, the id drawn and the
    time. *)
Record Request := mkEnqueueRequest {
  req_data : T;
  req_priority : Priority;
  req_id : string;
  req_time : Z
}.

Definition enqueueAll (requests : list Request) (q : PriorityQueue (T := T))
  : PriorityQueue (T := T) :=
  foldl (fun q r =>
           snd (enqueue normalizeData digest cfg (req_data r) (req_priority r)
                  (req_id r) (req_time r) q))
        q requests.

(** The consumer's loop: one [dequeue] at each of the times, until the
    queue gives [null]. *)
Fixpoint drain (times : list Z) (q : PriorityQueue (T := T))
  : list (QueueItem (T := T)) :=
  match times with
  | [] => []
  | now :: rest =>
      match dequeue cfg now q with
      | (Some item, q') => item :: drain rest q'
      | (None, _) => []
      end
  end.

(** The payloads requested with priority [p], in the order of the
    requests. *)
Definition requested (p : Priority) (requests : list Request) : list T :=
  req_data <$> filter (fun r => req_priority r = p) requests.

Lemma dequeue_spec now (q : PriorityQueue (T := T)) :
  match allItems q with
  | [] => dequeue cfg now q = (None, q)
  | x :: rest =>
      exists q',
        dequeue cfg now q = (Some x, q')
        /\ allItems q' = rest
        /\ deduplicationMap q' = deduplicationMap q
        /\ timers q' = timers q ++ [(now + deduplicationWindowMs cfg, x)]
        /\ nextOid q' = nextOid q
  end.
Proof.
  unfold dequeue, took, allItems.
  destruct (high q) as [|x1 r1] eqn:Hh;
    [destruct (medium q) as [|x2 r2] eqn:Hm;
     [destruct (low q) as [|x3 r3] eqn:Hl|]|]; cbn;
    try reflexivity;
    eexists; (split; [reflexivity|]); cbn; rewrite ?Hh, ?Hm, ?Hl;
    repeat split; reflexivity.
Qed.

Lemma removeFrom_spec p wanted (q q' : PriorityQueue (T := T)) :
  removeFrom p wanted q = Some q' ->
  exists x,
    x ∈ allItems q /\ id x = wanted
    /\ keys q ≡ₚ keyOf x :: keys q'
    /\ deduplicationMap q' = delete (hash x) (deduplicationMap q).
Proof.
  unfold removeFrom.
  destruct (extract wanted (queueOf p q)) as [[x rest]|] eqn:He; [|discriminate].
  intros [= <-]. apply extract_Some in He as [Hp Hid]. exists x.
  assert (x ∈ queueOf p q) as Hin by (rewrite Hp; left).
  assert (keyOf <$> queueOf p q ≡ₚ keyOf x :: (keyOf <$> rest)) as Hk
    by now rewrite Hp.
  split; [|split; [exact Hid|split]].
  - unfold allItems. destruct p; cbn in Hin; rewrite !elem_of_app; auto.
  - unfold keys, allItems.
    destruct p; cbn in *; rewrite ?fmap_app, ?Hk; solve_Permutation.
  - now destruct p.
Qed.

Lemma extract_None wanted (items : list (QueueItem (T := T))) :
  extract wanted items = None <-> forall x, x ∈ items -> id x <> wanted.
Proof.
  induction items as [|item items IH]; cbn.
  - split; [|reflexivity]. intros _ x Hin. now apply elem_of_nil in Hin.
  - destruct (String.eqb_spec (id item) wanted) as [Hid|Hid].
    + split; [discriminate|]. intros H. exfalso. apply (H item); [left|exact Hid].
    + destruct (extract wanted items) as [[found rest']|].
      * split; [discriminate|]. intros H. exfalso.
        assert (Some (found, rest') = None) as Hn
          by (apply IH; intros x Hin; apply H; now right).
        discriminate.
      * split; [|reflexivity]. intros _ x Hin.
        apply elem_of_cons in Hin as [->|Hin]; [exact Hid|].
        now apply (proj1 IH).
Qed.

Lemma size_applyOp (q : PriorityQueue (T := T)) op :
  size q <= Z.max 0 (maxSize cfg) ->
  size (applyOp normalizeData digest cfg q op) <= Z.max 0 (maxSize cfg).
Proof.
  intros Hq. destruct op as [d p newId now|now|wanted p|wanted| |now|k now];
    cbn [applyOp].
  - destruct (deduplicationMap q !! generateHash normalizeData digest d)
      as [existing|] eqn:Hd.
    + destruct (enqueue_duplicate normalizeData digest cfg d p newId now q _ Hd)
        as (_ & Hk & _).
      now rewrite size_keys, Hk, <- size_keys.
    + destruct (Z_lt_le_dec (size q) (maxSize cfg)) as [Hlt|Hge].
      * destruct (enqueue_fresh normalizeData digest cfg d p newId now q Hd Hlt)
          as (_ & Hk & _).
        rewrite size_keys, Hk. cbn [length]. rewrite size_keys in Hlt. lia.
      * now rewrite (enqueue_full normalizeData digest cfg d p newId now q Hd Hge).
  - pose proof (dequeue_spec now q) as Hspec. unfold size in *.
    destruct (allItems q) as [|x rest] eqn:Hall.
    + rewrite Hspec. cbn [snd]. now rewrite Hall.
    + destruct Hspec as (q' & Hdq & Hrest & _). rewrite Hdq. cbn [snd].
      rewrite Hrest. cbn [length] in Hq. lia.
  - destruct (updatePriority_spec wanted p q) as (Hk & _).
    now rewrite size_keys, Hk, <- size_keys.
  - unfold remove.
    destruct (removeFrom HIGH wanted q) as [q1|] eqn:H1;
      [|destruct (removeFrom MEDIUM wanted q) as [q2|] eqn:H2;
        [|destruct (removeFrom LOW wanted q) as [q3|] eqn:H3]];
      cbn [snd]; try exact Hq;
      match goal with H : removeFrom _ _ _ = Some _ |- _ =>
        apply removeFrom_spec in H as (x & _ & _ & Hk & _) end;
      rewrite size_keys, Hk in Hq; rewrite size_keys; cbn [length] in Hq; lia.
  - unfold size, clear, allItems. cbn. lia.
  - exact Hq.
  - unfold timerFires. destruct (timers q !! k) as [[due item]|]; [|exact Hq].
    destruct (due <=? now); [|exact Hq]. unfold release. cbn.
    destruct (deduplicationMap q !! hash item) as [held|]; [|exact Hq].
    destruct (decide (oid held = oid item)); exact Hq.
Qed.

Lemma enqueueAll_queues (requests : list Request) :
  forall q : PriorityQueue (T := T),
    Forall (fun r => deduplicationMap q
                     !! generateHash normalizeData digest (req_data r) = None)
           requests ->
    NoDup ((fun r => generateHash normalizeData digest (req_data r))
             <$> requests) ->
    size q + Z.of_nat (length requests) <= maxSize cfg ->
    forall p,
      data <$> queueOf p (enqueueAll requests q)
      = (data <$> queueOf p q) ++ requested p requests.
Proof.
  induction requests as [|r rs IH]; intros q Hnew Hnd Hsize p.
  { cbn. now rewrite app_nil_r. }
  apply Forall_cons in Hnew as [Hr Hrs].
  apply NoDup_cons in Hnd as [Hnotin Hnd].
  change (enqueueAll (r :: rs) q)
    with (enqueueAll rs
            (snd (enqueue normalizeData digest cfg (req_data r)
                    (req_priority r) (req_id r) (req_time r) q))).
  set (h := generateHash normalizeData digest (req_data r)) in *.
  set (item := mkItem (nextOid q) (req_id r) (req_priority r) (req_data r) h
                 (req_time r) 0).
  assert (exists q1,
            enqueue normalizeData digest cfg (req_data r) (req_priority r)
              (req_id r) (req_time r) q = (Some (req_id r), q1)
            /\ deduplicationMap q1 = <[h := item]> (deduplicationMap q)
            /\ (forall p', queueOf p' q1
                           = if decide (req_priority r = p')
                             then queueOf p' q ++ [item] else queueOf p' q)
            /\ size q1 = size q + 1) as (q1 & -> & Hm1 & Hq1 & Hs1).
  { unfold enqueue. fold h. rewrite Hr.
    cbn [length] in Hsize.
    assert ((maxSize cfg <=? size q) = false) as -> by lia.
    eexists. split; [reflexivity|]. fold item.
    split; [now destruct (req_priority r)|]. split.
    - intros p'. destruct (req_priority r), p'; reflexivity.
    - unfold size, allItems. destruct (req_priority r); cbn;
        rewrite !length_app; cbn; lia. }
  cbn [snd]. rewrite (IH q1).
  - rewrite Hq1. unfold requested. rewrite filter_cons.
    destruct (decide (req_priority r = p)) as [Hp|Hp].
    + rewrite fmap_app, <- app_assoc. reflexivity.
    + reflexivity.
  - apply Forall_forall. intros r' Hin.
    rewrite Forall_forall in Hrs.
    assert (generateHash normalizeData digest (req_data r') <> h) as Hne.
    { intros Heq. apply Hnotin. rewrite <- Heq.
      apply list_elem_of_fmap. now exists r'. }
    rewrite Hm1, lookup_insert_ne by congruence. now apply Hrs.
  - exact Hnd.
  - cbn [length] in Hsize. lia.
Qed.

Lemma drain_all (times : list Z) :
  forall q : PriorityQueue (T := T),
    length times = length (allItems q) -> drain times q = allItems q.
Proof.
  induction times as [|now times IH]; intros q Hlen.
  - destruct (allItems q); [reflexivity|discriminate].
  - cbn [drain]. pose proof (dequeue_spec now q) as Hspec.
    destruct (allItems q) as [|x rest]; [discriminate|].
    destruct Hspec as (q' & -> & Hrest & _).
    f_equal. rewrite <- Hrest. apply IH. rewrite Hrest.
    cbn in Hlen. lia.
Qed.

End QueueService.

Arguments req_data {T} r.
Arguments req_priority {T} r.
Arguments req_id {T} r.
Arguments req_time {T} r.

(** X15.  The queue never holds more than [maxSize] items: after any
    history of calls and time-outs on a new queue its size is at most
    [maxSize] (and 0 for a negative [maxSize]). *)
Theorem size_within_maxSize {T N} (normalizeData : T -> N)
    (digest : N -> string) (cfg : PriorityQueueConfig)
    (history : list (Op (T := T))) :
  size (after normalizeData digest cfg history) <= Z.max 0 (maxSize cfg).
Proof.
  unfold after.
  assert (size (create (T := T)) <= Z.max 0 (maxSize cfg)) as H0
    by (unfold size, create, allItems; cbn; lia).
  revert H0. generalize (create (T := T)).
  induction history as [|op history IH]; intros q Hq; [exact Hq|].
  cbn [foldl]. apply IH. now apply size_applyOp.
Qed.

(** X16.  Service is by priority, first come first served within a
    priority: when requests with pairwise different hashes that fit the
    capacity are enqueued on a new queue and the queue is then drained,
    the payloads come out as all the HIGH ones in the order of their
    requests, then the MEDIUM ones, then the LOW ones. *)
Theorem dequeue_by_priority_then_fifo {T N} (normalizeData : T -> N)
    (digest : N -> string) (cfg : PriorityQueueConfig)
    (requests : list (Request (T := T))) (times : list Z) :
  NoDup ((fun r => generateHash normalizeData digest (req_data r))
           <$> requests) ->
  Z.of_nat (length requests) <= maxSize cfg ->
  length times = length requests ->
  data <$> drain cfg times (enqueueAll normalizeData digest cfg requests create)
  = requested HIGH requests ++ requested MEDIUM requests
    ++ requested LOW requests.
Proof.
  intros Hnd Hsize Hlen.
  pose proof (enqueueAll_queues normalizeData digest cfg requests create)
    as Hq.
  assert (forall p,
            data <$> queueOf p (enqueueAll normalizeData digest cfg requests
                                  create)
            = requested p requests) as Hqueues.
  { intros p. rewrite Hq; [now destruct p|..].
    - apply Forall_forall. intros r _. apply lookup_empty.
    - exact Hnd.
    - unfold size, create, allItems. cbn. lia. }
  set (q := enqueueAll normalizeData digest cfg requests create) in *.
  assert (data <$> allItems q
          = requested HIGH requests ++ requested MEDIUM requests
            ++ requested LOW requests) as Hall.
  { unfold allItems. rewrite !fmap_app.
    now rewrite <- (Hqueues HIGH), <- (Hqueues MEDIUM), <- (Hqueues LOW). }
  rewrite drain_all; [exact Hall|].
  apply (f_equal length) in Hall.
  rewrite length_fmap, !length_app in Hall. rewrite Hall, Hlen.
  unfold requested. rewrite !length_fmap.
  clear. induction requests as [|r rs IH]; [reflexivity|].
  rewrite !filter_cons.
  destruct (decide (req_priority r = HIGH)) as [H1|H1],
    (decide (req_priority r = MEDIUM)) as [H2|H2],
    (decide (req_priority r = LOW)) as [H3|H3];
    try congruence; cbn [length]; try lia.
  destruct (req_priority r); congruence.
Qed.

Lemma dequeue_by_priority_then_fifo_witness :
  data <$> drain defaultConfig [20; 21; 22; 23]
             (enqueueAll (fun d : string => d) (fun n => n) defaultConfig
                [mkEnqueueRequest "divine" LOW "id-1" 10;
                 mkEnqueueRequest "exalted" HIGH "id-2" 11;
                 mkEnqueueRequest "chaos" MEDIUM "id-3" 12;
                 mkEnqueueRequest "mirror" HIGH "id-4" 13] create)
  = ["exalted"; "mirror"; "chaos"; "divine"].
Proof.
  apply (dequeue_by_priority_then_fifo (fun d : string => d) (fun n => n)
           defaultConfig
           [mkEnqueueRequest "divine" LOW "id-1" 10;
            mkEnqueueRequest "exalted" HIGH "id-2" 11;
            mkEnqueueRequest "chaos" MEDIUM "id-3" 12;
            mkEnqueueRequest "mirror" HIGH "id-4" 13] [20; 21; 22; 23]).
  - apply (bool_decide_unpack _). vm_compute. exact I.
  - cbn. lia.
  - reflexivity.
Defined.

(** X17.  [dequeue] hands out what [peek] shows, the first item of the
    highest tier that is not empty; both give [null] exactly when
    [isEmpty] holds, and [dequeue] takes exactly that item out of the
    queue. *)
Theorem dequeue_takes_what_peek_shows {T} (cfg : PriorityQueueConfig)
    (now : Z) (q : PriorityQueue (T := T)) :
  fst (dequeue cfg now q) = peek q
  /\ (peek q = None <-> isEmpty q = true)
  /\ allItems (snd (dequeue cfg now q)) = tail (allItems q)
  /\ size (snd (dequeue cfg now q)) = size q - (if isEmpty q then 0 else 1).
Proof.
  pose proof (dequeue_spec cfg now q) as Hspec.
  unfold peek, isEmpty, size.
  destruct (allItems q) as [|x rest] eqn:Hall.
  - rewrite Hspec. cbn. rewrite Hall. cbn. repeat split; reflexivity.
  - destruct Hspec as (q' & Hdq & Hrest & _). rewrite Hdq. cbn [fst snd].
    rewrite Hrest. cbn [head tail length].
    assert ((Z.of_nat (S (length rest)) =? 0) = false) as ->
      by (apply Z.eqb_neq; lia).
    repeat split; try discriminate. lia.
Qed.



Section QueueRemoval.
Context {T N : Type}.
Variable normalizeData : T -> N.
Variable digest : N -> string.
Variable spread : T -> T.
Variable cfg : PriorityQueueConfig.

Lemma removeFrom_None p wanted (q : PriorityQueue (T := T)) :
  removeFrom p wanted q = None ->
  forall x, x ∈ queueOf p q -> id x <> wanted.
Proof.
  unfold removeFrom.
  destruct (extract wanted (queueOf p q)) as [[x rest]|] eqn:He; [discriminate|].
  intros _. now apply extract_None.
Qed.

Lemma assign_others (o : nat) (f : QueueItem (T := T) -> QueueItem)
    (items : list (QueueItem (T := T))) :
  (forall x, x ∈ items -> oid x <> o) -> assign o f <$> items = items.
Proof.
  intros H. rewrite <- (list_fmap_id items) at 2.
  apply list_fmap_ext. intros i x Hx. unfold assign.
  rewrite decide_False; [reflexivity|].
  apply H. now apply list_elem_of_lookup_2 in Hx.
Qed.

End QueueRemoval.

(** X19.  [remove] reports whether an item with the id was queued.  If
    none was, the queue is left as it is; if one was, the queue is one
    item shorter and the hash of the removed item is free, so that its
    payload can be enqueued anew. *)
Theorem remove_frees_the_hash {T} (wanted : string)
    (q : PriorityQueue (T := T)) :
  (fst (remove wanted q) = true
   <-> exists x, x ∈ allItems q /\ id x = wanted)
  /\ (fst (remove wanted q) = false -> snd (remove wanted q) = q)
  /\ (fst (remove wanted q) = true ->
      exists x,
        x ∈ allItems q /\ id x = wanted
        /\ size (snd (remove wanted q)) = size q - 1
        /\ deduplicationMap (snd (remove wanted q)) !! hash x = None).
Proof.
  assert (forall p q', removeFrom p wanted q = Some q' ->
            exists x,
              x ∈ allItems q /\ id x = wanted
              /\ size q' = size q - 1
              /\ deduplicationMap q' !! hash x = None) as Hsome.
  { intros p q' H. apply removeFrom_spec in H as (x & Hin & Hid & Hk & Hm).
    exists x. repeat split; try assumption.
    - rewrite !size_keys, Hk. cbn [length]. lia.
    - rewrite Hm. apply lookup_delete_eq. }
  unfold remove.
  destruct (removeFrom HIGH wanted q) as [q1|] eqn:H1;
    [|destruct (removeFrom MEDIUM wanted q) as [q2|] eqn:H2;
      [|destruct (removeFrom LOW wanted q) as [q3|] eqn:H3]];
    cbn [fst snd].
  - destruct (Hsome _ _ H1) as (x & Hin & Hid & Hrest).
    split; [split; eauto|]. split; [discriminate|]. intros _. eauto.
  - destruct (Hsome _ _ H2) as (x & Hin & Hid & Hrest).
    split; [split; eauto|]. split; [discriminate|]. intros _. eauto.
  - destruct (Hsome _ _ H3) as (x & Hin & Hid & Hrest).
    split; [split; eauto|]. split; [discriminate|]. intros _. eauto.
  - split; [|split; [reflexivity|discriminate]].
    split; [discriminate|]. intros (x & Hin & Hid). exfalso.
    unfold allItems in Hin. rewrite !elem_of_app in Hin.
    destruct Hin as [Hin|[Hin|Hin]].
    + exact (removeFrom_None HIGH wanted q H1 x Hin Hid).
    + exact (removeFrom_None MEDIUM wanted q H2 x Hin Hid).
    + exact (removeFrom_None LOW wanted q H3 x Hin Hid).
Qed.

(** X20.  [retry] queues a failed item again one tier lower.  After any
    history on a new queue that is not full, for an item whose copied
    payload hashes as the item does, [retry] returns the new id and puts
    at the end of the tier below the item's (LOW staying LOW) a new item
    with the copied payload and one retry more, held in the
    deduplication map under the hash; the other tiers are untouched. *)
Theorem retry_requeues_one_tier_lower {T N} (normalizeData : T -> N)
    (digest : N -> string) (spread : T -> T) (cfg : PriorityQueueConfig)
    (history : list (Op (T := T))) (item : QueueItem (T := T))
    (newId : string) (now : Z) :
  let q := after normalizeData digest cfg history in
  let q' := snd (retry normalizeData digest spread cfg item newId now q) in
  let retried :=
    mkItem (nextOid q) newId (lower (priority item)) (spread (data item))
      (hash item) now (retryCount item + 1) in
  generateHash normalizeData digest (spread (data item)) = hash item ->
  size q < maxSize cfg ->
  fst (retry normalizeData digest spread cfg item newId now q) = Some newId
  /\ rank (priority item) <= rank (lower (priority item))
  /\ queueOf (lower (priority item)) q'
     = queueOf (lower (priority item)) q ++ [retried]
  /\ (forall p, p <> lower (priority item) -> queueOf p q' = queueOf p q)
  /\ deduplicationMap q' !! hash item = Some retried.
Proof.
  intros q q' retried Hhash Hsize.
  pose proof (wf_after normalizeData digest cfg history)
    as (_ & _ & _ & _ & I5 & _).
  fold q in I5.
  assert (forall p x, x ∈ queueOf p q -> oid x <> nextOid q) as Hold.
  { intros p x Hin.
    assert ((oid x, hash x) ∈ keys q) as Hk.
    { unfold keys. apply list_elem_of_fmap. exists x. split; [reflexivity|].
      unfold allItems. rewrite !elem_of_app. destruct p; cbn in Hin; auto. }
    specialize (I5 _ _ Hk). lia. }
  unfold q', retry, enqueue. cbn [deduplicationMap setMap].
  rewrite Hhash, lookup_delete_eq.
  assert (size (setMap (delete (hash item) (deduplicationMap q)) q) = size q)
    as -> by reflexivity.
  assert ((maxSize cfg <=? size q) = false) as -> by lia.
  cbn [deduplicationMap]. rewrite lookup_insert_eq. cbn [fst snd oid].
  split; [reflexivity|]. split; [destruct (priority item); cbn; lia|].
  unfold assignEverywhere.
  cbn [high medium low deduplicationMap stats timers nextOid setQueue setMap
       queueOf].
  assert (assign (nextOid q)
            (withRetryCount (retryCount item + 1))
            (mkItem (nextOid q) newId (lower (priority item))
               (spread (data item)) (hash item) now 0) = retried) as Hnew.
  { unfold assign. cbn [oid]. rewrite decide_True by reflexivity.
    reflexivity. }
  split; [|split].
  - destruct (lower (priority item));
      cbn [high medium low setQueue setMap queueOf];
      rewrite fmap_app; cbn [fmap list_fmap]; rewrite Hnew; f_equal.
    + apply assign_others, (Hold HIGH).
    + apply assign_others, (Hold MEDIUM).
    + apply assign_others, (Hold LOW).
  - intros p Hp.
    destruct (lower (priority item)), p; try congruence;
      cbn [high medium low setQueue setMap queueOf];
      first [apply assign_others, (Hold HIGH)
            |apply assign_others, (Hold MEDIUM)
            |apply assign_others, (Hold LOW)].
  - destruct (lower (priority item));
      cbn [high medium low deduplicationMap setQueue setMap];
      rewrite lookup_fmap, lookup_insert_eq; cbn [fmap option_fmap option_map];
      now rewrite Hnew.
Qed.

Lemma retry_requeues_one_tier_lower_witness :
  let q := after (fun d : string => d) (fun n => n) defaultConfig
             [DoEnqueue "divine" HIGH "id-1" 10; DoDequeue 12] in
  let failed := mkItem 0 "id-1" HIGH "divine" "divine" 10 0 in
  fst (retry (fun d : string => d) (fun n => n) (fun d => d) defaultConfig
         failed "id-2" 20 q) = Some "id-2"
  /\ medium (snd (retry (fun d : string => d) (fun n => n) (fun d => d)
                    defaultConfig failed "id-2" 20 q))
     = [mkItem 1 "id-2" MEDIUM "divine" "divine" 20 1].
Proof.
  intros q failed.
  destruct (retry_requeues_one_tier_lower (fun d : string => d) (fun n => n)
              (fun d => d) defaultConfig
              [DoEnqueue "divine" HIGH "id-1" 10; DoDequeue 12]
              failed "id-2" 20 eq_refl eq_refl) as (H1 & _ & H2 & _).
  split; [exact H1|exact H2].
Defined.

End PQueue.

(* ================================================================== *)
(** * Batch manager (src/utils/batch-manager.ts) *)
(* ================================================================== *)
Module Batch.

Record BatchManagerConfig := mkConfig {
  maxConcurrent : Z;
  defaultTimeout : Z;
  retryLimit : Z;
  retryDelay : Z
}.

(** The constructor's defaults. *)
Definition defaultConfig : BatchManagerConfig := mkConfig 10 30000 3 1000.

(** A value that was thrown or that a promise was rejected with:
    [message] is [None] when the value has no [message] to read (it is
    not an [Error]). *)
Record Reason := mkReason { message : option string }.

Definition requestTimeout : Reason := mkReason (Some "Request timeout").
Definition requestAborted : Reason := mkReason (Some "Request aborted").
Definition typeError : Reason :=
  mkReason (Some "Cannot read properties of undefined").

(** How the promise of the executor settles: with a value or a reason
    after so many milliseconds, or never. *)
Inductive Settled (R : Type) :=
| Resolves (r : R) (after : Z)
| Rejects (e : Reason) (after : Z)
| NeverSettles.
Arguments Resolves {R} r after.
Arguments Rejects {R} e after.
Arguments NeverSettles {R}.

(** [String.prototype.includes]. *)
Fixpoint includes (needle hay : string) : bool :=
  String.prefix needle hay
  || match hay with
     | EmptyString => false
     | String _ rest => includes needle rest
     end.

(** [shouldRetry]; reading [includes] of a missing message throws. *)
Definition shouldRetry (error : Reason) : Result Reason bool :=
  match message error with
  | Some m =>
      if String.eqb m "Request timeout" || String.eqb m "Request aborted"
      then Returned false
      else Returned (includes "network" m || includes "ECONNRESET" m)
  | None => Thrown typeError
  end.

Section Manager.
Context {T R W : Type}.
Variable cfg : BatchManagerConfig.

Record BatchRequest := mkRequest {
  id : string;
  data : T;
  priority : option Z;
  timeout : option Z
}.

Record BatchResult := mkResult {
  result_id : string;
  request : T;
  result : option R;
  error : option Reason;
  duration : Z;
  timestamp : Z
}.

(** The semaphore's permits and the statistics of the manager. *)
Record BatchManager := mkManager {
  permits : Z;
  peakConcurrency : Z;
  responseTimes : list Z
}.

Definition create : BatchManager := mkManager (maxConcurrent cfg) 0 [].

(** The executor: started on a payload in world [w], it says how its
    promise settles. *)
Variable executor : T -> W -> Settled R * W.

(** [executeWithTimeout], without the abort signal: the outcome and the
    time it took. *)
Definition executeWithTimeout (d : T) (limit : Z) (w : W)
  : Result Reason R * Z * W :=
  match executor d w with
  | (Resolves r after, w') =>
      if after <? limit then (Returned r, after, w')
      else (Thrown requestTimeout, limit, w')
  | (Rejects e after, w') =>
      if after <? limit then (Thrown e, after, w')
      else (Thrown requestTimeout, limit, w')
  | (NeverSettles, w') => (Thrown requestTimeout, limit, w')
  end.

(** The body of [executeRequest] once the permit is held, with requests
    started one after the other: [fuel] bounds the number of attempts and
    [None] means it ran out.  A retry takes over the permit of the
    attempt that failed. *)
Fixpoint attempt (fuel : nat) (req : BatchRequest) (now : Z)
    (m : BatchManager) (w : W)
  : option (Result Reason BatchResult * Z * BatchManager * W) :=
  match fuel with
  | O => None
  | S fuel' =>
      let usage := maxConcurrent cfg - permits m in
      let peak := Z.max usage (peakConcurrency m) in
      let limit := default (defaultTimeout cfg) (timeout req) in
      let '(outcome, took, w') := executeWithTimeout (data req) limit w in
      let finished := now + took in
      let m' := mkManager (permits m) peak (responseTimes m ++ [took]) in
      match outcome with
      | Returned r =>
          Some (Returned (mkResult (id req) (data req) (Some r) None took
                            finished),
                finished, m', w')
      | Thrown e =>
          match shouldRetry e with
          | Thrown te => Some (Thrown te, finished, m', w')
          | Returned true =>
              attempt fuel' req (finished + retryDelay cfg) m' w'
          | Returned false =>
              Some (Returned (mkResult (id req) (data req) None (Some e) took
                                finished),
                    finished, m', w')
          end
      end
  end.

(** [executeRequest]: [acquire], the attempts, and the [release] of the
    [finally].  With no permit left and nobody to release one, the
    request waits for ever. *)
Definition executeRequest (fuel : nat) (req : BatchRequest) (now : Z)
    (m : BatchManager) (w : W)
  : option (Result Reason BatchResult * Z * BatchManager * W) :=
  if 0 <? permits m then
    let held := mkManager (permits m - 1) (peakConcurrency m)
                  (responseTimes m) in
    match attempt fuel req now held w with
    | Some (r, t, m', w') =>
        Some (r, t,
              mkManager (permits m' + 1) (peakConcurrency m')
                (responseTimes m'),
              w')
    | None => None
    end
  else None.

(** The stable sort by [priority ?? 999]. *)
Definition priorityOf (req : BatchRequest) : Z := default 999 (priority req).

Fixpoint insertByPriority (req : BatchRequest) (sorted : list BatchRequest)
  : list BatchRequest :=
  match sorted with
  | [] => [req]
  | x :: rest =>
      if priorityOf req <=? priorityOf x then req :: x :: rest
      else x :: insertByPriority req rest
  end.

Definition sortByPriority (requests : list BatchRequest) : list BatchRequest :=
  foldr insertByPriority [] requests.

(** [Promise.all] over the requests, started in order: the results in
    the order of the requests, or the first rejection. *)
Fixpoint executeAll (fuel : nat) (requests : list BatchRequest) (now : Z)
    (m : BatchManager) (w : W)
  : option (Result Reason (list BatchResult) * Z * BatchManager * W) :=
  match requests with
  | [] => Some (Returned [], now, m, w)
  | req :: rest =>
      match executeRequest fuel req now m w with
      | Some (r, t, m', w') =>
          match executeAll fuel rest t m' w' with
          | Some (rs, t', m'', w'') =>
              match r, rs with
              | Returned x, Returned xs => Some (Returned (x :: xs), t', m'', w'')
              | Thrown e, _ => Some (Thrown e, t', m'', w'')
              | Returned _, Thrown e => Some (Thrown e, t', m'', w'')
              end
          | None => None
          end
      | None => None
      end
  end.

Definition executeBatch (fuel : nat) (requests : list BatchRequest) (now : Z)
    (m : BatchManager) (w : W)
  : option (Result Reason (list BatchResult) * Z * BatchManager * W) :=
  executeAll fuel (sortByPriority requests) now m w.

End Manager.

(** ** Facts about the batch *)

Section BatchFacts.
Context {T R W : Type}.
Variable cfg : BatchManagerConfig.
Variable executor : T -> W -> Settled R * W.

Lemma length_insertByPriority (req : BatchRequest (T := T)) sorted :
  length (insertByPriority req sorted) = S (length sorted).
Proof.
  induction sorted as [|x rest IH]; cbn; [reflexivity|].
  destruct (priorityOf req <=? priorityOf x); cbn; [reflexivity|].
  now rewrite IH.
Qed.

Lemma length_sortByPriority (requests : list (BatchRequest (T := T))) :
  length (sortByPriority requests) = length requests.
Proof.
  induction requests as [|req rest IH]; [reflexivity|].
  cbn [sortByPriority foldr length]. rewrite length_insertByPriority.
  f_equal. exact IH.
Qed.

(** No attempt ends in a rejection that [shouldRetry] accepts or cannot
    read. *)
Definition neverRetried : Prop :=
  forall d limit w e,
    fst (fst (executeWithTimeout executor d limit w)) = Thrown e ->
    shouldRetry e = Returned false.

(** Without retries a request takes one attempt and gives one result. *)
Lemma executeRequest_once (req : BatchRequest (T := T)) now m w :
  neverRetried -> 0 < permits m ->
  exists (res : BatchResult (T := T) (R := R)) t m' w',
    executeRequest cfg executor 1 req now m w = Some (Returned res, t, m', w')
    /\ permits m' = permits m.
Proof.
  intros Hnr Hp. unfold executeRequest.
  assert ((0 <? permits m) = true) as -> by lia. cbn [attempt].
  pose proof (Hnr (data req) (default (defaultTimeout cfg) (timeout req)) w)
    as He.
  destruct (executeWithTimeout executor (data req)
              (default (defaultTimeout cfg) (timeout req)) w)
    as [[[r|e] took] w'] eqn:Hx; cbn in He.
  - do 4 eexists. split; [reflexivity|]. cbn. lia.
  - rewrite (He e eq_refl). do 4 eexists. split; [reflexivity|]. cbn. lia.
Qed.

(** Without retries, and with a permit to start from, a batch of [N]
    requests returns [N] results. *)
Lemma executeAll_complete (requests : list (BatchRequest (T := T))) :
  neverRetried ->
  forall now m w, 0 < permits m ->
  exists (results : list (BatchResult (T := T) (R := R))) t m' w',
    executeAll cfg executor 1 requests now m w
      = Some (Returned results, t, m', w')
    /\ length results = length requests /\ permits m' = permits m.
Proof.
  intros Hnr. induction requests as [|req rest IH]; intros now m w Hp.
  - exists [], now, m, w. repeat split; reflexivity.
  - cbn [executeAll].
    destruct (executeRequest_once req now m w Hnr Hp)
      as (res & t & m1 & w1 & -> & Hp1).
    destruct (IH t m1 w1 ltac:(lia)) as (results & t' & m2 & w2 & -> & Hl & Hp2).
    exists (res :: results), t', m2, w2. cbn. repeat split; lia.
Qed.

End BatchFacts.

(** An upstream that is down: every call is rejected after five
    milliseconds with a network error. *)
Definition networkDown : unit -> unit -> Settled unit * unit :=
  fun _ w => (Rejects (mkReason (Some "network error")) 5, w).

Lemma attempt_networkDown fuel (req : BatchRequest (T := unit)) :
  timeout req = None ->
  forall now m,
    attempt defaultConfig networkDown fuel req now m tt = None.
Proof.
  intros Ht. induction fuel as [|fuel IH]; intros now m; [reflexivity|].
  cbn [attempt]. rewrite Ht. cbn. apply IH.
Qed.

(** C3 fails on the code: with the default configuration and an
    executor whose calls all fail with a network error, the single
    request of the batch is retried again and again ([retryLimit] is never
    read), so that [executeBatch] returns nothing however many attempts it
    is given. *)
Theorem executeBatch_network_error_never_completes (fuel : nat) (now : Z) :
  executeBatch defaultConfig networkDown fuel
    [mkRequest "a" tt None None] now (create defaultConfig) tt = None.
Proof.
  unfold executeBatch. cbn [sortByPriority foldr insertByPriority executeAll].
  unfold executeRequest. cbn [create permits defaultConfig maxConcurrent].
  cbn [Z.ltb Z.compare]. now rewrite attempt_networkDown.
Qed.

(** What the caller of [executeBatch] sees: nothing, a rejection, or
    the id, value and error of each result. *)
Definition seen {T R M W}
    (out : option (Result Reason (list (BatchResult (T := T) (R := R))) * Z * M * W))
  : option (Result Reason (list (string * option R * option Reason))) :=
  match out with
  | Some (Returned results, _, _, _) =>
      Some (Returned (map (fun x => (result_id x, result x, error x)) results))
  | Some (Thrown e, _, _, _) => Some (Thrown e)
  | None => None
  end.

(** A rejection with a value that is no [Error] makes [shouldRetry]
    throw, and the batch is rejected as a whole. *)
Example executeBatch_rejects_on_unreadable_reason :
  seen (executeBatch defaultConfig
          (fun (_ : unit) (w : unit) => (@Rejects unit (mkReason None) 5, w))
          3 [mkRequest "a" tt None None; mkRequest "b" tt None None]
          0 (create defaultConfig) tt)
  = Some (Thrown typeError).
Proof. reflexivity. Qed.

(** A batch of three against an executor that answers in time, times
    out or fails for good: three results, in the order of the
    priorities. *)
Example executeBatch_three_results :
  seen (executeBatch defaultConfig
          (fun (d : Z) (w : unit) =>
             match d with
             | 0 => (Resolves d 10, w)
             | 1 => (NeverSettles, w)
             | _ => (Rejects (mkReason (Some "HTTP 404")) 10, w)
             end)
          1 [mkRequest "a" 2 None None; mkRequest "b" 1 (Some 5) (Some 100);
             mkRequest "c" 0 (Some 1) None]
          0 (create defaultConfig) tt)
  = Some (Returned [("c", Some 0, None); ("b", None, Some requestTimeout);
                    ("a", None, Some (mkReason (Some "HTTP 404")))]).
Proof. reflexivity. Qed.

(** ** Further facts: the order of a batch, time-outs, the summary *)

Section BatchOrder.
Context {T R W : Type}.
Variable cfg : BatchManagerConfig.
Variable executor : T -> W -> Settled R * W.

Lemma insertByPriority_Permutation (req : BatchRequest (T := T)) sorted :
  insertByPriority req sorted ≡ₚ req :: sorted.
Proof.
  induction sorted as [|x rest IH]; cbn; [reflexivity|].
  destruct (priorityOf req <=? priorityOf x); [reflexivity|].
  rewrite IH. apply perm_swap.
Qed.

Lemma insertByPriority_Sorted (req : BatchRequest (T := T)) sorted :
  Sorted (fun a b => priorityOf a <= priorityOf b) sorted ->
  Sorted (fun a b => priorityOf a <= priorityOf b)
    (insertByPriority req sorted).
Proof.
  induction sorted as [|x rest IH]; intros Hs; cbn.
  - repeat constructor.
  - destruct (priorityOf req <=? priorityOf x) eqn:Hle.
    + constructor; [exact Hs|]. constructor. lia.
    + apply Sorted_inv in Hs as [Hrest Hhd].
      constructor; [now apply IH|].
      destruct rest as [|y rest']; cbn.
      * constructor. lia.
      * destruct (priorityOf req <=? priorityOf y); constructor;
          [lia|now inversion Hhd].
Qed.

Lemma insertByPriority_filter (v : Z) (req : BatchRequest (T := T)) sorted :
  filter (fun r => priorityOf r = v) (insertByPriority req sorted)
  = filter (fun r => priorityOf r = v) (req :: sorted).
Proof.
  induction sorted as [|x rest IH]; cbn [insertByPriority]; [reflexivity|].
  destruct (priorityOf req <=? priorityOf x) eqn:Hle; [reflexivity|].
  rewrite filter_cons, IH, !filter_cons.
  destruct (decide (priorityOf x = v)) as [Hx|Hx];
    destruct (decide (priorityOf req = v)) as [Hr|Hr]; try reflexivity.
  lia.
Qed.

(** Without retries a request gives the result of its one attempt,
    under its own id. *)
Lemma executeRequest_single (req : BatchRequest (T := T)) now m w :
  neverRetried executor -> 0 < permits m ->
  exists (res : BatchResult (T := T) (R := R)) t m' w',
    executeRequest cfg executor 1 req now m w = Some (Returned res, t, m', w')
    /\ permits m' = permits m
    /\ result_id res = id req /\ request res = data req.
Proof.
  intros Hnr Hp. unfold executeRequest.
  assert ((0 <? permits m) = true) as -> by lia. cbn [attempt].
  pose proof (Hnr (data req) (default (defaultTimeout cfg) (timeout req)) w)
    as He.
  destruct (executeWithTimeout executor (data req)
              (default (defaultTimeout cfg) (timeout req)) w)
    as [[[r|e] took] w'] eqn:Hx; cbn in He.
  - do 4 eexists. split; [reflexivity|]. cbn. repeat split; lia.
  - rewrite (He e eq_refl). do 4 eexists. split; [reflexivity|]. cbn.
    repeat split; lia.
Qed.

Lemma executeAll_in_order (requests : list (BatchRequest (T := T))) :
  neverRetried executor ->
  forall now m w, 0 < permits m ->
  exists (results : list (BatchResult (T := T) (R := R))) t m' w',
    executeAll cfg executor 1 requests now m w
      = Some (Returned results, t, m', w')
    /\ (fun res => (result_id res, request res)) <$> results
       = (fun req => (id req, data req)) <$> requests
    /\ permits m' = permits m.
Proof.
  intros Hnr. induction requests as [|req rest IH]; intros now m w Hp.
  - exists [], now, m, w. repeat split; reflexivity.
  - cbn [executeAll].
    destruct (executeRequest_single req now m w Hnr Hp)
      as (res & t & m1 & w1 & -> & Hp1 & Hid & Hreq).
    destruct (IH t m1 w1 ltac:(lia)) as (results & t' & m2 & w2 & -> & Hl & Hp2).
    exists (res :: results), t', m2, w2. cbn [fmap list_fmap].
    rewrite Hl, Hid, Hreq. repeat split; lia.
Qed.

End BatchOrder.

(** X21.  [executeBatch] sorts a copy of the requests by priority: the
    order it runs them in is a permutation of the requests in ascending
    order of [priority ?? 999], and requests of equal priority keep the
    order they were given in. *)
Theorem sortByPriority_stable {T} (requests : list (BatchRequest (T := T))) :
  sortByPriority requests ≡ₚ requests
  /\ Sorted (fun a b => priorityOf a <= priorityOf b) (sortByPriority requests)
  /\ forall v,
       filter (fun r => priorityOf r = v) (sortByPriority requests)
       = filter (fun r => priorityOf r = v) requests.
Proof.
  induction requests as [|req rest (IHp & IHs & IHf)].
  - repeat split; constructor.
  - cbn [sortByPriority foldr]. fold (sortByPriority rest). split; [|split].
    + now rewrite insertByPriority_Permutation, IHp.
    + now apply insertByPriority_Sorted.
    + intros v. rewrite insertByPriority_filter, !filter_cons.
      now rewrite IHf.
Qed.

(** X22.  When no attempt ends in an error that is retried, a batch of
    N requests started with a free permit resolves to N results, one for
    each request, and they come in the order of the priorities, not in
    the order the requests were passed; every permit is given back. *)
Theorem executeBatch_results_in_priority_order {T R W}
    (cfg : BatchManagerConfig) (executor : T -> W -> Settled R * W)
    (requests : list (BatchRequest (T := T))) (now : Z)
    (m : BatchManager) (w : W) :
  neverRetried executor -> 0 < permits m ->
  exists (results : list (BatchResult (T := T) (R := R))) t m' w',
    executeBatch cfg executor 1 requests now m w
      = Some (Returned results, t, m', w')
    /\ (fun res => (result_id res, request res)) <$> results
       = (fun req => (id req, data req)) <$> sortByPriority requests
    /\ length results = length requests
    /\ permits m' = permits m.
Proof.
  intros Hnr Hp. unfold executeBatch.
  destruct (executeAll_in_order cfg executor (sortByPriority requests) Hnr
              now m w Hp) as (results & t & m' & w' & Hrun & Hids & Hperm).
  exists results, t, m', w'. split; [exact Hrun|]. split; [exact Hids|].
  split; [|exact Hperm].
  apply (f_equal length) in Hids. rewrite !length_fmap in Hids.
  now rewrite Hids, length_sortByPriority.
Qed.

(** An executor that answers at once. *)
Definition echo : Z -> unit -> Settled Z * unit :=
  fun d w => (Resolves d 10, w).

Lemma echo_neverRetried : neverRetried echo.
Proof.
  intros d limit w e. unfold executeWithTimeout, echo.
  destruct (10 <? limit); cbn; [discriminate|].
  now intros [= <-].
Qed.

Lemma executeBatch_results_in_priority_order_witness :
  exists results t m' w',
    executeBatch defaultConfig echo 1
      [mkRequest "a" 7 None None; mkRequest "b" 8 (Some 5) None;
       mkRequest "c" 9 (Some 1) None] 0 (create defaultConfig) tt
      = Some (Returned results, t, m', w')
    /\ (fun res => (result_id res, request res)) <$> results
       = (fun req => (id req, data req))
         <$> sortByPriority
               [mkRequest "a" 7 None None; mkRequest "b" 8 (Some 5) None;
                mkRequest "c" 9 (Some 1) None]
    /\ length results = 3%nat
    /\ permits m' = 10.
Proof.
  apply (executeBatch_results_in_priority_order defaultConfig echo
           [mkRequest "a" 7 None None; mkRequest "b" 8 (Some 5) None;
            mkRequest "c" 9 (Some 1) None] 0 (create defaultConfig) tt
           echo_neverRetried).
  reflexivity.
Defined.



(** ** The summary of a batch *)

(** The fields of [BatchSummary] that are counts or sums of integers;
    the average and the percentiles are floating-point numbers and are
    left out. *)
Record BatchCounts := mkCounts {
  total : Z;
  successful : Z;
  failed : Z;
  timedOut : Z;
  totalTime : Z;
  summaryPeak : Z
}.

Section Summary.
Context {T R : Type}.

(** [r.error?.message === 'Request timeout']. *)
Definition isTimeout (r : BatchResult (T := T) (R := R)) : bool :=
  match error r with
  | Some e => bool_decide (message e = Some "Request timeout")
  | None => false
  end.

Definition getSummary (m : BatchManager)
    (results : list (BatchResult (T := T) (R := R))) : BatchCounts :=
  mkCounts
    (Z.of_nat (length results))
    (Z.of_nat (length (List.filter (fun r => negb (bool_decide (is_Some (error r)))) results)))
    (Z.of_nat (length (List.filter (fun r => bool_decide (is_Some (error r))) results)))
    (Z.of_nat (length (List.filter isTimeout results)))
    (foldl (fun sum r => sum + duration r) 0 results)
    (peakConcurrency m).

End Summary.

(** X24.  The summary adds up: every result is counted as successful or
    as failed and never as both, and the results counted as timed out
    are among the failed ones. *)
Theorem getSummary_adds_up {T R} (m : BatchManager)
    (results : list (BatchResult (T := T) (R := R))) :
  successful (getSummary m results) + failed (getSummary m results)
  = total (getSummary m results)
  /\ 0 <= timedOut (getSummary m results) <= failed (getSummary m results).
Proof.
  unfold getSummary. cbn [successful failed total timedOut].
  induction results as [|r rest [IH1 IH2]]; [cbn; lia|].
  cbn [List.filter length].
  assert (isTimeout r = true -> bool_decide (is_Some (error r)) = true) as Hto.
  { unfold isTimeout. destruct (error r); [|discriminate].
    intros _. apply bool_decide_true. eauto. }
  destruct (bool_decide (is_Some (error r))), (isTimeout r);
    cbn [negb length]; try lia.
Qed.

(** ** The result aggregator *)

Section Aggregator.
Context {A : Type}.
Variable keyFn : A -> string.

(** [deduplicate]: the [filter] with the set of keys seen so far. *)
Fixpoint deduplicateFrom (seen : gset string) (results : list A) : list A :=
  match results with
  | [] => []
  | item :: rest =>
      if decide (keyFn item ∈ seen) then deduplicateFrom seen rest
      else item :: deduplicateFrom ({[keyFn item]} ∪ seen) rest
  end.

Definition deduplicate (results : list A) : list A :=
  deduplicateFrom ∅ results.

Lemma deduplicateFrom_filter (k : string) (results : list A) :
  forall seen,
    filter (fun x => keyFn x = k) (deduplicateFrom seen results)
    = if decide (k ∈ seen) then []
      else take 1 (filter (fun x => keyFn x = k) results).
Proof.
  induction results as [|item rest IH]; intros seen; cbn [deduplicateFrom].
  - now destruct (decide (k ∈ seen)).
  - rewrite (filter_cons _ item rest).
    destruct (decide (keyFn item ∈ seen)) as [Hseen|Hnew].
    + rewrite IH. destruct (decide (k ∈ seen)) as [Hk|Hk]; [reflexivity|].
      rewrite decide_False by congruence. reflexivity.
    + rewrite filter_cons, IH.
      destruct (decide (keyFn item = k)) as [Heq|Hne].
      * rewrite decide_True
          by (apply elem_of_union_l, elem_of_singleton; congruence).
        rewrite decide_False by congruence. reflexivity.
      * destruct (decide (k ∈ seen)) as [Hk|Hk].
        -- now rewrite decide_True by (now apply elem_of_union_r).
        -- rewrite decide_False; [reflexivity|].
           rewrite elem_of_union, elem_of_singleton. intros [?|?]; congruence.
Qed.

Lemma deduplicateFrom_sublist (results : list A) :
  forall seen, deduplicateFrom seen results `sublist_of` results.
Proof.
  induction results as [|item rest IH]; intros seen; cbn; [constructor|].
  destruct (decide (keyFn item ∈ seen)); [apply sublist_cons|apply sublist_skip];
    apply IH.
Qed.

Lemma deduplicateFrom_NoDup (results : list A) :
  forall seen,
    NoDup (keyFn <$> deduplicateFrom seen results)
    /\ forall x, x ∈ deduplicateFrom seen results -> keyFn x ∉ seen.
Proof.
  induction results as [|item rest IH]; intros seen; cbn.
  - split; [constructor|]. intros x Hx. now apply elem_of_nil in Hx.
  - destruct (decide (keyFn item ∈ seen)) as [Hseen|Hnew]; [apply IH|].
    destruct (IH ({[keyFn item]} ∪ seen)) as [Hnd Hout].
    split.
    + cbn. constructor; [|exact Hnd].
      intros Hin. apply list_elem_of_fmap in Hin as (y & Hy & Hin).
      apply Hout in Hin. apply Hin, elem_of_union_l, elem_of_singleton.
      congruence.
    + intros x [->|Hx]%elem_of_cons; [exact Hnew|].
      apply Hout in Hx. intros Hs. now apply Hx, elem_of_union_r.
Qed.

End Aggregator.

(** X25.  [ResultAggregator.deduplicate] keeps, for every key, the
    first result with that key and no other: the results it returns are
    a subsequence of the results given, no two of them share a key, and
    for each key they are the first of the given results with that key,
    if there is one. *)
Theorem deduplicate_keeps_first {A} (keyFn : A -> string) (results : list A) :
  deduplicate keyFn results `sublist_of` results
  /\ NoDup (keyFn <$> deduplicate keyFn results)
  /\ forall k,
       filter (fun x => keyFn x = k) (deduplicate keyFn results)
       = take 1 (filter (fun x => keyFn x = k) results).
Proof.
  split; [apply deduplicateFrom_sublist|]. split.
  - apply deduplicateFrom_NoDup.
  - intros k. unfold deduplicate. rewrite deduplicateFrom_filter.
    now rewrite decide_False by apply not_elem_of_empty.
Qed.

Section Groups.
Context {A K : Type} `{EqDecision K}.
Variable keyFn : A -> K.

(** A [Map] with its entries in the order of their insertion. *)
Definition mapHas (key : K) (groups : list (K * list A)) : bool :=
  bool_decide (key ∈ groups.*1).

(** [groups.get(key)!.push(item)]. *)
Definition pushTo (key : K) (item : A) (groups : list (K * list A))
  : list (K * list A) :=
  (fun entry => if decide (fst entry = key) then (fst entry, snd entry ++ [item])
                else entry) <$> groups.

Definition groupBy (results : list A) : list (K * list A) :=
  foldl (fun groups item =>
           let key := keyFn item in
           let groups' := if mapHas key groups then groups
                          else groups ++ [(key, [])] in
           pushTo key item groups')
        [] results.

(** Every key once, and under it the items seen so far with that key. *)
Definition grouped (seen : list A) (groups : list (K * list A)) : Prop :=
  NoDup groups.*1
  /\ forall k g, (k, g) ∈ groups
                 <-> g = filter (fun x => keyFn x = k) seen /\ g <> [].

Lemma pushTo_keys key item groups : (pushTo key item groups).*1 = groups.*1.
Proof.
  unfold pushTo. rewrite <- list_fmap_compose. apply list_fmap_ext.
  intros i [k g] _. cbn. now destruct (decide (k = key)).
Qed.

Lemma grouped_step (seen : list A) (item : A) groups :
  grouped seen groups ->
  grouped (seen ++ [item])
    (pushTo (keyFn item) item
       (if mapHas (keyFn item) groups then groups
        else groups ++ [(keyFn item, [])])).
Proof.
  intros [Hnd Hgroups]. set (key := keyFn item).
  set (groups' := if mapHas key groups then groups else groups ++ [(key, [])]).
  assert (NoDup groups'.*1) as Hnd'.
  { unfold groups', mapHas. destruct (bool_decide_reflect (key ∈ groups.*1));
      [exact Hnd|].
    rewrite fmap_app. cbn. apply NoDup_app. split; [exact Hnd|].
    split; [|repeat constructor; apply not_elem_of_nil].
    intros k Hk ->%list_elem_of_singleton. contradiction. }
  assert (forall k g, (k, g) ∈ groups'
            <-> (g = filter (fun x => keyFn x = k) seen
                 /\ (g <> [] \/ k = key))) as Hgroups'.
  { intros k g. unfold groups', mapHas.
    destruct (bool_decide_reflect (key ∈ groups.*1)) as [Hin|Hout].
    - rewrite Hgroups. split; [intros [? ?]; auto|].
      intros [Hg [Hne| ->]]; [auto|]. split; [exact Hg|].
      apply list_elem_of_fmap in Hin as ([k' g'] & Hk & Hin). cbn in Hk. subst k'.
      apply Hgroups in Hin as [Hg' Hne']. congruence.
    - rewrite elem_of_app, list_elem_of_singleton, Hgroups. split.
      + intros [[Hg Hne]|[= -> ->]]; [auto|]. split; [|now right].
        destruct (filter (fun x => keyFn x = key) seen) as [|y ys] eqn:Hf;
          [reflexivity|]. exfalso. apply Hout.
        apply list_elem_of_fmap. exists (key, y :: ys). split; [reflexivity|].
        apply Hgroups. rewrite Hf. split; [reflexivity|discriminate].
      + intros [Hg [Hne| ->]]; [auto|].
        destruct g as [|y ys]; [now right|]. left. split; [exact Hg|discriminate]. }
  split; [now rewrite pushTo_keys|].
  intros k g. unfold pushTo. rewrite list_elem_of_fmap. split.
  - intros ([k' g'] & Heq & Hin). apply Hgroups' in Hin as [Hg' Hor].
    cbn in Heq. rewrite filter_app, filter_cons, filter_nil.
    destruct (decide (k' = key)) as [->|Hne]; injection Heq as -> ->.
    + fold key. rewrite decide_True by reflexivity. subst g'.
      split; [reflexivity|]. now destruct (filter _ seen).
    + fold key. rewrite decide_False by congruence. rewrite app_nil_r.
      split; [exact Hg'|]. destruct Hor as [?|?]; [assumption|contradiction].
  - intros [Hg Hne]. rewrite filter_app, filter_cons, filter_nil in Hg.
    fold key in Hg. destruct (decide (key = k)) as [<-|Hk].
    + exists (key, filter (fun x => keyFn x = key) seen). cbn.
      rewrite decide_True by reflexivity. split; [now rewrite Hg|].
      apply Hgroups'. split; [reflexivity|now right].
    + exists (k, g). cbn. rewrite decide_False by congruence.
      split; [reflexivity|]. apply Hgroups'. rewrite app_nil_r in Hg.
      split; [exact Hg|now left].
Qed.

Lemma foldl_grouped (results : list A) :
  forall seen groups,
    grouped seen groups ->
    grouped (seen ++ results)
      (foldl (fun groups item =>
                let key := keyFn item in
                let groups' := if mapHas key groups then groups
                               else groups ++ [(key, [])] in
                pushTo key item groups')
             groups results).
Proof.
  induction results as [|item rest IH]; intros seen groups H.
  - cbn [foldl]. now rewrite app_nil_r.
  - cbn [foldl].
    replace (seen ++ item :: rest) with ((seen ++ [item]) ++ rest)
      by now rewrite <- app_assoc.
    apply IH. now apply grouped_step.
Qed.

Lemma groupBy_grouped (results : list A) : grouped results (groupBy results).
Proof.
  apply (foldl_grouped results [] []).
  split; [constructor|]. intros k g. split.
  - intros Hin. now apply elem_of_nil in Hin.
  - intros [-> Hne]. now rewrite filter_nil in Hne.
Qed.

End Groups.

(** X26.  [ResultAggregator.groupBy] files every result under its key,
    in the order given: the map it returns has no key twice, and holds
    under each key exactly the results with that key, in their order;
    a key with no result is not in the map. *)
Theorem groupBy_partitions {A K} `{EqDecision K} (keyFn : A -> K)
    (results : list A) :
  NoDup (groupBy keyFn results).*1
  /\ forall k g,
       (k, g) ∈ groupBy keyFn results
       <-> g = filter (fun x => keyFn x = k) results /\ g <> [].
Proof. exact (groupBy_grouped keyFn results). Qed.

(** ** The semaphore *)


















End Batch.

(** * The trade cache ([src/utils/trade-cache.ts]) *)

Module TradeCache.

Record TradeCacheConfig := mkConfig {
  searchTTL : Z;
  fetchTTL : Z;
  maxSize : Z;
  cleanupInterval : Z
}.

(** The constructor's defaults. *)
Definition defaultConfig : TradeCacheConfig := mkConfig 120000 60000 100 60000.

Record CacheEntry (V : Type) := mkEntry {
  data : V;
  timestamp : Z;
  ttl : Z;
  hits : Z
}.
Arguments mkEntry {V}.
Arguments data {V}.
Arguments timestamp {V}.
Arguments ttl {V}.
Arguments hits {V}.

Record CacheStats := mkStats {
  stat_hits : Z;
  stat_misses : Z;
  stat_evictions : Z;
  stat_sets : Z
}.

(** The [Map] with its entries in the order of their insertion, and the
    statistics. *)
Record TradeCache (V : Type) := mkCache {
  cache : list (string * CacheEntry V);
  stats : CacheStats
}.
Arguments mkCache {V}.
Arguments cache {V}.
Arguments stats {V}.

(** What [hits * 1000 / age] can be: a number, an infinity when the age
    is zero, or [NaN] when the hits are zero as well.  Numbers are
    compared as the rationals they stand for. *)
Inductive Score :=
| Finite (q : Q)
| PlusInfinity
| MinusInfinity
| NotANumber.

Definition score (entryHits age : Z) : Score :=
  if age =? 0 then
    if entryHits =? 0 then NotANumber
    else if 0 <? entryHits then PlusInfinity else MinusInfinity
  else Finite (inject_Z (entryHits * 1000) / inject_Z age)%Q.

(** [a < b] on scores. *)
Definition scoreLt (a b : Score) : bool :=
  match a, b with
  | NotANumber, _ | _, NotANumber => false
  | Finite p, Finite q => negb (Qle_bool q p)
  | Finite _, PlusInfinity => true
  | MinusInfinity, Finite _ => true
  | MinusInfinity, PlusInfinity => true
  | _, _ => false
  end.

Section Cache.
Context {V : Type}.
Variable cfg : TradeCacheConfig.

Definition create : TradeCache V := mkCache [] (mkStats 0 0 0 0).

(** [Map.prototype.get], [set] and [delete]. *)
Definition mapGet (key : string) (m : list (string * CacheEntry V))
  : option (CacheEntry V) :=
  snd <$> List.find (fun e => String.eqb (fst e) key) m.

Fixpoint mapSet (key : string) (entry : CacheEntry V)
    (m : list (string * CacheEntry V)) : list (string * CacheEntry V) :=
  match m with
  | [] => [(key, entry)]
  | (k, e) :: rest =>
      if String.eqb k key then (k, entry) :: rest
      else (k, e) :: mapSet key entry rest
  end.

Definition mapDelete (key : string) (m : list (string * CacheEntry V))
  : list (string * CacheEntry V) :=
  List.filter (fun e => negb (String.eqb (fst e) key)) m.

Definition size (c : TradeCache V) : Z := Z.of_nat (length (cache c)).

Definition expired (now : Z) (entry : CacheEntry V) : bool :=
  ttl entry <? now - timestamp entry.

(** [get], called at time [now]. *)
Definition get (key : string) (now : Z) (c : TradeCache V)
  : option V * TradeCache V :=
  match mapGet key (cache c) with
  | None =>
      (None,
       mkCache (cache c)
         (mkStats (stat_hits (stats c)) (stat_misses (stats c) + 1)
            (stat_evictions (stats c)) (stat_sets (stats c))))
  | Some entry =>
      if expired now entry then
        (None,
         mkCache (mapDelete key (cache c))
           (mkStats (stat_hits (stats c)) (stat_misses (stats c) + 1)
              (stat_evictions (stats c) + 1) (stat_sets (stats c))))
      else
        (Some (data entry),
         mkCache
           (mapSet key
              (mkEntry (data entry) (timestamp entry) (ttl entry)
                 (hits entry + 1))
              (cache c))
           (mkStats (stat_hits (stats c) + 1) (stat_misses (stats c))
              (stat_evictions (stats c)) (stat_sets (stats c))))
  end.

(** The loop of [evictLRU]: the key and the score it holds after each
    entry. *)
Definition lruStep (now : Z) (best : option string * Score)
    (e : string * CacheEntry V) : option string * Score :=
  let age := now - timestamp (snd e) in
  let s := score (hits (snd e)) age in
  if scoreLt s (snd best) then (Some (fst e), s) else best.

Definition evictLRU (now : Z) (c : TradeCache V) : TradeCache V :=
  match fst (foldl (lruStep now) (None, PlusInfinity) (cache c)) with
  | Some lruKey =>
      if negb (String.eqb lruKey "") then
        mkCache (mapDelete lruKey (cache c))
          (mkStats (stat_hits (stats c)) (stat_misses (stats c))
             (stat_evictions (stats c) + 1) (stat_sets (stats c)))
      else c
  | None => c
  end.

(** The time to live [set] gives an entry: [customTTL], unless it is
    missing or zero. *)
Definition chooseTTL (key : string) (customTTL : option Z) : Z :=
  match customTTL with
  | Some t => if t =? 0 then
                if String.prefix "search:" key then searchTTL cfg
                else if String.prefix "fetch:" key then fetchTTL cfg
                else searchTTL cfg
              else t
  | None =>
      if String.prefix "search:" key then searchTTL cfg
      else if String.prefix "fetch:" key then fetchTTL cfg
      else searchTTL cfg
  end.

(** [set], called at time [now]. *)
Definition set (key : string) (value : V) (customTTL : option Z) (now : Z)
    (c : TradeCache V) : TradeCache V :=
  let entryTTL := chooseTTL key customTTL in
  let c1 := if maxSize cfg <=? size c then evictLRU now c else c in
  mkCache (mapSet key (mkEntry value now entryTTL 0) (cache c1))
    (mkStats (stat_hits (stats c1)) (stat_misses (stats c1))
       (stat_evictions (stats c1)) (stat_sets (stats c1) + 1)).

Definition delete (key : string) (c : TradeCache V) : bool * TradeCache V :=
  (bool_decide (is_Some (mapGet key (cache c))),
   mkCache (mapDelete key (cache c)) (stats c)).

Definition clear (c : TradeCache V) : TradeCache V :=
  mkCache [] (mkStats 0 0 0 0).

(** [cleanup], run by the interval timer at time [now]. *)
Definition cleanup (now : Z) (c : TradeCache V) : TradeCache V :=
  let evicted :=
    Z.of_nat (length (List.filter (fun e => expired now (snd e)) (cache c))) in
  mkCache (List.filter (fun e => negb (expired now (snd e))) (cache c))
    (if 0 <? evicted
     then mkStats (stat_hits (stats c)) (stat_misses (stats c))
            (stat_evictions (stats c) + evicted) (stat_sets (stats c))
     else stats c).

(** ** Histories of the cache *)

Inductive Op :=
| DoSet (key : string) (value : V) (customTTL : option Z)
| DoGet (key : string)
| DoDelete (key : string)
| DoCleanup
| DoClear.

Definition applyOp (c : TradeCache V) (op : Z * Op) : TradeCache V :=
  match snd op with
  | DoSet key value customTTL => set key value customTTL (fst op) c
  | DoGet key => snd (get key (fst op) c)
  | DoDelete key => snd (delete key c)
  | DoCleanup => cleanup (fst op) c
  | DoClear => clear c
  end.

Definition after (history : list (Z * Op)) : TradeCache V :=
  foldl applyOp create history.

(** The clock has moved on by at least a millisecond between any two
    steps of the history. *)
Fixpoint ticking (t0 : Z) (history : list (Z * Op)) : Prop :=
  match history with
  | [] => True
  | (now, _) :: rest => t0 < now /\ ticking now rest
  end.

(** No [set] of the history uses the empty string as its key. *)
Definition keyed (history : list (Z * Op)) : Prop :=
  forall now key value customTTL,
    (now, DoSet key value customTTL) ∈ history -> key <> "".

End Cache.

Arguments DoGet {V} key.
Arguments DoDelete {V} key.
Arguments DoCleanup {V}.
Arguments DoClear {V}.

(** ** Facts about the cache *)

Section CacheFacts.
Context {V : Type}.
Variable cfg : TradeCacheConfig.

Lemma mapGet_mapSet key entry (m : list (string * CacheEntry V)) :
  mapGet key (mapSet key entry m) = Some entry.
Proof.
  unfold mapGet. induction m as [|[k e] rest IH]; cbn.
  - now rewrite String.eqb_refl.
  - destruct (String.eqb k key) eqn:Hk; cbn; rewrite Hk; [reflexivity|exact IH].
Qed.

Lemma mapSet_keys key entry (m : list (string * CacheEntry V)) :
  (mapSet key entry m).*1
  = if bool_decide (key ∈ m.*1) then m.*1 else m.*1 ++ [key].
Proof.
  induction m as [|[k e] rest IH]; cbn [mapSet].
  - rewrite bool_decide_false by apply not_elem_of_nil. reflexivity.
  - destruct (String.eqb_spec k key) as [->|Hne].
    + cbn. rewrite bool_decide_true by left. reflexivity.
    + cbn [fmap list_fmap fst]. rewrite IH.
      destruct (bool_decide_reflect (key ∈ rest.*1)) as [Hin|Hout].
      * rewrite bool_decide_true by (now right). reflexivity.
      * rewrite bool_decide_false; [reflexivity|].
        rewrite elem_of_cons. intros [?|?]; congruence.
Qed.

Lemma mapDelete_keys key (m : list (string * CacheEntry V)) :
  (mapDelete key m).*1 = filter (fun k => k <> key) m.*1.
Proof.
  unfold mapDelete. induction m as [|[k e] rest IH]; [reflexivity|].
  cbn [List.filter fst fmap list_fmap]. rewrite filter_cons.
  destruct (String.eqb_spec k key) as [->|Hne]; cbn [negb].
  - rewrite decide_False by congruence. exact IH.
  - rewrite decide_True by exact Hne. cbn. now rewrite IH.
Qed.

Lemma length_mapDelete key (m : list (string * CacheEntry V)) :
  NoDup m.*1 -> key ∈ m.*1 ->
  S (length (mapDelete key m)) = length m.
Proof.
  unfold mapDelete. induction m as [|[k e] rest IH]; cbn [fmap list_fmap fst].
  - intros _ Hin. now apply elem_of_nil in Hin.
  - intros [Hnotin Hnd]%NoDup_cons Hin. cbn [List.filter fst length].
    destruct (String.eqb_spec k key) as [->|Hne]; cbn [negb length].
    + f_equal. clear IH Hin Hnd.
      induction rest as [|[k' e'] rest IH]; [reflexivity|].
      cbn [List.filter fst fmap list_fmap] in *.
      apply not_elem_of_cons in Hnotin as [Hne Hnotin].
      destruct (String.eqb_spec k' key) as [->|_]; [congruence|].
      cbn [negb length]. f_equal. now apply IH.
    + f_equal. apply IH; [exact Hnd|].
      apply elem_of_cons in Hin as [?|?]; [congruence|assumption].
Qed.

Lemma length_mapDelete_le key (m : list (string * CacheEntry V)) :
  (length (mapDelete key m) <= length m)%nat.
Proof. unfold mapDelete. apply List.filter_length_le. Qed.

Lemma length_mapSet key entry (m : list (string * CacheEntry V)) :
  (length (mapSet key entry m) <= S (length m))%nat.
Proof.
  induction m as [|[k e] rest IH]; cbn; [lia|].
  destruct (String.eqb k key); cbn; lia.
Qed.

(** The loop of [evictLRU] picks a key of the map, or none. *)
Lemma lru_in_map now (m : list (string * CacheEntry V)) :
  forall best,
    match fst (foldl (lruStep now) best m) with
    | Some k => k ∈ m.*1 \/ fst best = Some k
    | None => fst best = None
    end.
Proof.
  induction m as [|[k e] rest IH]; intros best; cbn [foldl].
  - destruct (fst best); auto.
  - specialize (IH (lruStep now best (k, e))).
    destruct (fst (foldl (lruStep now) (lruStep now best (k, e)) rest))
      as [k'|].
    + destruct IH as [Hin|Hbest]; [left; now right|].
      unfold lruStep in Hbest. cbn [fst snd] in Hbest.
      destruct (scoreLt _ _); cbn in Hbest; [|now right].
      injection Hbest as <-. left. left.
    + unfold lruStep in IH. cbn [fst snd] in IH.
      destruct (scoreLt _ _); cbn in IH; [discriminate|exact IH].
Qed.

(** Once the loop holds a key it holds one to the end. *)
Lemma lru_keeps_a_key now (m : list (string * CacheEntry V)) :
  forall best, is_Some (fst best) ->
               is_Some (fst (foldl (lruStep now) best m)).
Proof.
  induction m as [|e rest IH]; intros best Hbest; [exact Hbest|].
  cbn [foldl]. apply IH. unfold lruStep.
  destruct (scoreLt _ _); [eauto|exact Hbest].
Qed.

(** With an entry that is older than [now], the loop picks a key. *)
Lemma lru_found now (m : list (string * CacheEntry V)) :
  m <> [] ->
  Forall (fun e => timestamp (snd e) < now) m ->
  is_Some (fst (foldl (lruStep now) (None, PlusInfinity) m)).
Proof.
  destruct m as [|[k e] rest]; [congruence|]. intros _ Hold.
  apply Forall_cons in Hold as [He _]. cbn [foldl].
  apply lru_keeps_a_key. unfold lruStep, score. cbn [fst snd] in *.
  assert ((now - timestamp e =? 0) = false) as -> by lia.
  cbn. eauto.
Qed.

(** With every entry written at [now], the loop picks none. *)
Lemma lru_none now (m : list (string * CacheEntry V)) :
  Forall (fun e => timestamp (snd e) = now /\ 0 <= hits (snd e)) m ->
  foldl (lruStep now) (None, PlusInfinity) m = (None, PlusInfinity).
Proof.
  induction m as [|[k e] rest IH]; intros Hall; [reflexivity|].
  apply Forall_cons in Hall as [[He Hh] Hrest]. cbn [foldl].
  unfold lruStep at 2. unfold score. cbn [fst snd] in *.
  assert ((now - timestamp e =? 0) = true) as -> by lia.
  destruct (hits e =? 0) eqn:Hzero; [now apply IH|].
  assert ((0 <? hits e) = true) as -> by lia.
  now apply IH.
Qed.

(** What a cache keeps through a history that ticks: no key twice, no
    more entries than [maxSize], no entry from the future, no negative
    hit count. *)
Definition sound (now : Z) (c : TradeCache V) : Prop :=
  NoDup (cache c).*1
  /\ size c <= maxSize cfg
  /\ Forall (fun e => timestamp (snd e) <= now /\ 0 <= hits (snd e)
                      /\ fst e <> "") (cache c).

Lemma NoDup_mapSet key entry (m : list (string * CacheEntry V)) :
  NoDup m.*1 -> NoDup (mapSet key entry m).*1.
Proof.
  intros Hnd. rewrite mapSet_keys.
  destruct (bool_decide_reflect (key ∈ m.*1)) as [Hin|Hout]; [exact Hnd|].
  apply NoDup_app. split; [exact Hnd|]. split.
  - intros k Hk ->%list_elem_of_singleton. contradiction.
  - repeat constructor. apply not_elem_of_nil.
Qed.

Lemma NoDup_mapDelete key (m : list (string * CacheEntry V)) :
  NoDup m.*1 -> NoDup (mapDelete key m).*1.
Proof. intros Hnd. rewrite mapDelete_keys. now apply NoDup_filter. Qed.

Lemma Forall_mapSet (P : string * CacheEntry V -> Prop) key entry m :
  P (key, entry) -> Forall P m ->
  (forall k e e', P (k, e) -> P (key, e') -> k = key -> P (k, e')) ->
  Forall P (mapSet key entry m).
Proof.
  intros Hnew Hall Hsame. induction m as [|[k e] rest IH]; cbn.
  - now constructor.
  - apply Forall_cons in Hall as [He Hrest].
    destruct (String.eqb_spec k key) as [Hk|Hne].
    + constructor; [|exact Hrest]. now apply (Hsame k e entry).
    + constructor; [exact He|now apply IH].
Qed.

Lemma Forall_mapDelete (P : string * CacheEntry V -> Prop) key m :
  Forall P m -> Forall P (mapDelete key m).
Proof.
  unfold mapDelete. intros Hall. induction m as [|e rest IH]; cbn;
    [constructor|].
  apply Forall_cons in Hall as [He Hrest].
  destruct (negb _); [constructor; auto|auto].
Qed.

Lemma mapGet_Some key entry (m : list (string * CacheEntry V)) :
  mapGet key m = Some entry -> (key, entry) ∈ m.
Proof.
  unfold mapGet. induction m as [|[k e] rest IH]; cbn; [discriminate|].
  destruct (String.eqb_spec k key) as [->|Hne]; cbn.
  - intros [= ->]. left.
  - intros H. right. now apply IH.
Qed.

Lemma mapGet_mapDelete key (m : list (string * CacheEntry V)) :
  mapGet key (mapDelete key m) = None.
Proof.
  unfold mapGet, mapDelete. induction m as [|[k e] rest IH]; [reflexivity|].
  cbn [List.filter fst]. destruct (String.eqb k key) eqn:Hk; cbn [negb];
    [exact IH|]. cbn. now rewrite Hk.
Qed.

Lemma mapSet_fresh key entry (m : list (string * CacheEntry V)) :
  key ∉ m.*1 -> mapSet key entry m = m ++ [(key, entry)].
Proof.
  induction m as [|[k e] rest IH]; cbn [mapSet fmap list_fmap fst];
    [reflexivity|].
  intros [Hne Hout]%not_elem_of_cons.
  destruct (String.eqb_spec k key) as [?|_]; [congruence|].
  cbn. now rewrite IH.
Qed.

Lemma length_mapSet_present key entry (m : list (string * CacheEntry V)) :
  key ∈ m.*1 -> length (mapSet key entry m) = length m.
Proof.
  intros Hin. rewrite <- (length_fmap fst (mapSet key entry m)), mapSet_keys.
  rewrite bool_decide_true by exact Hin. apply length_fmap.
Qed.

Lemma filter_sublist (f : string * CacheEntry V -> bool) m :
  List.filter f m `sublist_of` m.
Proof.
  induction m as [|e rest IH]; cbn; [constructor|].
  destruct (f e); [now apply sublist_skip|now apply sublist_cons].
Qed.

Lemma Forall_kept (P : string * CacheEntry V -> Prop)
    (f : string * CacheEntry V -> bool) m :
  Forall P m -> Forall P (List.filter f m).
Proof.
  intros Hall. induction m as [|e rest IH]; cbn; [constructor|].
  apply Forall_cons in Hall as [He Hrest].
  destruct (f e); [constructor; auto|auto].
Qed.

Lemma evictLRU_none now (c : TradeCache V) :
  Forall (fun e => timestamp (snd e) = now /\ 0 <= hits (snd e)) (cache c) ->
  evictLRU now c = c.
Proof. intros H. unfold evictLRU. now rewrite (lru_none now _ H). Qed.

Lemma evictLRU_one now (c : TradeCache V) :
  NoDup (cache c).*1 -> cache c <> [] ->
  Forall (fun e => timestamp (snd e) < now /\ fst e <> "") (cache c) ->
  exists k,
    cache (evictLRU now c) = mapDelete k (cache c)
    /\ size (evictLRU now c) = size c - 1.
Proof.
  intros Hnd Hne Hall. unfold evictLRU.
  assert (Forall (fun e => timestamp (snd e) < now) (cache c)) as Hold
    by (eapply Forall_impl; [exact Hall|]; now intros e [? ?]).
  pose proof (lru_found now (cache c) Hne Hold) as [k Hk].
  pose proof (lru_in_map now (cache c) (None, PlusInfinity)) as Hin.
  rewrite Hk in *. destruct Hin as [Hin|Hin]; [|discriminate].
  assert (k <> "") as Hkey.
  { apply list_elem_of_fmap in Hin as ([k' e] & -> & Hin).
    rewrite Forall_forall in Hall. now apply (Hall _ Hin). }
  destruct (String.eqb_spec k "") as [?|_]; [congruence|]. cbn [negb].
  exists k. split; [reflexivity|]. unfold size. cbn [cache].
  rewrite <- (length_mapDelete k (cache c) Hnd Hin). lia.
Qed.

Lemma sound_later t now (c : TradeCache V) :
  sound t c -> t <= now -> sound now c.
Proof.
  intros (Hnd & Hsize & Hall) Hle. repeat split; try assumption.
  eapply Forall_impl; [exact Hall|]. intros e (? & ? & ?).
  repeat split; try assumption. lia.
Qed.

Lemma sound_applyOp t now op (c : TradeCache V) :
  1 <= maxSize cfg -> sound t c -> t < now ->
  (forall key value customTTL, op = DoSet key value customTTL -> key <> "") ->
  sound now (applyOp cfg c (now, op)).
Proof.
  intros Hmax Hsound Hlt Hkey.
  assert (Forall (fun e => timestamp (snd e) < now /\ fst e <> "") (cache c))
    as Hold.
  { destruct Hsound as (_ & _ & Hall). eapply Forall_impl; [exact Hall|].
    intros e (? & ? & ?). split; [lia|assumption]. }
  pose proof (sound_later t now c Hsound ltac:(lia)) as (Hnd & Hsize & Hall).
  destruct op as [key value customTTL|key|key| |]; cbn [applyOp fst snd].
  - specialize (Hkey key value customTTL eq_refl). unfold set.
    set (entry := mkEntry value now (chooseTTL cfg key customTTL) 0).
    assert (exists c1,
              (if maxSize cfg <=? size c then evictLRU now c else c) = c1
              /\ NoDup (cache c1).*1 /\ size c1 < maxSize cfg
              /\ Forall (fun e => timestamp (snd e) <= now
                                  /\ 0 <= hits (snd e) /\ fst e <> "")
                        (cache c1)) as (c1 & -> & Hnd1 & Hsize1 & Hall1).
    { destruct (maxSize cfg <=? size c) eqn:Hfull.
      - assert (cache c <> []) as Hne.
        { intros Hnil. unfold size in Hfull. rewrite Hnil in Hfull.
          cbn [length] in Hfull. apply Z.leb_le in Hfull.
          change (Z.of_nat 0) with 0 in Hfull. clear -Hfull Hmax. lia. }
        destruct (evictLRU_one now c Hnd Hne Hold) as (k & Hk & Hs).
        eexists. split; [reflexivity|]. rewrite Hk, Hs.
        split; [now apply NoDup_mapDelete|]. split; [lia|].
        now apply Forall_mapDelete.
      - exists c. repeat split; try assumption. lia. }
    repeat split; cbn [cache].
    + now apply NoDup_mapSet.
    + unfold size in *. cbn [cache].
      pose proof (length_mapSet key entry (cache c1)). lia.
    + apply Forall_mapSet; [cbn; repeat split; (lia || assumption)
                           |exact Hall1|].
      intros k e e' _ H ->. exact H.
  - unfold get. destruct (mapGet key (cache c)) as [entry|] eqn:Hget.
    + apply mapGet_Some in Hget.
      assert (timestamp entry <= now /\ 0 <= hits entry /\ key <> "") as He.
      { rewrite Forall_forall in Hall. exact (Hall _ Hget). }
      assert (key ∈ (cache c).*1) as Hin
        by (apply list_elem_of_fmap; now exists (key, entry)).
      destruct (expired now entry); cbn [snd]; repeat split; cbn [cache].
      * now apply NoDup_mapDelete.
      * unfold size in *. cbn [cache].
        pose proof (length_mapDelete_le key (cache c)). lia.
      * now apply Forall_mapDelete.
      * now apply NoDup_mapSet.
      * unfold size in *. cbn [cache].
        now rewrite (length_mapSet_present _ _ _ Hin).
      * apply Forall_mapSet; [cbn; repeat split; (lia || tauto)|exact Hall|].
        intros k e e' _ H ->. exact H.
    + cbn [snd]. repeat split; assumption.
  - unfold delete. cbn [snd]. repeat split; cbn [cache].
    + now apply NoDup_mapDelete.
    + unfold size in *. cbn [cache].
      pose proof (length_mapDelete_le key (cache c)). lia.
    + now apply Forall_mapDelete.
  - unfold cleanup. repeat split; cbn [cache].
    + eapply sublist_NoDup; [exact Hnd|]. apply fmap_sublist, filter_sublist.
    + unfold size in *. cbn [cache].
      pose proof (List.filter_length_le
                    (fun e => negb (expired now (snd e))) (cache c)). lia.
    + now apply Forall_kept.
  - unfold clear. split; [apply NoDup_nil_2|]. split; [|constructor].
    unfold size. cbn [cache length]. clear -Hmax. lia.
Qed.

End CacheFacts.

(** X28.  What is written is read back until it expires.  After
    [set key value] at time [t0], with whatever the cache held before,
    [get key] at time [t1] returns the value as long as [t1 - t0] is not
    more than the entry's time to live (the custom one, unless it is
    missing or zero), and otherwise returns [null] and removes the entry
    from the cache. *)
Theorem written_then_read {V} (cfg : TradeCacheConfig) (key : string)
    (value : V) (customTTL : option Z) (t0 t1 : Z) (c : TradeCache V) :
  let written := set cfg key value customTTL t0 c in
  let entryTTL := chooseTTL cfg key customTTL in
  fst (get key t1 written)
  = (if entryTTL <? t1 - t0 then None else Some value)
  /\ mapGet key (cache (snd (get key t1 written)))
     = if entryTTL <? t1 - t0 then None
       else Some (mkEntry value t0 entryTTL 1).
Proof.
  cbn zeta. unfold set, get. cbn [cache].
  rewrite mapGet_mapSet. unfold expired. cbn [ttl timestamp data hits].
  destruct (chooseTTL cfg key customTTL <? t1 - t0); cbn [fst snd cache].
  - split; [reflexivity|]. apply mapGet_mapDelete.
  - split; [reflexivity|]. apply mapGet_mapSet.
Qed.

(** X29.  The cache keeps within [maxSize], given time.  For a
    [maxSize] of at least one, keys that are not the empty string, and a
    history of [set], [get], [delete], [cleanup] and [clear] on a new
    cache in which the clock has moved on between any two steps, the
    cache never holds more than [maxSize] entries. *)
Theorem tradeCache_size_bounded {V} (cfg : TradeCacheConfig) (t0 : Z)
    (history : list (Z * Op (V := V))) :
  1 <= maxSize cfg -> ticking t0 history -> keyed history ->
  size (after cfg history) <= maxSize cfg.
Proof.
  intros Hmax Htick Hkeyed. unfold after.
  assert (sound cfg t0 (create (V := V))) as H0.
  { split; [apply NoDup_nil_2|]. split; [|constructor].
    unfold size. cbn [cache create length]. lia. }
  enough (exists t, sound cfg t (foldl (applyOp cfg) create history))
    as (t & _ & Hsize & _) by exact Hsize.
  revert H0 Htick Hkeyed. generalize (create (V := V)) as c. revert t0.
  induction history as [|[now op] rest IH]; intros t0 c Hsound Htick Hkeyed.
  - now exists t0.
  - destruct Htick as [Hlt Htick]. cbn [foldl].
    apply (IH now); [|exact Htick|].
    + apply (sound_applyOp cfg t0 now op c Hmax Hsound Hlt).
      intros key value customTTL ->. apply (Hkeyed now key value customTTL).
      left.
    + intros now' key value customTTL Hin.
      apply (Hkeyed now' key value customTTL). now right.
Qed.

Lemma tradeCache_size_bounded_witness :
  size (after (mkConfig 120000 60000 2 60000)
          [(1, DoSet "search:a" 10 None); (2, DoSet "search:b" 20 None);
           (3, DoGet "search:a"); (4, DoSet "fetch:c" 30 (Some 500));
           (5, DoSet "search:d" 40 None)]) <= 2.
Proof.
  apply (tradeCache_size_bounded (mkConfig 120000 60000 2 60000) 0
           [(1, DoSet "search:a" 10 None); (2, DoSet "search:b" 20 None);
            (3, DoGet "search:a"); (4, DoSet "fetch:c" 30 (Some 500));
            (5, DoSet "search:d" 40 None)]).
  - cbn. lia.
  - cbn. lia.
  - intros now key value customTTL Hin.
    repeat (apply elem_of_cons in Hin as [Heq|Hin];
            [inversion Heq; discriminate|]).
    now apply elem_of_nil in Hin.
Defined.

(** X30.  Within one millisecond the cache does not keep within
    [maxSize].  Entries written in the millisecond of the call have age
    zero, their score is [NaN] or infinite, and [evictLRU] finds no entry
    to evict: when values are written under different keys to a new cache
    within one millisecond, every one of them stays in the cache, however
    small [maxSize] is. *)
Theorem writes_in_one_millisecond_all_stay {V} (cfg : TradeCacheConfig)
    (now : Z) (writes : list (string * V)) :
  NoDup writes.*1 ->
  (cache (after cfg ((fun w => (now, DoSet (fst w) (snd w) None)) <$> writes))).*1
  = writes.*1
  /\ size (after cfg ((fun w => (now, DoSet (fst w) (snd w) None)) <$> writes))
     = Z.of_nat (length writes).
Proof.
  intros Hnd.
  enough ((cache (after cfg ((fun w => (now, DoSet (fst w) (snd w) None))
                               <$> writes))).*1 = writes.*1) as Hkeys.
  { split; [exact Hkeys|]. unfold size.
    now rewrite <- (length_fmap fst), Hkeys, length_fmap. }
  unfold after.
  assert (Forall (fun e => timestamp (snd e) = now /\ 0 <= hits (snd e))
                 (cache (create (V := V)))) as H0 by constructor.
  assert (forall w, w ∈ writes -> fst w ∉ (cache (create (V := V))).*1) as H1
    by (intros w _; apply not_elem_of_nil).
  change (writes.*1) with ((cache (create (V := V))).*1 ++ writes.*1).
  revert H0 H1. generalize (create (V := V)) as c.
  induction writes as [|[key value] rest IH]; intros c Hall Hfresh.
  - cbn. now rewrite app_nil_r.
  - apply NoDup_cons in Hnd as [Hnotin Hnd]. cbn [fmap list_fmap foldl].
    cbn [applyOp fst snd]. unfold set.
    rewrite (evictLRU_none now c Hall).
    assert ((if maxSize cfg <=? size c then c else c) = c) as ->
      by now destruct (maxSize cfg <=? size c).
    rewrite IH; [|exact Hnd|..]; cbn [cache].
    + rewrite mapSet_fresh by (apply (Hfresh (key, value)); left).
      rewrite fmap_app, <- app_assoc. reflexivity.
    + rewrite mapSet_fresh by (apply (Hfresh (key, value)); left).
      apply Forall_app. split; [exact Hall|].
      repeat constructor; cbn; lia.
    + intros w Hw. rewrite mapSet_fresh by (apply (Hfresh (key, value)); left).
      rewrite fmap_app, elem_of_app. cbn.
      intros [Hin|Hin%list_elem_of_singleton].
      * now apply (Hfresh w); [right|].
      * apply Hnotin. rewrite <- Hin. apply list_elem_of_fmap. now exists w.
Qed.

Lemma writes_in_one_millisecond_all_stay_witness :
  (cache (after (mkConfig 120000 60000 2 60000)
            ((fun w => (7, DoSet (fst w) (snd w) None))
               <$> [("search:a", 10); ("search:b", 20); ("search:c", 30)]))).*1
  = ["search:a"; "search:b"; "search:c"]
  /\ size (after (mkConfig 120000 60000 2 60000)
             ((fun w => (7, DoSet (fst w) (snd w) None))
                <$> [("search:a", 10); ("search:b", 20); ("search:c", 30)]))
     = 3.
Proof.
  apply (writes_in_one_millisecond_all_stay (mkConfig 120000 60000 2 60000) 7
           [("search:a", 10); ("search:b", 20); ("search:c", 30)]).
  apply (bool_decide_unpack _). vm_compute. exact I.
Defined.

End TradeCache.
